(** * littleclusters/lc: the attest plan builder and the lc.state record

    A shallow embedding of two pieces of the repository:

    - package [attest] (the plan builder): [PlanBase] and its four setters,
      [HTTPPlan] and [CLIPlan] with their builder methods and [T()];
    - package [state] (internal/state/state.go): [Load], [Save], [SaveTo],
      together with the parts of Go's [strings], [unicode], [unicode/utf8],
      [fmt] and [os] packages they call.

    Go objects reached through pointers live in an explicit heap, so that the
    sharing between a plan and the assert made from it is part of the model.
    A Go panic is an outcome of its own, carrying the panic message. *)

From Stdlib Require Import ZArith Ascii String List Bool Lia.
From stdpp Require Import base option list gmap strings.

Local Open Scope Z_scope.

(* ===================================================================== *)
(** * Package attest                                                      *)
(* ===================================================================== *)

Module attest.

(** [type timing int] with its three [iota] constants. *)
Inductive timing : Set :=
| TimingImmediate
| TimingEventually
| TimingConsistently.

Definition timing_eqb (a b : timing) : bool :=
  match a, b with
  | TimingImmediate, TimingImmediate
  | TimingEventually, TimingEventually
  | TimingConsistently, TimingConsistently => true
  | _, _ => false
  end.

(** [time.Duration] is an [int64] count of nanoseconds.  The builder only
    stores and copies durations, so no arithmetic (and no wrap-around) is
    involved. *)
Definition Duration : Set := Z.

Definition Second : Duration := 1000000000.

(** A Go pointer: [nil] or the address of an allocated object. *)
Inductive ptr : Set :=
| nil
| addr (l : positive).

(** [context.Context] is an interface value; the builder never looks inside
    it, so it is an opaque handle. *)
Inductive Context : Set :=
| ctxNil
| ctxRef (id : positive).

(** Modelled from the spec: the [Config] struct.  Its declaration is not among
    the source files; the plan code reads the field [DefaultRetryTimeout], and
    the spec's data model lists "defaultRetryTimeout: duration,
    defaultConsistencyDuration: duration, cancellationContext". *)
Record Config : Set := {
  DefaultRetryTimeout : Duration;
  DefaultConsistencyDuration : Duration;
  CancellationContext : Context
}.

(** [type PlanBase struct { timing timing; timeout time.Duration;
    ctx context.Context; config *Config }].  The Go field names are prefixed
    with [pb_] because [timing] already names the type. *)
Record PlanBase : Set := {
  pb_timing : timing;
  pb_timeout : Duration;
  pb_ctx : Context;
  pb_config : ptr
}.

(** [type H map[string]string]. *)
Definition H : Type := gmap string string.

(** [type HTTPPlan struct { PlanBase; method, url string; headers H;
    body []byte }]. *)
Record HTTPPlan : Type := {
  http_base : PlanBase;
  method : string;
  url : string;
  headers : H;
  body : list ascii
}.

(** [type CLIPlan struct { PlanBase; command string; args []string }]. *)
Record CLIPlan : Type := {
  cli_base : PlanBase;
  command : string;
  args : list string
}.

(** The assert structs are declared outside the given sources; the fields
    below are the ones the composite literals in [T()] initialise:
    [AssertBase{config: p.config}] and [plan: p]. *)
Record AssertBase : Set := {
  ab_config : ptr
}.

Record HTTPAssert : Set := {
  ha_base : AssertBase;
  ha_plan : ptr
}.

Record CLIAssert : Set := {
  ca_base : AssertBase;
  ca_plan : ptr
}.

(** The heap: one typed store per struct that the code reaches through a
    pointer. *)
Record Heap : Type := {
  configs : gmap positive Config;
  httpPlans : gmap positive HTTPPlan;
  cliPlans : gmap positive CLIPlan;
  httpAsserts : gmap positive HTTPAssert;
  cliAsserts : gmap positive CLIAssert
}.

Definition deref {A : Type} (m : gmap positive A) (p : ptr) : option A :=
  match p with
  | nil => None
  | addr l => m !! l
  end.

(** The text of the run-time panic raised by a nil dereference. *)
Definition nilDeref : string :=
  "runtime error: invalid memory address or nil pointer dereference".

(** Result of a [PlanBase] method on the struct it points to: the updated
    struct, or a panic together with the struct as the panic left it. *)
Inductive result (A : Type) : Type :=
| Done (a : A)
| Fault (msg : string) (a : A).
Arguments Done {A} a.
Arguments Fault {A} msg a.

(** Result of a method call on the heap. *)
Inductive outcome (A : Type) : Type :=
| Return (a : A) (h : Heap)
| Panic (msg : string) (h : Heap).
Arguments Return {A} a h.
Arguments Panic {A} msg h.

Definition set_timing (t : timing) (b : PlanBase) : PlanBase :=
  {| pb_timing := t; pb_timeout := pb_timeout b;
     pb_ctx := pb_ctx b; pb_config := pb_config b |}.

Definition set_timeout (d : Duration) (b : PlanBase) : PlanBase :=
  {| pb_timing := pb_timing b; pb_timeout := d;
     pb_ctx := pb_ctx b; pb_config := pb_config b |}.

(** [func (b *PlanBase) setEventually()]:
    [b.timing = TimingEventually; b.timeout = b.config.DefaultRetryTimeout]. *)
Definition setEventually (cfgs : gmap positive Config) (b : PlanBase)
  : result PlanBase :=
  let b1 := set_timing TimingEventually b in
  match deref cfgs (pb_config b1) with
  | None => Fault nilDeref b1
  | Some c => Done (set_timeout (DefaultRetryTimeout c) b1)
  end.

(** [func (b *PlanBase) setWithin(timeout time.Duration)]. *)
Definition setWithin (timeout : Duration) (b : PlanBase) : result PlanBase :=
  if negb (timing_eqb (pb_timing b) TimingEventually)
  then Fault "Within() can only be called after Eventually()" b
  else Done (set_timeout timeout b).

(** [func (b *PlanBase) setConsistently()]:
    [b.timing = TimingConsistently; b.timeout = b.config.DefaultRetryTimeout]. *)
Definition setConsistently (cfgs : gmap positive Config) (b : PlanBase)
  : result PlanBase :=
  let b1 := set_timing TimingConsistently b in
  match deref cfgs (pb_config b1) with
  | None => Fault nilDeref b1
  | Some c => Done (set_timeout (DefaultRetryTimeout c) b1)
  end.

(** [func (b *PlanBase) setFor(timeout time.Duration)]. *)
Definition setFor (timeout : Duration) (b : PlanBase) : result PlanBase :=
  if negb (timing_eqb (pb_timing b) TimingConsistently)
  then Fault "For() can only be called after Consistently()" b
  else Done (set_timeout timeout b).

(** The four builder calls of the [Plan] interface, as data. *)
Inductive call : Set :=
| CallEventually
| CallWithin (d : Duration)
| CallConsistently
| CallFor (d : Duration).

Definition setter (c : call) (cfgs : gmap positive Config) (b : PlanBase)
  : result PlanBase :=
  match c with
  | CallEventually => setEventually cfgs b
  | CallWithin d => setWithin d b
  | CallConsistently => setConsistently cfgs b
  | CallFor d => setFor d b
  end.

(** [type Plan[P any, A any] interface { Eventually() P;
    Within(time.Duration) P; Consistently() P; For(time.Duration) P; T() A }].
    Both implementations have pointer receivers, so a method takes the
    receiver pointer and the heap; [P] and [A] are the struct types behind the
    plan pointer and the assert pointer. *)
Class Plan (P A : Type) : Type := {
  Eventually : ptr -> Heap -> outcome ptr;
  Within : Duration -> ptr -> Heap -> outcome ptr;
  Consistently : ptr -> Heap -> outcome ptr;
  For : Duration -> ptr -> Heap -> outcome ptr;
  T : ptr -> Heap -> outcome ptr
}.

(** One builder call through the interface. *)
Definition invoke {P A : Type} `{Plan P A} (c : call) (p : ptr) (h : Heap)
  : outcome ptr :=
  match c with
  | CallEventually => Eventually p h
  | CallWithin d => Within d p h
  | CallConsistently => Consistently p h
  | CallFor d => For d p h
  end.

(** A chain [p.c1().c2()...]: each call is made on the pointer the previous
    one returned; a panic ends the chain. *)
Fixpoint chain {P A : Type} `{Plan P A} (cs : list call) (p : ptr) (h : Heap)
  : outcome ptr :=
  match cs with
  | [] => Return p h
  | c :: cs' =>
    match invoke c p h with
    | Return p' h' => chain cs' p' h'
    | Panic msg h' => Panic msg h'
    end
  end.

(** When a call is legal: the two mode selectors need the plan's [Config],
    the two overrides need the matching mode. *)
Definition legal (c : call) (cfgs : gmap positive Config) (b : PlanBase) : Prop :=
  match c with
  | CallEventually | CallConsistently => is_Some (deref cfgs (pb_config b))
  | CallWithin _ => pb_timing b = TimingEventually
  | CallFor _ => pb_timing b = TimingConsistently
  end.

(** The heap an outcome leaves behind. *)
Definition heapOf {A : Type} (o : outcome A) : Heap :=
  match o with
  | Return _ h => h
  | Panic _ h => h
  end.

End attest.

(** ** HTTPPlan *)

Module HTTPPlan.
Import attest.

Definition with_base (b : PlanBase) (p : HTTPPlan) : HTTPPlan :=
  {| http_base := b; method := method p; url := url p;
     headers := headers p; body := body p |}.

Definition store (l : positive) (p : HTTPPlan) (h : Heap) : Heap :=
  {| configs := configs h; httpPlans := <[l := p]> (httpPlans h);
     cliPlans := cliPlans h; httpAsserts := httpAsserts h;
     cliAsserts := cliAsserts h |}.

(** A method body of the shape [p.setX(...); return p]: the setter runs on
    the embedded [PlanBase] of the struct [p] points to, and the receiver
    pointer itself is returned. *)
Definition through (f : gmap positive Config -> PlanBase -> result PlanBase)
    (p : ptr) (h : Heap) : outcome ptr :=
  match p with
  | nil => Panic nilDeref h
  | addr l =>
    match httpPlans h !! l with
    | None => Panic nilDeref h
    | Some pl =>
      match f (configs h) (http_base pl) with
      | Done b => Return p (store l (with_base b pl) h)
      | Fault msg b => Panic msg (store l (with_base b pl) h)
      end
    end
  end.

Definition Eventually (p : ptr) (h : Heap) : outcome ptr :=
  through setEventually p h.

Definition Within (timeout : Duration) (p : ptr) (h : Heap) : outcome ptr :=
  through (fun _ => setWithin timeout) p h.

Definition Consistently (p : ptr) (h : Heap) : outcome ptr :=
  through setConsistently p h.

Definition For (timeout : Duration) (p : ptr) (h : Heap) : outcome ptr :=
  through (fun _ => setFor timeout) p h.

Definition alloc_assert (a : HTTPAssert) (h : Heap) : positive * Heap :=
  let l := fresh (dom (httpAsserts h)) in
  (l, {| configs := configs h; httpPlans := httpPlans h;
         cliPlans := cliPlans h;
         httpAsserts := <[l := a]> (httpAsserts h);
         cliAsserts := cliAsserts h |}).

(** [func (p *HTTPPlan) T() *HTTPAssert]:
    [return &HTTPAssert{AssertBase: AssertBase{config: p.config}, plan: p}]. *)
Definition T (p : ptr) (h : Heap) : outcome ptr :=
  match deref (httpPlans h) p with
  | None => Panic nilDeref h
  | Some pl =>
    let a := {| ha_base := {| ab_config := pb_config (http_base pl) |};
                ha_plan := p |} in
    let '(l, h') := alloc_assert a h in
    Return (addr l) h'
  end.

(** The check [var _ Plan[*HTTPPlan, *HTTPAssert]] of the source: the
    pointer type implements the interface. *)
#[export] Instance implementsPlan : Plan HTTPPlan HTTPAssert := {|
  attest.Eventually := Eventually;
  attest.Within := Within;
  attest.Consistently := Consistently;
  attest.For := For;
  attest.T := T
|}.

(** Builder calls and chains of them on an [HTTPPlan]. *)
Definition invoke : call -> ptr -> Heap -> outcome ptr :=
  attest.invoke (P := HTTPPlan).

Definition chain : list call -> ptr -> Heap -> outcome ptr :=
  attest.chain (P := HTTPPlan).

(** The timing selection of the plan [p] points to. *)
Definition timingOf (p : ptr) (h : Heap) : option (timing * Duration) :=
  match deref (httpPlans h) p with
  | None => None
  | Some pl => Some (pb_timing (http_base pl), pb_timeout (http_base pl))
  end.

(** The timing selection an assert works with: the assert keeps the plan
    pointer, so every check reads [a.plan.timing] and [a.plan.timeout] from
    the heap at the time it runs. *)
Definition assertTiming (a : ptr) (h : Heap) : option (timing * Duration) :=
  match deref (httpAsserts h) a with
  | None => None
  | Some x => timingOf (ha_plan x) h
  end.

End HTTPPlan.

(** ** CLIPlan *)

Module CLIPlan.
Import attest.

Definition with_base (b : PlanBase) (p : CLIPlan) : CLIPlan :=
  {| cli_base := b; command := command p; args := args p |}.

Definition store (l : positive) (p : CLIPlan) (h : Heap) : Heap :=
  {| configs := configs h; httpPlans := httpPlans h;
     cliPlans := <[l := p]> (cliPlans h); httpAsserts := httpAsserts h;
     cliAsserts := cliAsserts h |}.

Definition through (f : gmap positive Config -> PlanBase -> result PlanBase)
    (p : ptr) (h : Heap) : outcome ptr :=
  match p with
  | nil => Panic nilDeref h
  | addr l =>
    match cliPlans h !! l with
    | None => Panic nilDeref h
    | Some pl =>
      match f (configs h) (cli_base pl) with
      | Done b => Return p (store l (with_base b pl) h)
      | Fault msg b => Panic msg (store l (with_base b pl) h)
      end
    end
  end.

Definition Eventually (p : ptr) (h : Heap) : outcome ptr :=
  through setEventually p h.

Definition Within (timeout : Duration) (p : ptr) (h : Heap) : outcome ptr :=
  through (fun _ => setWithin timeout) p h.

Definition Consistently (p : ptr) (h : Heap) : outcome ptr :=
  through setConsistently p h.

Definition For (timeout : Duration) (p : ptr) (h : Heap) : outcome ptr :=
  through (fun _ => setFor timeout) p h.

Definition alloc_assert (a : CLIAssert) (h : Heap) : positive * Heap :=
  let l := fresh (dom (cliAsserts h)) in
  (l, {| configs := configs h; httpPlans := httpPlans h;
         cliPlans := cliPlans h; httpAsserts := httpAsserts h;
         cliAsserts := <[l := a]> (cliAsserts h) |}).

(** [func (p *CLIPlan) T() *CLIAssert]:
    [return &CLIAssert{AssertBase: AssertBase{config: p.config}, plan: p}]. *)
Definition T (p : ptr) (h : Heap) : outcome ptr :=
  match deref (cliPlans h) p with
  | None => Panic nilDeref h
  | Some pl =>
    let a := {| ca_base := {| ab_config := pb_config (cli_base pl) |};
                ca_plan := p |} in
    let '(l, h') := alloc_assert a h in
    Return (addr l) h'
  end.

(** The check [var _ Plan[*CLIPlan, *CLIAssert]] of the source. *)
#[export] Instance implementsPlan : Plan CLIPlan CLIAssert := {|
  attest.Eventually := Eventually;
  attest.Within := Within;
  attest.Consistently := Consistently;
  attest.For := For;
  attest.T := T
|}.

(** Builder calls and chains of them on a [CLIPlan]. *)
Definition invoke : call -> ptr -> Heap -> outcome ptr :=
  attest.invoke (P := CLIPlan).

Definition chain : list call -> ptr -> Heap -> outcome ptr :=
  attest.chain (P := CLIPlan).

Definition timingOf (p : ptr) (h : Heap) : option (timing * Duration) :=
  match deref (cliPlans h) p with
  | None => None
  | Some pl => Some (pb_timing (cli_base pl), pb_timeout (cli_base pl))
  end.

Definition assertTiming (a : ptr) (h : Heap) : option (timing * Duration) :=
  match deref (cliAsserts h) a with
  | None => None
  | Some x => timingOf (ca_plan x) h
  end.

End CLIPlan.

(* ===================================================================== *)
(** * The Go library functions used by package state                      *)
(* ===================================================================== *)

(** A Go string is an immutable sequence of bytes. *)
Definition gostring : Set := list ascii.

(** A string literal. *)
Definition go (s : string) : gostring := list_ascii_of_string s.

(** The newline byte, [\n] in a Go literal. *)
Definition nl : ascii := "010"%char.

(** The numeric value of a byte. *)
Definition byteval (c : ascii) : Z := Z.of_N (N_of_ascii c).

(** [s[i]] for an index in range. *)
Definition at_ (s : gostring) (i : Z) : Z :=
  byteval (nth (Z.to_nat i) s Ascii.zero).

(** [s[lo:hi]], [s[lo:]] and [s[:hi]]. *)
Definition slice (s : gostring) (lo hi : Z) : gostring :=
  drop (Z.to_nat lo) (take (Z.to_nat hi) s).

Definition len (s : gostring) : Z := Z.of_nat (length s).

(** ** unicode/utf8 *)

Module utf8.

Definition RuneError : Z := 0xFFFD.
Definition RuneSelf : Z := 0x80.
Definition UTFMax : Z := 4.

Definition maskx : Z := 0x3F.
Definition mask2 : Z := 0x1F.
Definition mask3 : Z := 0x0F.
Definition mask4 : Z := 0x07.

Definition locb : Z := 0x80.
Definition hicb : Z := 0xBF.

(** The codes of the [first] table: the high nibble indexes [acceptRanges],
    the low bits give the length of the sequence. *)
Definition xx : Z := 0xF1.
Definition as_ : Z := 0xF0.
Definition s1 : Z := 0x02.
Definition s2 : Z := 0x13.
Definition s3 : Z := 0x03.
Definition s4 : Z := 0x23.
Definition s5 : Z := 0x34.
Definition s6 : Z := 0x04.
Definition s7 : Z := 0x44.

(** [first[b]]: information about the first byte of a UTF-8 sequence.  The
    256-entry table, written by its runs. *)
Definition first (b : Z) : Z :=
  if b <? 0x80 then as_          (* 0x00-0x7F *)
  else if b <? 0xC2 then xx      (* 0x80-0xC1 *)
  else if b <? 0xE0 then s1      (* 0xC2-0xDF *)
  else if b =? 0xE0 then s2
  else if b <? 0xED then s3      (* 0xE1-0xEC *)
  else if b =? 0xED then s4
  else if b <? 0xF0 then s3      (* 0xEE-0xEF *)
  else if b =? 0xF0 then s5
  else if b <? 0xF4 then s6      (* 0xF1-0xF3 *)
  else if b =? 0xF4 then s7
  else xx.                       (* 0xF5-0xFF *)

(** [acceptRanges[i]]: the range of valid values for the second byte. *)
Definition acceptRanges (i : Z) : Z * Z :=
  match i with
  | 0 => (locb, hicb)
  | 1 => (0xA0, hicb)
  | 2 => (locb, 0x9F)
  | 3 => (0x90, hicb)
  | 4 => (locb, 0x8F)
  | _ => (0, 0)
  end.

(** [func DecodeRuneInString(s string) (r rune, size int)]. *)
Definition DecodeRuneInString (s : gostring) : Z * Z :=
  match s with
  | [] => (RuneError, 0)
  | c0 :: t0 =>
    let b0 := byteval c0 in
    let x := first b0 in
    if as_ <=? x then
      (if x =? xx then RuneError else b0, 1)
    else
      let sz := Z.land x 7 in
      let accept := acceptRanges (Z.shiftr x 4) in
      if len s <? sz then (RuneError, 1) else
      match t0 with
      | [] => (RuneError, 1)
      | c1 :: t1 =>
        let b1 := byteval c1 in
        if (b1 <? fst accept) || (snd accept <? b1) then (RuneError, 1) else
        if sz <=? 2 then
          (Z.lor (Z.shiftl (Z.land b0 mask2) 6) (Z.land b1 maskx), 2)
        else
        match t1 with
        | [] => (RuneError, 1)
        | c2 :: t2 =>
          let b2 := byteval c2 in
          if (b2 <? locb) || (hicb <? b2) then (RuneError, 1) else
          if sz <=? 3 then
            (Z.lor (Z.lor (Z.shiftl (Z.land b0 mask3) 12)
                          (Z.shiftl (Z.land b1 maskx) 6))
                   (Z.land b2 maskx), 3)
          else
          match t2 with
          | [] => (RuneError, 1)
          | c3 :: _ =>
            let b3 := byteval c3 in
            if (b3 <? locb) || (hicb <? b3) then (RuneError, 1) else
            (Z.lor (Z.lor (Z.lor (Z.shiftl (Z.land b0 mask4) 18)
                                 (Z.shiftl (Z.land b1 maskx) 12))
                          (Z.shiftl (Z.land b2 maskx) 6))
                   (Z.land b3 maskx), 4)
          end
        end
      end
  end.

(** [func RuneStart(b byte) bool { return b&0xC0 != 0x80 }]. *)
Definition RuneStart (b : Z) : bool := negb (Z.land b 0xC0 =? 0x80).

(** The loop of [DecodeLastRuneInString]:
    [for start--; start >= lim; start-- { if RuneStart(s[start]) { break } }],
    entered after the first decrement.  It runs at most [UTFMax] tests. *)
Fixpoint backToStart (n : nat) (s : gostring) (lim start : Z) : Z :=
  match n with
  | O => start
  | S n' =>
    if start <? lim then start
    else if RuneStart (at_ s start) then start
    else backToStart n' s lim (start - 1)
  end.

(** [func DecodeLastRuneInString(s string) (r rune, size int)]. *)
Definition DecodeLastRuneInString (s : gostring) : Z * Z :=
  let end_ := len s in
  if end_ =? 0 then (RuneError, 0) else
  let start := end_ - 1 in
  let r := at_ s start in
  if r <? RuneSelf then (r, 1) else
  let lim := if end_ - UTFMax <? 0 then 0 else end_ - UTFMax in
  let start := backToStart 4 s lim (start - 1) in
  let start := if start <? 0 then 0 else start in
  let '(r, size) := DecodeRuneInString (slice s start end_) in
  if negb (start + size =? end_) then (RuneError, 1) else (r, size).

(** [func RuneCountInString(s string) int]: the number of runes the decoder
    sees, every invalid byte counting as one rune of width 1. *)
Fixpoint runeCount_from (fuel : nat) (s : gostring) : Z :=
  match fuel with
  | O => 0
  | S fuel' =>
    match s with
    | [] => 0
    | _ => 1 + runeCount_from fuel' (drop (Z.to_nat (snd (DecodeRuneInString s))) s)
    end
  end.

Definition RuneCountInString (s : gostring) : Z := runeCount_from (length s) s.

End utf8.

(** ** unicode *)

Module unicode.

Definition MaxLatin1 : Z := 0xFF.

(** The 16-bit ranges of the [White_Space] table (all with stride 1). *)
Definition White_Space : list (Z * Z) :=
  [ (0x0009, 0x000d); (0x0020, 0x0020); (0x0085, 0x0085); (0x00a0, 0x00a0);
    (0x1680, 0x1680); (0x2000, 0x200a); (0x2028, 0x2029); (0x202f, 0x202f);
    (0x205f, 0x205f); (0x3000, 0x3000) ].

Definition inRanges (tab : list (Z * Z)) (r : Z) : bool :=
  existsb (fun '(lo, hi) => (lo <=? r) && (r <=? hi)) tab.

(** [func IsSpace(r rune) bool]: Latin-1 runes by the switch, the others by
    the table. *)
Definition IsSpace (r : Z) : bool :=
  if (0 <=? r) && (r <=? MaxLatin1) then
    (r =? 0x09) || (r =? 0x0A) || (r =? 0x0B) || (r =? 0x0C) || (r =? 0x0D)
    || (r =? 0x20) || (r =? 0x85) || (r =? 0xA0)
  else inRanges White_Space r.

End unicode.

(** ** strings *)

Module strings.

(** [func HasPrefix(s, prefix string) bool]. *)
Fixpoint HasPrefix (s prefix : gostring) : bool :=
  match prefix, s with
  | [], _ => true
  | _ :: _, [] => false
  | p :: prefix', c :: s' => Ascii.eqb c p && HasPrefix s' prefix'
  end.

(** [func Index(s, substr string) int]: the index of the first instance of
    [substr] in [s], or -1. *)
Fixpoint Index (s substr : gostring) : Z :=
  if HasPrefix s substr then 0
  else
    match s with
    | [] => -1
    | _ :: s' =>
      let m := Index s' substr in
      if m <? 0 then -1 else 1 + m
    end.

(** [func Count(s, substr string) int]: the number of non-overlapping
    instances; for an empty [substr], one more than the number of runes. *)
Fixpoint count_from (fuel : nat) (s substr : gostring) : Z :=
  match fuel with
  | O => 0
  | S fuel' =>
    let i := Index s substr in
    if i =? -1 then 0
    else 1 + count_from fuel' (slice s (i + len substr) (len s)) substr
  end.

Definition Count (s substr : gostring) : Z :=
  if len substr =? 0 then utf8.RuneCountInString s + 1
  else count_from (S (length s)) s substr.

(** [func explode(s string, n int) []string]: split into UTF-8 sequences, at
    most [n] of them, the last one holding the rest. *)
Fixpoint explode_loop (k : nat) (s : gostring) : list gostring :=
  match k with
  | O => [s]
  | S k' =>
    let size := snd (utf8.DecodeRuneInString s) in
    slice s 0 size :: explode_loop k' (slice s size (len s))
  end.

Definition explode (s : gostring) (n : Z) : list gostring :=
  let l := utf8.RuneCountInString s in
  let n := if (n <? 0) || (l <? n) then l else n in
  if 0 <? n then explode_loop (Z.to_nat (n - 1)) s else [].

(** The loop of [genSplit], with [k] the number of separators still to be
    looked for ([n - i] after [n--]):
    [for i < n { m := Index(s, sep); if m < 0 { break };
       a[i] = s[:m+sepSave]; s = s[m+len(sep):]; i++ }; a[i] = s]. *)
Fixpoint genSplit_loop (k : nat) (s sep : gostring) (sepSave : Z)
  : list gostring :=
  match k with
  | O => [s]
  | S k' =>
    let m := Index s sep in
    if m <? 0 then [s]
    else slice s 0 (m + sepSave)
         :: genSplit_loop k' (slice s (m + len sep) (len s)) sep sepSave
  end.

(** [func genSplit(s, sep string, sepSave, n int) []string]. *)
Definition genSplit (s sep : gostring) (sepSave n : Z) : list gostring :=
  if n =? 0 then []
  else if len sep =? 0 then explode s n
  else
    let n := if n <? 0 then Count s sep + 1 else n in
    let n := if len s + 1 <? n then len s + 1 else n in
    genSplit_loop (Z.to_nat (n - 1)) s sep sepSave.

(** [func SplitN(s, sep string, n int) []string]. *)
Definition SplitN (s sep : gostring) (n : Z) : list gostring :=
  genSplit s sep 0 n.

(** [func indexFunc(s string, f func(rune) bool, truth bool) int]:
    [for i, r := range s { if f(r) == truth { return i } }; return -1].
    The [range] clause decodes one rune at a time as [DecodeRuneInString]
    does; [s] is the part of the string from index [i] on. *)
Fixpoint indexFunc_from (fuel : nat) (s : gostring) (f : Z -> bool)
    (truth : bool) (i : Z) : Z :=
  match fuel with
  | O => -1
  | S fuel' =>
    match s with
    | [] => -1
    | _ =>
      let '(r, size) := utf8.DecodeRuneInString s in
      if Bool.eqb (f r) truth then i
      else indexFunc_from fuel' (slice s size (len s)) f truth (i + size)
    end
  end.

Definition indexFunc (s : gostring) (f : Z -> bool) (truth : bool) : Z :=
  indexFunc_from (length s) s f truth 0.

(** [func lastIndexFunc(s string, f func(rune) bool, truth bool) int]:
    [for i := len(s); i > 0; { r, size := DecodeLastRuneInString(s[0:i]);
       i -= size; if f(r) == truth { return i } }; return -1]. *)
Fixpoint lastIndexFunc_from (fuel : nat) (s : gostring) (f : Z -> bool)
    (truth : bool) (i : Z) : Z :=
  match fuel with
  | O => -1
  | S fuel' =>
    if 0 <? i then
      let '(r, size) := utf8.DecodeLastRuneInString (slice s 0 i) in
      let i := i - size in
      if Bool.eqb (f r) truth then i
      else lastIndexFunc_from fuel' s f truth i
    else -1
  end.

Definition lastIndexFunc (s : gostring) (f : Z -> bool) (truth : bool) : Z :=
  lastIndexFunc_from (length s) s f truth (len s).

(** [func TrimLeftFunc(s string, f func(rune) bool) string]. *)
Definition TrimLeftFunc (s : gostring) (f : Z -> bool) : gostring :=
  let i := indexFunc s f false in
  if i =? -1 then [] else slice s i (len s).

(** [func TrimRightFunc(s string, f func(rune) bool) string]. *)
Definition TrimRightFunc (s : gostring) (f : Z -> bool) : gostring :=
  let i := lastIndexFunc s f false in
  let i :=
    if (0 <=? i) && (utf8.RuneSelf <=? at_ s i)
    then i + snd (utf8.DecodeRuneInString (slice s i (len s)))
    else i + 1 in
  slice s 0 i.

(** [func TrimFunc(s string, f func(rune) bool) string]. *)
Definition TrimFunc (s : gostring) (f : Z -> bool) : gostring :=
  TrimRightFunc (TrimLeftFunc s f) f.

(** [func TrimSpace(s string) string]: "all leading and trailing white space
    removed, as defined by Unicode", that is [TrimFunc(s, unicode.IsSpace)].
    (The library reaches the same slice through a scan that handles ASCII
    bytes first.) *)
Definition TrimSpace (s : gostring) : gostring :=
  TrimFunc s unicode.IsSpace.

End strings.

(** ** fmt *)

Module fmt.

(** [Sprintf] for formats whose verbs all take a string operand ([%s], [%v],
    and [%w] of [Errorf], which prints the wrapped error's text); [%%] is a
    literal percent sign.  A verb without an operand prints
    [%!verb(MISSING)]. *)
Fixpoint Sprintf (format : gostring) (a : list gostring) : gostring :=
  match format with
  | [] => []
  | c :: rest =>
    if Ascii.eqb c "%" then
      match rest with
      | [] => go "%!(NOVERB)"
      | v :: rest' =>
        if Ascii.eqb v "%" then v :: Sprintf rest' a
        else
          match a with
          | [] => go "%!" ++ v :: go "(MISSING)" ++ Sprintf rest' []
          | x :: a' => x ++ Sprintf rest' a'
          end
      end
    else c :: Sprintf rest a
  end.

End fmt.

(** ** os *)

Module os.

Inductive Errno : Set :=
| ENOENT
| EACCES.

Definition ErrnoText (e : Errno) : gostring :=
  match e with
  | ENOENT => go "no such file or directory"
  | EACCES => go "permission denied"
  end.

(** [*fs.PathError]. *)
Record PathError : Set := {
  Op : gostring;
  Path : gostring;
  Err : Errno
}.

(** [func (e *PathError) Error() string]. *)
Definition Error (e : PathError) : gostring :=
  Op e ++ go " " ++ Path e ++ go ": " ++ ErrnoText (Err e).

(** A regular file: what the process may do with it, and its bytes. *)
Record file : Set := {
  readable : bool;
  writable : bool;
  data : gostring
}.

(** The part of the file system the package touches: the files by path, and
    the paths at which the process cannot create a file (the directory is
    missing or not writable). *)
Record FS : Type := {
  files : gmap gostring file;
  nocreate : gset gostring
}.

(** [os.Stat(name)], reduced to its error. *)
Definition Stat (fs : FS) (name : gostring) : option PathError :=
  match files fs !! name with
  | None => Some {| Op := go "stat"; Path := name; Err := ENOENT |}
  | Some _ => None
  end.

(** [os.IsNotExist(err)]. *)
Definition IsNotExist (err : option PathError) : bool :=
  match err with
  | Some {| Err := ENOENT |} => true
  | _ => false
  end.

(** [os.ReadFile(name)]. *)
Definition ReadFile (fs : FS) (name : gostring) : gostring + PathError :=
  match files fs !! name with
  | None => inr {| Op := go "open"; Path := name; Err := ENOENT |}
  | Some f =>
    if readable f then inl (data f)
    else inr {| Op := go "open"; Path := name; Err := EACCES |}
  end.

(** [os.WriteFile(name, data, perm)]: an existing file is truncated and
    rewritten and keeps its mode; a new file gets the owner bits of [perm]. *)
Definition WriteFile (fs : FS) (name : gostring) (d : gostring) (perm : Z)
  : FS * option PathError :=
  match files fs !! name with
  | Some f =>
    if writable f then
      ({| files := <[name := {| readable := readable f;
                                writable := writable f; data := d |}]> (files fs);
          nocreate := nocreate fs |}, None)
    else (fs, Some {| Op := go "open"; Path := name; Err := EACCES |})
  | None =>
    if decide (name ∈ nocreate fs) then
      (fs, Some {| Op := go "open"; Path := name; Err := ENOENT |})
    else
      ({| files := <[name := {| readable := Z.testbit perm 8;
                                writable := Z.testbit perm 7; data := d |}]> (files fs);
          nocreate := nocreate fs |}, None)
  end.

End os.

(* ===================================================================== *)
(** * Package state                                                       *)
(* ===================================================================== *)

Module state.

(** [const statePath = "lc.state"]. *)
Definition statePath : gostring := go "lc.state".

(** [type State struct { Challenge string; Stage string }]. *)
Record State : Set := {
  Challenge : gostring;
  Stage : gostring
}.

(** A Go [error] built by [fmt.Errorf], by its message. *)
Definition error : Set := gostring.

(** [func Load()], returning a [State] pointer and an [error]: [inl] for
    [(&State{...}, nil)], [inr] for
    [(nil, err)]. *)
Definition Load (fs : os.FS) : State + error :=
  let err := os.Stat fs statePath in
  if os.IsNotExist err then
    inr (fmt.Sprintf
           (go "Not in a challenge directory" ++ nl ::
            go "Run this command from a directory created with 'lc init <challenge>'")
           [])
  else
    match os.ReadFile fs statePath with
    | inr err =>
      inr (fmt.Sprintf (go "Failed to read state file: %w") [os.Error err])
    | inl bytes =>
      let content := strings.TrimSpace bytes in
      let parts := strings.SplitN content (go ":") 2 in
      match parts with
      | [p0; p1] =>
        inl {| Challenge := strings.TrimSpace p0;
               Stage := strings.TrimSpace p1 |}
      | _ =>
        inr (fmt.Sprintf
               (go "Invalid state format. Expected '<challenge>:<stage>', got: %s")
               [content])
      end
    end.

(** [func SaveTo(st *State, path string) error]. *)
Definition SaveTo (st : State) (path : gostring) (fs : os.FS)
  : os.FS * option error :=
  let content :=
    fmt.Sprintf (go "%s:%s" ++ [nl]) [Challenge st; Stage st] in
  match os.WriteFile fs path content 0x1A4 (* 0644 *) with
  | (fs', Some err) =>
    (fs', Some (fmt.Sprintf (go "Failed to write state file: %w") [os.Error err]))
  | (fs', None) => (fs', None)
  end.

(** [func Save(st *State) error]. *)
Definition Save (st : State) (fs : os.FS) : os.FS * option error :=
  SaveTo st statePath fs.

End state.

(* ===================================================================== *)
(** * Concrete inputs                                                     *)
(* ===================================================================== *)

Module Sample.
Import attest.

Definition cfg : Config :=
  {| DefaultRetryTimeout := 5 * Second;
     DefaultConsistencyDuration := 1 * Second;
     CancellationContext := ctxRef 1 |}.

Definition base : PlanBase :=
  {| pb_timing := TimingImmediate; pb_timeout := 0;
     pb_ctx := ctxRef 1; pb_config := addr 1 |}.

Definition polling : PlanBase :=
  {| pb_timing := TimingEventually; pb_timeout := 5 * Second;
     pb_ctx := ctxRef 1; pb_config := addr 1 |}.

Definition get_health : HTTPPlan :=
  {| http_base := base; method := "GET"; url := "http://127.0.0.1:8080/health";
     headers := ∅; body := [] |}.

Definition get_ready : HTTPPlan :=
  {| http_base := polling; method := "GET";
     url := "http://127.0.0.1:8080/ready";
     headers := {[ "Accept" := "text/plain" ]}; body := [] |}.

Definition steady : PlanBase :=
  {| pb_timing := TimingConsistently; pb_timeout := 5 * Second;
     pb_ctx := ctxRef 1; pb_config := addr 1 |}.

Definition echo_ok : CLIPlan :=
  {| cli_base := base; command := "echo"; args := ["ok"%string] |}.

Definition kv_status : CLIPlan :=
  {| cli_base := steady; command := "kv"; args := ["status"%string] |}.

(** One config, two HTTP plans (the second already in the Eventually
    state), two CLI plans (the second already in the Consistently state), no
    assert yet. *)
Definition heap : Heap :=
  {| configs := {[ 1%positive := cfg ]};
     httpPlans := <[ 2%positive := get_ready ]> {[ 1%positive := get_health ]};
     cliPlans := <[ 2%positive := kv_status ]> {[ 1%positive := echo_ok ]};
     httpAsserts := ∅;
     cliAsserts := ∅ |}.

(** A directory without an lc.state file, and one with a record that has
    blanks around its fields and a colon in the stage. *)
Definition emptyDir : os.FS := {| os.files := ∅; os.nocreate := ∅ |}.

Definition blanks : os.FS :=
  {| os.files :=
       {[ state.statePath :=
            {| os.readable := true; os.writable := true;
               os.data := go "  kv-store : http-api:v2 " ++ [nl] |} ]};
     os.nocreate := ∅ |}.

Definition st : state.State :=
  {| state.Challenge := go "kv-store"; state.Stage := go "http-api" |}.

End Sample.

(* ===================================================================== *)
(** * Notions used in the statements and proofs about strings             *)
(* ===================================================================== *)

Section StringNotions.
Import utf8 unicode.

(** The separator of the state record. *)
Definition colon : ascii := ":"%char.

(** A continuation byte: 0x80..0xBF. *)
Definition isCont (b : Z) : bool := (0x80 <=? b) && (b <=? 0xBF).

(** The decoder on a sequence that starts with a lead byte of a [sz]-byte
    sequence whose second byte has to be in [lo..hi]. *)
Definition decodeSeq (sz lo hi : Z) (c0 : ascii) (t0 : gostring) : Z * Z :=
  let b0 := byteval c0 in
  if len (c0 :: t0) <? sz then (RuneError, 1) else
  match t0 with
  | [] => (RuneError, 1)
  | c1 :: t1 =>
    let b1 := byteval c1 in
    if (b1 <? lo) || (hi <? b1) then (RuneError, 1) else
    if sz <=? 2 then
      (Z.lor (Z.shiftl (Z.land b0 mask2) 6) (Z.land b1 maskx), 2)
    else
    match t1 with
    | [] => (RuneError, 1)
    | c2 :: t2 =>
      let b2 := byteval c2 in
      if (b2 <? locb) || (hicb <? b2) then (RuneError, 1) else
      if sz <=? 3 then
        (Z.lor (Z.lor (Z.shiftl (Z.land b0 mask3) 12)
                      (Z.shiftl (Z.land b1 maskx) 6))
               (Z.land b2 maskx), 3)
      else
      match t2 with
      | [] => (RuneError, 1)
      | c3 :: _ =>
        let b3 := byteval c3 in
        if (b3 <? locb) || (hicb <? b3) then (RuneError, 1) else
        (Z.lor (Z.lor (Z.lor (Z.shiftl (Z.land b0 mask4) 18)
                             (Z.shiftl (Z.land b1 maskx) 12))
                      (Z.shiftl (Z.land b2 maskx) 6))
               (Z.land b3 maskx), 4)
      end
    end
  end.

(** What follows a sequence: nothing, or a byte that is not a continuation
    byte. *)
Definition boundary (u : gostring) : Prop :=
  match u with
  | [] => True
  | a :: _ => isCont (byteval a) = false
  end.

(** The last step of [TrimRightFunc]: from the index of the last rune that
    is kept to the index after it. *)
Definition after (s : gostring) (i : Z) : Z :=
  if (0 <=? i) && (RuneSelf <=? at_ s i)
  then i + snd (DecodeRuneInString (slice s i (len s)))
  else i + 1.

(** A string is trimmed when it is empty or neither starts nor ends with a
    white-space rune. *)
Definition trimmed (s : gostring) : Prop :=
  s = [] \/
  (IsSpace (fst (DecodeRuneInString s)) = false /\
   IsSpace (fst (DecodeLastRuneInString s)) = false).

End StringNotions.

(** The bytes of one white-space rune: a string the decoder consumes whole
    and decodes to a rune of [IsSpace]. *)
Definition spaceRune (ch : gostring) : Prop :=
  ch <> [] /\
  exists r, utf8.DecodeRuneInString ch = (r, len ch) /\ unicode.IsSpace r = true.

(** A string made of white-space runes only. *)
Inductive blank : gostring -> Prop :=
| blank_nil : blank []
| blank_cons ch w : spaceRune ch -> blank w -> blank (ch ++ w).

(* ===================================================================== *)
(** * path/filepath and strings.Join                                      *)
(* ===================================================================== *)

(** The byte [s[i]] for an index in range. *)
Definition byteAt (s : gostring) (i : Z) : ascii :=
  nth (Z.to_nat i) s Ascii.zero.

Module filepath.

(** [const Separator = '/'] (the Unix build). *)
Definition Separator : ascii := "/"%char.

(** [os.IsPathSeparator(c)]. *)
Definition IsPathSeparator (c : ascii) : bool := Ascii.eqb c Separator.

Definition isDot (c : ascii) : bool := Ascii.eqb c "."%char.

(** [strings.Join(elems, sep)]. *)
Fixpoint stringsJoin (elems : list gostring) (sep : gostring) : gostring :=
  match elems with
  | [] => []
  | [e] => e
  | e :: rest => e ++ sep ++ stringsJoin rest sep
  end.

(** The backtracking of a [..] element in [Clean], on the buffer [b]:
    [out.w--; for out.w > dotdot && !os.IsPathSeparator(out.index(out.w))
    { out.w-- }], entered after the first decrement. *)
Fixpoint backtrack (fuel : nat) (b : gostring) (dotdot w : Z) : Z :=
  match fuel with
  | O => w
  | S fuel' =>
    if (dotdot <? w) && negb (IsPathSeparator (byteAt b w))
    then backtrack fuel' b dotdot (w - 1)
    else w
  end.

(** The copy of one path element in [Clean]:
    [for ; r < n && !os.IsPathSeparator(path[r]); r++ { out.append(path[r]) }]. *)
Fixpoint copyElement (fuel : nat) (path : gostring) (n r : Z) (out : gostring)
  : Z * gostring :=
  match fuel with
  | O => (r, out)
  | S fuel' =>
    if (r <? n) && negb (IsPathSeparator (byteAt path r))
    then copyElement fuel' path n (r + 1) (out ++ [byteAt path r])
    else (r, out)
  end.

(** The main loop of [Clean], [for r < n { switch { ... } }]: [out] is the
    written part of the buffer ([out.w] is its length), [dotdot] the index
    where a [..] element must stop. *)
Fixpoint cleanLoop (fuel : nat) (path : gostring) (n : Z) (rooted : bool)
    (r dotdot : Z) (out : gostring) : gostring :=
  match fuel with
  | O => out
  | S fuel' =>
    if r <? n then
      if IsPathSeparator (byteAt path r) then
        (* empty path element *)
        cleanLoop fuel' path n rooted (r + 1) dotdot out
      else if isDot (byteAt path r)
              && ((r + 1 =? n) || IsPathSeparator (byteAt path (r + 1))) then
        (* . element *)
        cleanLoop fuel' path n rooted (r + 1) dotdot out
      else if isDot (byteAt path r) && isDot (byteAt path (r + 1))
              && ((r + 2 =? n) || IsPathSeparator (byteAt path (r + 2))) then
        (* .. element: remove to last separator *)
        if dotdot <? len out then
          let w := backtrack (length out) out dotdot (len out - 1) in
          cleanLoop fuel' path n rooted (r + 2) dotdot (slice out 0 w)
        else if negb rooted then
          let out1 := if 0 <? len out then out ++ [Separator] else out in
          let out2 := out1 ++ ["."%char; "."%char] in
          cleanLoop fuel' path n rooted (r + 2) (len out2) out2
        else
          cleanLoop fuel' path n rooted (r + 2) dotdot out
      else
        (* real path element: add slash if needed, copy element *)
        let out1 :=
          if (rooted && negb (len out =? 1)) || (negb rooted && negb (len out =? 0))
          then out ++ [Separator] else out in
        let '(r', out2) := copyElement (length path) path n r out1 in
        cleanLoop fuel' path n rooted r' dotdot out2
    else out
  end.

(** [func Clean(path string) string] (Unix: no volume name). *)
Definition Clean (path : gostring) : gostring :=
  match path with
  | [] => ["."%char]
  | c0 :: _ =>
    let rooted := IsPathSeparator c0 in
    let n := len path in
    let out :=
      if rooted
      then cleanLoop (length path) path n rooted 1 1 [Separator]
      else cleanLoop (length path) path n rooted 0 0 [] in
    if len out =? 0 then ["."%char] else out
  end.

(** [func Join(elem ...string) string]: the elements from the first
    non-empty one on, joined with the separator and cleaned; the empty
    string when every element is empty. *)
Fixpoint Join (elem : list gostring) : gostring :=
  match elem with
  | [] => []
  | [] :: rest => Join rest
  | _ :: _ => Clean (stringsJoin elem [Separator])
  end.

End filepath.

(* ===================================================================== *)
(** * Package registry, as far as package cli uses it                     *)
(* ===================================================================== *)

Module registry.

(** The registry package is not among the sources.  Its types are given by
    what package cli reads of them, and its functions and methods are
    parameters: fields that hold the function.

    A stage: its name and [stage.Fn().Run(ctx)], which runs the stage's
    suite against the user's program.  The run may do anything to the
    files; it yields the verdict and the file system it leaves. *)
Record Stage : Type := {
  StageName : gostring;
  Run : os.FS -> bool * os.FS
}.

(** A challenge: the fields [Key], [Name], [Summary] and [StageOrder], and
    the methods [README()], [StageIndex(stage)], [Len()] and
    [GetStage(key)]; the two in the middle return a Go [int]. *)
Record Challenge : Type := {
  Key : gostring;
  Name : gostring;
  Summary : gostring;
  StageOrder : list gostring;
  README : gostring;
  StageIndex : gostring -> Z;
  Len : Z;
  GetStage : gostring -> Stage + state.error
}.

(** [registry.GetChallenge(key)]. *)
Definition Registry : Type := gostring -> Challenge + state.error.

End registry.

(* ===================================================================== *)
(** * Package cli                                                         *)
(* ===================================================================== *)

Module cli.
Import registry.

(** Terminal output ([fmt.Println], [fmt.Printf]) is not part of the model:
    no result and no file depends on it. *)

(** [const DocsBaseURL = "https://littleclusters.com"]. *)
Definition DocsBaseURL : gostring := go "https://littleclusters.com".

(** The double quote and the escape byte, [\033] in a Go literal. *)
Definition dq : ascii := "034"%char.
Definition esc : ascii := "027"%char.

(** A run-time panic of the Go program. *)
Inductive panic : Set :=
| IndexOutOfRange (index length : Z).

(** What a function that may panic comes to. *)
Inductive ret (A : Type) : Type :=
| Returns (a : A)
| Panics (p : panic).
Arguments Returns {A} a.
Arguments Panics {A} p.

(** Go's [int] on a 64-bit platform: an arithmetic result after the
    wrap-around. *)
Definition wrapInt (z : Z) : Z := (z + 2 ^ 63) mod 2 ^ 64 - 2 ^ 63.

(** [s[i]] on a slice of strings, with the bounds check. *)
Definition index (s : list gostring) (i : Z) : ret gostring :=
  if (i <? 0) || (Z.of_nat (length s) <=? i)
  then Panics (IndexOutOfRange i (Z.of_nat (length s)))
  else Returns (nth (Z.to_nat i) s []).

Fixpoint unlines (ls : list gostring) : gostring :=
  match ls with
  | [] => []
  | l :: rest => l ++ nl :: unlines rest
  end.

(** The raw string literal [scriptTemplate] of [createChallengeFiles]. *)
Definition scriptTemplate : gostring :=
  unlines [
    go "#!/bin/bash -e";
    go "";
    go "# This script builds and runs your implementation.";
    go "# lc will execute this script to start your program.";
    go "# " ++ dq :: go "$@" ++ dq ::
      go " passes command-line arguments from lc to your program, e.g.:";
    go "#   --working-dir=<path>: Directory where your program should write files";
    go "";
    go "echo " ++ dq ::
      go "Replace this line with the command that runs your implementation."
      ++ [dq];
    go "# Examples:";
    go "#   exec go run ./cmd/server " ++ dq :: go "$@" ++ [dq];
    go "#   exec python main.py " ++ dq :: go "$@" ++ [dq];
    go "#   exec ./my-program " ++ dq :: go "$@" ++ [dq]
  ].

(** [func createChallengeFiles(challenge *registry.Challenge,
    targetPath string) error]. *)
Definition createChallengeFiles (challenge : Challenge) (targetPath : gostring)
    (fs : os.FS) : os.FS * ret (option state.error) :=
  (* run.sh *)
  let scriptPath := filepath.Join [targetPath; go "run.sh"] in
  match os.WriteFile fs scriptPath scriptTemplate 0x1ED (* 0755 *) with
  | (fs, Some err) =>
    (fs, Returns (Some (fmt.Sprintf (go "Failed to create run.sh: %w")
                          [os.Error err])))
  | (fs, None) =>
    (* README.md *)
    let readmePath := filepath.Join [targetPath; go "README.md"] in
    match os.WriteFile fs readmePath (README challenge) 0x1A4 (* 0644 *) with
    | (fs, Some err) =>
      (fs, Returns (Some (fmt.Sprintf (go "Failed to create README.md: %w")
                            [os.Error err])))
    | (fs, None) =>
      (* lc.state *)
      match index (StageOrder challenge) 0 with
      | Panics p => (fs, Panics p)
      | Returns stage0 =>
        let cfg := {| state.Challenge := Key challenge;
                      state.Stage := stage0 |} in
        let statePath := filepath.Join [targetPath; go "lc.state"] in
        match state.SaveTo cfg statePath fs with
        | (fs, Some err) =>
          (fs, Returns (Some (fmt.Sprintf (go "Failed to create lc.state: %w")
                                [err])))
        | (fs, None) =>
          (* .gitignore *)
          let gitignorePath := filepath.Join [targetPath; go ".gitignore"] in
          match os.WriteFile fs gitignorePath (go ".lc/") 0x1A4 with
          | (fs, Some err) =>
            (fs, Returns (Some (fmt.Sprintf
                                  (go "Failed to create .gitignore: %w")
                                  [os.Error err])))
          | (fs, None) => (fs, Returns None)
          end
        end
      end
    end
  end.

(** [func InitChallenge(ctx context.Context, cmd *commands.Command) error],
    with [args] for [cmd.Args().Slice()], the registry for
    [registry.GetChallenge] and [mkdirAll] for [os.MkdirAll(path, 0755)]. *)
Definition InitChallenge
    (GetChallenge : Registry)
    (mkdirAll : os.FS -> gostring -> os.FS * option os.PathError)
    (args : list gostring) (fs : os.FS) : os.FS * ret (option state.error) :=
  match args with
  | [] =>
    (fs, Returns (Some (fmt.Sprintf
                          (go "Challenge name is required." ++ nl ::
                           go "Usage: lc init <challenge> [path]") [])))
  | challengeKey :: more =>
    match GetChallenge challengeKey with
    | inr err => (fs, Returns (Some err))
    | inl challenge =>
      (* Create Directory *)
      let made :=
        match more with
        | targetPath :: _ =>
          match mkdirAll fs targetPath with
          | (fs, Some err) =>
            inr (fs, fmt.Sprintf (go "Failed to create directory %s: %w")
                       [targetPath; os.Error err])
          | (fs, None) => inl (fs, targetPath)
          end
        | [] => inl (fs, go ".")
        end in
      match made with
      | inr (fs, err) => (fs, Returns (Some err))
      | inl (fs, targetPath) =>
        match createChallengeFiles challenge targetPath fs with
        | (fs, Panics p) => (fs, Panics p)
        | (fs, Returns (Some err)) => (fs, Returns (Some err))
        | (fs, Returns None) =>
          (* firstStageKey := challenge.StageOrder[0], for the message *)
          match index (StageOrder challenge) 0 with
          | Panics p => (fs, Panics p)
          | Returns _ => (fs, Returns None)
          end
        end
      end
    end
  end.

(** [func validateEnvironment()], which returns a state or an error. *)
Definition validateEnvironment (fs : os.FS) : state.State + state.error :=
  if os.IsNotExist (os.Stat fs (go "run.sh")) then
    inr (fmt.Sprintf
           (go "run.sh not found" ++ nl ::
            go "Create an executable run.sh script that starts your implementation.")
           [])
  else
    match state.Load fs with
    | inr err => inr err
    | inl cfg => inl cfg
    end.

(** The list of stages in the error of [runStageTests]:
    [for _, stage := range challenge.StageOrder
       { msg += fmt.Sprintf("- %s\n", stage) }]. *)
Fixpoint stageLines (msg : gostring) (stages : list gostring) : gostring :=
  match stages with
  | [] => msg
  | stage :: rest =>
    stageLines (msg ++ fmt.Sprintf (go "- %s" ++ [nl]) [stage]) rest
  end.

(** [func runStageTests(ctx context.Context, challengeKey, stageKey string)
    (bool, error)]. *)
Definition runStageTests (GetChallenge : Registry)
    (challengeKey stageKey : gostring) (fs : os.FS)
  : os.FS * (bool * option state.error) :=
  match GetChallenge challengeKey with
  | inr err => (fs, (false, Some err))
  | inl challenge =>
    match GetStage challenge stageKey with
    | inr err =>
      let msg := stageLines (nl :: go "Available stages:" ++ [nl])
                            (StageOrder challenge) in
      (fs, (false, Some (fmt.Sprintf (go "%w" ++ nl :: go "%s") [err; msg])))
    | inl stage =>
      let '(passed, fs) := Run stage fs in
      (fs, (passed, None))
    end
  end.

(** The error of a failed [TestStage]. *)
Definition guideError (challengeKey stageKey : gostring) : state.error :=
  let guideURL :=
    fmt.Sprintf (go "%s/%s/%s") [DocsBaseURL; challengeKey; stageKey] in
  fmt.Sprintf
    (nl :: go "Read the guide: " ++ esc :: go "]8;;%s" ++ esc ::
     go "\%s/%s/%s" ++ esc :: go "]8;;" ++ esc :: go "\" ++ [nl])
    [guideURL; DocsBaseURL; challengeKey; stageKey].

(** [func TestStage(ctx context.Context, cmd *commands.Command) error], with
    [args] for the positional arguments ([cmd.NArg()] is their number). *)
Definition TestStage (GetChallenge : Registry) (args : list gostring)
    (fs : os.FS) : os.FS * option state.error :=
  match validateEnvironment fs with
  | inr err => (fs, Some err)
  | inl cfg =>
    let keys :=
      match args with
      | [] => inl (state.Challenge cfg, state.Stage cfg)
      | [stage] => inl (state.Challenge cfg, stage)
      | _ =>
        inr (fmt.Sprintf (go "Too many arguments." ++ nl ::
                          go "Usage: lc test [stage]") [])
      end in
    match keys with
    | inr err => (fs, Some err)
    | inl (challengeKey, stageKey) =>
      let '(fs, (passed, err)) :=
        runStageTests GetChallenge challengeKey stageKey fs in
      if passed then (fs, err)
      else (fs, Some (guideError challengeKey stageKey))
    end
  end.

(** [func NextStage(ctx context.Context, cmd *commands.Command) error]. *)
Definition NextStage (GetChallenge : Registry) (fs : os.FS)
  : os.FS * ret (option state.error) :=
  match validateEnvironment fs with
  | inr err => (fs, Returns (Some err))
  | inl cfg =>
    match GetChallenge (state.Challenge cfg) with
    | inr err => (fs, Returns (Some err))
    | inl challenge =>
      (* Check if current stage is completed *)
      let currentIndex := StageIndex challenge (state.Stage cfg) in
      if currentIndex =? -1 then
        (fs, Returns (Some (fmt.Sprintf
                              (go "Current stage '%s' not found in challenge")
                              [state.Stage cfg])))
      else
        (* Run tests for current stage *)
        match runStageTests GetChallenge (state.Challenge cfg) (state.Stage cfg) fs with
        | (fs, (_, Some err)) => (fs, Returns (Some err))
        | (fs, (passed, None)) =>
          if negb passed then
            (fs, Returns (Some (fmt.Sprintf (go "Complete %s before advancing.")
                                  [state.Stage cfg])))
          else if currentIndex =? wrapInt (Len challenge - 1) then
            (* already at final stage *)
            let '(fs, err) := state.Save cfg fs in (fs, Returns err)
          else
            (* Advance to next stage *)
            match index (StageOrder challenge) (wrapInt (currentIndex + 1)) with
            | Panics p => (fs, Panics p)
            | Returns nextStageKey =>
              let cfg := {| state.Challenge := state.Challenge cfg;
                            state.Stage := nextStageKey |} in
              match state.Save cfg fs with
              | (fs, Some err) => (fs, Returns (Some err))
              | (fs, None) =>
                match GetStage challenge nextStageKey with
                | inr err => (fs, Returns (Some err))
                | inl _ => (fs, Returns None)
                end
              end
            end
        end
    end
  end.

End cli.

(* ===================================================================== *)
(** * Notions and samples for package cli                                 *)
(* ===================================================================== *)

(** The bytes of the file at a path, if there is one. *)
Definition content (fs : os.FS) (path : gostring) : option gostring :=
  os.data <$> os.files fs !! path.

(** [os.WriteFile] can write at the path: the file is there and writable, or
    it is not there and can be created. *)
Definition writableAt (fs : os.FS) (path : gostring) : bool :=
  match os.files fs !! path with
  | Some f => os.writable f
  | None => bool_decide (path ∉ os.nocreate fs)
  end.

(** The four files [createChallengeFiles] writes, by their names in the
    current directory. *)
Definition challengeFiles : list gostring :=
  [go "run.sh"; go "README.md"; go "lc.state"; go ".gitignore"].

(** The stage key a call of [TestStage] is about: the saved stage without an
    argument, the argument when there is one. *)
Definition stageArg (cfg : state.State) (args : list gostring)
  : option gostring :=
  match args with
  | [] => Some (state.Stage cfg)
  | [stage] => Some stage
  | _ => None
  end.

(** What package cli can rely on in a challenge of the registry: [Len] is
    the number of stages (an [int]), and [StageIndex] answers -1 or an index
    of [StageOrder]. *)
Definition wellFormed (ch : registry.Challenge) : Prop :=
  registry.Len ch = Z.of_nat (length (registry.StageOrder ch)) /\
  registry.Len ch < 2 ^ 63 /\
  forall stage,
    registry.StageIndex ch stage = -1 \/
    0 <= registry.StageIndex ch stage < registry.Len ch.

Module SampleCli.
Import registry.

(** A stage whose suite passes and leaves the files alone. *)
Definition passing (name : gostring) : Stage :=
  {| StageName := name; Run := fun fs => (true, fs) |}.

Definition unknownStage (key : gostring) : state.error :=
  go "stage not found: " ++ key.

Fixpoint indexOf (stage : gostring) (order : list gostring) (i : Z) : Z :=
  match order with
  | [] => -1
  | s :: rest => if decide (s = stage) then i else indexOf stage rest (i + 1)
  end.

(** A challenge of two stages. *)
Definition kv : Challenge :=
  {| Key := go "kv-store";
     Name := go "Key-Value Store";
     Summary := go "Build a key-value store.";
     StageOrder := [go "http-api"; go "persistence"];
     README := go "# Key-Value Store" ++ [nl];
     StageIndex := fun stage => indexOf stage [go "http-api"; go "persistence"] 0;
     Len := 2;
     GetStage := fun key =>
       if decide (key = go "http-api") then inl (passing (go "HTTP API"))
       else if decide (key = go "persistence")
            then inl (passing (go "Persistence"))
            else inr (unknownStage key) |}.

(** A challenge registered without a stage. *)
Definition bare : Challenge :=
  {| Key := go "bare";
     Name := go "Bare";
     Summary := [];
     StageOrder := [];
     README := [];
     StageIndex := fun _ => -1;
     Len := 0;
     GetStage := fun key => inr (unknownStage key) |}.

Definition GetChallenge : Registry := fun key =>
  if decide (key = go "kv-store") then inl kv
  else if decide (key = go "bare") then inl bare
  else inr (go "challenge not found: " ++ key).

(** [os.MkdirAll] where every directory can be made. *)
Definition mkdirAll (fs : os.FS) (path : gostring)
  : os.FS * option os.PathError := (fs, None).

(** A project directory: run.sh and the given record in lc.state. *)
Definition project (record : gostring) : os.FS :=
  {| os.files :=
       {[ go "run.sh" := {| os.readable := true; os.writable := true;
                            os.data := cli.scriptTemplate |};
          state.statePath := {| os.readable := true; os.writable := true;
                                os.data := record |} ]};
     os.nocreate := ∅ |}.

End SampleCli.

Module SampleBare.
Import attest.

(** An HTTP plan made without a [Config], alone on the heap. *)
Definition orphan : HTTPPlan :=
  {| http_base := {| pb_timing := TimingImmediate; pb_timeout := 3 * Second;
                     pb_ctx := ctxRef 1; pb_config := nil |};
     method := "GET"; url := "http://127.0.0.1:8080/health";
     headers := ∅; body := [] |}.

Definition heap : Heap :=
  {| configs := ∅; httpPlans := {[ 1%positive := orphan ]};
     cliPlans := ∅; httpAsserts := ∅; cliAsserts := ∅ |}.

End SampleBare.

(* ===================================================================== *)
(** * The plan builder: lemmas                                            *)
(* ===================================================================== *)

Section Builder.
Import attest.

Lemma timing_eqb_eq (a b : timing) : timing_eqb a b = true <-> a = b.
Proof. destruct a, b; simpl; split; intros E; congruence. Qed.

Lemma timing_eqb_neq (a b : timing) : timing_eqb a b = false <-> a <> b.
Proof. destruct a, b; simpl; split; intros E; congruence. Qed.

Lemma setEventually_done cfgs b c :
  deref cfgs (pb_config b) = Some c ->
  setEventually cfgs b =
  Done {| pb_timing := TimingEventually; pb_timeout := DefaultRetryTimeout c;
          pb_ctx := pb_ctx b; pb_config := pb_config b |}.
Proof. intros E. unfold setEventually. simpl. rewrite E. reflexivity. Qed.

Lemma setConsistently_done cfgs b c :
  deref cfgs (pb_config b) = Some c ->
  setConsistently cfgs b =
  Done {| pb_timing := TimingConsistently; pb_timeout := DefaultRetryTimeout c;
          pb_ctx := pb_ctx b; pb_config := pb_config b |}.
Proof. intros E. unfold setConsistently. simpl. rewrite E. reflexivity. Qed.

Lemma setWithin_done d b :
  pb_timing b = TimingEventually ->
  setWithin d b =
  Done {| pb_timing := TimingEventually; pb_timeout := d;
          pb_ctx := pb_ctx b; pb_config := pb_config b |}.
Proof.
  intros E. unfold setWithin, set_timeout. rewrite E. reflexivity.
Qed.

Lemma setFor_done d b :
  pb_timing b = TimingConsistently ->
  setFor d b =
  Done {| pb_timing := TimingConsistently; pb_timeout := d;
          pb_ctx := pb_ctx b; pb_config := pb_config b |}.
Proof.
  intros E. unfold setFor, set_timeout. rewrite E. reflexivity.
Qed.

Lemma setWithin_fault d b :
  pb_timing b <> TimingEventually ->
  setWithin d b = Fault "Within() can only be called after Eventually()" b.
Proof.
  intros E. unfold setWithin.
  apply timing_eqb_neq in E. rewrite E. reflexivity.
Qed.

Lemma setFor_fault d b :
  pb_timing b <> TimingConsistently ->
  setFor d b = Fault "For() can only be called after Consistently()" b.
Proof.
  intros E. unfold setFor.
  apply timing_eqb_neq in E. rewrite E. reflexivity.
Qed.

Lemma legal_setter c cfgs b :
  legal c cfgs b -> exists b', setter c cfgs b = Done b'.
Proof.
  destruct c; simpl.
  - intros [x E]. rewrite (setEventually_done _ _ _ E). eauto.
  - intros E. rewrite (setWithin_done _ _ E). eauto.
  - intros [x E]. rewrite (setConsistently_done _ _ _ E). eauto.
  - intros E. rewrite (setFor_done _ _ E). eauto.
Qed.

(** No setter touches the context or the config pointer of the plan. *)
Lemma setter_frame c cfgs b b' :
  setter c cfgs b = Done b' ->
  pb_ctx b' = pb_ctx b /\ pb_config b' = pb_config b.
Proof.
  destruct c; simpl;
    unfold setEventually, setConsistently, setWithin, setFor; simpl.
  - destruct (deref cfgs (pb_config b)); intros E; inversion E; auto.
  - destruct (negb _); intros E; inversion E; auto.
  - destruct (deref cfgs (pb_config b)); intros E; inversion E; auto.
  - destruct (negb _); intros E; inversion E; auto.
Qed.

(** *** HTTP plans on the heap *)

Lemma http_with_base_id pl : HTTPPlan.with_base (http_base pl) pl = pl.
Proof. destruct pl; reflexivity. Qed.

Lemma http_store_id h l pl :
  httpPlans h !! l = Some pl -> HTTPPlan.store l pl h = h.
Proof.
  intros E. destruct h as [c hp cp ha ca]. unfold HTTPPlan.store. simpl in *.
  f_equal. apply insert_id. exact E.
Qed.

Lemma http_through_done f h l pl b :
  httpPlans h !! l = Some pl ->
  f (configs h) (http_base pl) = Done b ->
  HTTPPlan.through f (addr l) h =
  Return (addr l) (HTTPPlan.store l (HTTPPlan.with_base b pl) h).
Proof. intros E F. unfold HTTPPlan.through. rewrite E, F. reflexivity. Qed.

Lemma http_through_fault f h l pl msg :
  httpPlans h !! l = Some pl ->
  f (configs h) (http_base pl) = Fault msg (http_base pl) ->
  HTTPPlan.through f (addr l) h = Panic msg h.
Proof.
  intros E F. unfold HTTPPlan.through. rewrite E, F.
  rewrite http_with_base_id, (http_store_id _ _ _ E). reflexivity.
Qed.

Lemma http_through_receiver f p h r h' :
  HTTPPlan.through f p h = Return r h' -> r = p.
Proof.
  unfold HTTPPlan.through. destruct p as [|l]; [discriminate|].
  destruct (httpPlans h !! l); [|discriminate].
  destruct (f _ _); intros E; inversion E; reflexivity.
Qed.

Lemma http_invoke_through c p h :
  HTTPPlan.invoke c p h = HTTPPlan.through (setter c) p h.
Proof. destruct c; reflexivity. Qed.

Lemma http_invoke_done c h l pl b :
  httpPlans h !! l = Some pl ->
  setter c (configs h) (http_base pl) = Done b ->
  HTTPPlan.invoke c (addr l) h =
  Return (addr l) (HTTPPlan.store l (HTTPPlan.with_base b pl) h).
Proof. rewrite http_invoke_through. apply http_through_done. Qed.

Lemma http_chain_nil p h : HTTPPlan.chain [] p h = Return p h.
Proof. reflexivity. Qed.

Lemma http_chain_cons c cs p h :
  HTTPPlan.chain (c :: cs) p h =
  match HTTPPlan.invoke c p h with
  | Return p' h' => HTTPPlan.chain cs p' h'
  | Panic msg h' => Panic msg h'
  end.
Proof. reflexivity. Qed.

Lemma http_timingOf_store h l pl :
  HTTPPlan.timingOf (addr l) (HTTPPlan.store l pl h) =
  Some (pb_timing (http_base pl), pb_timeout (http_base pl)).
Proof.
  unfold HTTPPlan.timingOf, HTTPPlan.store. simpl.
  rewrite lookup_insert_eq. reflexivity.
Qed.

(** A builder call leaves the asserts, the configs and the CLI plans alone,
    and keeps every HTTP plan allocated. *)
Lemma http_invoke_frame c p h :
  let h' := heapOf (HTTPPlan.invoke c p h) in
  httpAsserts h' = httpAsserts h /\ configs h' = configs h /\
  cliPlans h' = cliPlans h /\ cliAsserts h' = cliAsserts h.
Proof.
  rewrite http_invoke_through. unfold HTTPPlan.through.
  destruct p as [|l]; simpl; auto.
  destruct (httpPlans h !! l); simpl; auto.
  destruct (setter c _ _); simpl; auto.
Qed.

(** *** CLI plans on the heap *)

Lemma cli_with_base_id pl : CLIPlan.with_base (cli_base pl) pl = pl.
Proof. destruct pl; reflexivity. Qed.

Lemma cli_store_id h l pl :
  cliPlans h !! l = Some pl -> CLIPlan.store l pl h = h.
Proof.
  intros E. destruct h as [c hp cp ha ca]. unfold CLIPlan.store. simpl in *.
  f_equal. apply insert_id. exact E.
Qed.

Lemma cli_through_done f h l pl b :
  cliPlans h !! l = Some pl ->
  f (configs h) (cli_base pl) = Done b ->
  CLIPlan.through f (addr l) h =
  Return (addr l) (CLIPlan.store l (CLIPlan.with_base b pl) h).
Proof. intros E F. unfold CLIPlan.through. rewrite E, F. reflexivity. Qed.

Lemma cli_through_fault f h l pl msg :
  cliPlans h !! l = Some pl ->
  f (configs h) (cli_base pl) = Fault msg (cli_base pl) ->
  CLIPlan.through f (addr l) h = Panic msg h.
Proof.
  intros E F. unfold CLIPlan.through. rewrite E, F.
  rewrite cli_with_base_id, (cli_store_id _ _ _ E). reflexivity.
Qed.

Lemma cli_through_receiver f p h r h' :
  CLIPlan.through f p h = Return r h' -> r = p.
Proof.
  unfold CLIPlan.through. destruct p as [|l]; [discriminate|].
  destruct (cliPlans h !! l); [|discriminate].
  destruct (f _ _); intros E; inversion E; reflexivity.
Qed.

Lemma cli_invoke_through c p h :
  CLIPlan.invoke c p h = CLIPlan.through (setter c) p h.
Proof. destruct c; reflexivity. Qed.

Lemma cli_invoke_done c h l pl b :
  cliPlans h !! l = Some pl ->
  setter c (configs h) (cli_base pl) = Done b ->
  CLIPlan.invoke c (addr l) h =
  Return (addr l) (CLIPlan.store l (CLIPlan.with_base b pl) h).
Proof. rewrite cli_invoke_through. apply cli_through_done. Qed.

Lemma cli_chain_nil p h : CLIPlan.chain [] p h = Return p h.
Proof. reflexivity. Qed.

Lemma cli_chain_cons c cs p h :
  CLIPlan.chain (c :: cs) p h =
  match CLIPlan.invoke c p h with
  | Return p' h' => CLIPlan.chain cs p' h'
  | Panic msg h' => Panic msg h'
  end.
Proof. reflexivity. Qed.

Lemma cli_timingOf_store h l pl :
  CLIPlan.timingOf (addr l) (CLIPlan.store l pl h) =
  Some (pb_timing (cli_base pl), pb_timeout (cli_base pl)).
Proof.
  unfold CLIPlan.timingOf, CLIPlan.store. simpl.
  rewrite lookup_insert_eq. reflexivity.
Qed.

Lemma cli_invoke_frame c p h :
  let h' := heapOf (CLIPlan.invoke c p h) in
  cliAsserts h' = cliAsserts h /\ configs h' = configs h /\
  httpPlans h' = httpPlans h /\ httpAsserts h' = httpAsserts h.
Proof.
  rewrite cli_invoke_through. unfold CLIPlan.through.
  destruct p as [|l]; simpl; auto.
  destruct (cliPlans h !! l); simpl; auto.
  destruct (setter c _ _); simpl; auto.
Qed.

End Builder.

(* ===================================================================== *)
(** * The plan builder: the timing state machine                          *)
(* ===================================================================== *)

Section Timing.
Import attest.

(** C1 as the spec states it fails.  In the sample heap the [Config] has a
    retry timeout of 5s and a consistency duration of 1s; [Consistently()]
    returns the receiver with timing [TimingConsistently] and timeout 5s,
    which is not the config's consistency duration.  Both plan kinds. *)
Lemma C1_consistently_ignores_consistency_duration :
  DefaultRetryTimeout Sample.cfg = 5 * Second /\
  DefaultConsistencyDuration Sample.cfg = 1 * Second /\
  (exists h', HTTPPlan.Consistently (addr 1) Sample.heap = Return (addr 1) h' /\
     HTTPPlan.timingOf (addr 1) h' = Some (TimingConsistently, 5 * Second) /\
     HTTPPlan.timingOf (addr 1) h' <>
       Some (TimingConsistently, DefaultConsistencyDuration Sample.cfg)) /\
  (exists h', CLIPlan.Consistently (addr 1) Sample.heap = Return (addr 1) h' /\
     CLIPlan.timingOf (addr 1) h' = Some (TimingConsistently, 5 * Second) /\
     CLIPlan.timingOf (addr 1) h' <>
       Some (TimingConsistently, DefaultConsistencyDuration Sample.cfg)).
Proof.
  split; [reflexivity|]. split; [reflexivity|]. split.
  - eexists. split; [|split].
    + unfold HTTPPlan.Consistently.
      eapply http_through_done; [reflexivity|].
      apply setConsistently_done. reflexivity.
    + rewrite http_timingOf_store. reflexivity.
    + rewrite http_timingOf_store. discriminate.
  - eexists. split; [|split].
    + unfold CLIPlan.Consistently.
      eapply cli_through_done; [reflexivity|].
      apply setConsistently_done. reflexivity.
    + rewrite cli_timingOf_store. reflexivity.
    + rewrite cli_timingOf_store. discriminate.
Qed.

(** C1, amended.  On an allocated plan whose [Config] is allocated, whatever
    the timing state was, [Consistently()] returns the receiver; afterwards
    the timing is [TimingConsistently] and the timeout is the config's
    [DefaultRetryTimeout], the default [Eventually()] uses as well.  Both
    plan kinds. *)
Theorem C1_consistently_sets_retry_timeout :
  (forall h l pl c,
      httpPlans h !! l = Some pl ->
      deref (configs h) (pb_config (http_base pl)) = Some c ->
      exists h', HTTPPlan.Consistently (addr l) h = Return (addr l) h' /\
        HTTPPlan.timingOf (addr l) h' =
        Some (TimingConsistently, DefaultRetryTimeout c)) /\
  (forall h l pl c,
      cliPlans h !! l = Some pl ->
      deref (configs h) (pb_config (cli_base pl)) = Some c ->
      exists h', CLIPlan.Consistently (addr l) h = Return (addr l) h' /\
        CLIPlan.timingOf (addr l) h' =
        Some (TimingConsistently, DefaultRetryTimeout c)).
Proof.
  split; intros h l pl c E C; eexists; split.
  - eapply http_through_done; [exact E|]. apply setConsistently_done, C.
  - rewrite http_timingOf_store. reflexivity.
  - eapply cli_through_done; [exact E|]. apply setConsistently_done, C.
  - rewrite cli_timingOf_store. reflexivity.
Qed.

(** C2.  [Within(d)] on a plan whose timing is not [TimingEventually], and
    [For(d)] on a plan whose timing is not [TimingConsistently], panic with
    the builder's message and leave the heap as it was; as functions of the
    plan and the heap they do so on every such call.  [Within(d)] on the
    plan [Eventually()] returned, and [For(d)] on the plan [Consistently()]
    returned, return the plan with the duration [d].  Both plan kinds. *)
Theorem C2_within_for_misuse_panics :
  (forall h l pl d,
      httpPlans h !! l = Some pl ->
      (pb_timing (http_base pl) <> TimingEventually ->
       HTTPPlan.Within d (addr l) h =
       Panic "Within() can only be called after Eventually()" h) /\
      (pb_timing (http_base pl) <> TimingConsistently ->
       HTTPPlan.For d (addr l) h =
       Panic "For() can only be called after Consistently()" h)) /\
  (forall h l pl d,
      cliPlans h !! l = Some pl ->
      (pb_timing (cli_base pl) <> TimingEventually ->
       CLIPlan.Within d (addr l) h =
       Panic "Within() can only be called after Eventually()" h) /\
      (pb_timing (cli_base pl) <> TimingConsistently ->
       CLIPlan.For d (addr l) h =
       Panic "For() can only be called after Consistently()" h)) /\
  (forall h p q h1 d,
      (HTTPPlan.Eventually p h = Return q h1 ->
       exists h2, HTTPPlan.Within d q h1 = Return q h2 /\
                  HTTPPlan.timingOf q h2 = Some (TimingEventually, d)) /\
      (HTTPPlan.Consistently p h = Return q h1 ->
       exists h2, HTTPPlan.For d q h1 = Return q h2 /\
                  HTTPPlan.timingOf q h2 = Some (TimingConsistently, d))) /\
  (forall h p q h1 d,
      (CLIPlan.Eventually p h = Return q h1 ->
       exists h2, CLIPlan.Within d q h1 = Return q h2 /\
                  CLIPlan.timingOf q h2 = Some (TimingEventually, d)) /\
      (CLIPlan.Consistently p h = Return q h1 ->
       exists h2, CLIPlan.For d q h1 = Return q h2 /\
                  CLIPlan.timingOf q h2 = Some (TimingConsistently, d))).
Proof.
  split; [|split; [|split]].
  - intros h l pl d E. split; intros N.
    + apply (http_through_fault _ _ _ _ _ E). apply setWithin_fault, N.
    + apply (http_through_fault _ _ _ _ _ E). apply setFor_fault, N.
  - intros h l pl d E. split; intros N.
    + apply (cli_through_fault _ _ _ _ _ E). apply setWithin_fault, N.
    + apply (cli_through_fault _ _ _ _ _ E). apply setFor_fault, N.
  - intros h p q h1 d. split; intros R.
    + unfold HTTPPlan.Eventually, HTTPPlan.through in R.
      destruct p as [|l]; [discriminate|].
      destruct (httpPlans h !! l) as [pl|] eqn:E; [|discriminate].
      unfold setEventually in R.
      destruct (deref (configs h) _) as [c|]; [|discriminate].
      inversion R; subst q h1; clear R.
      eexists. split.
      * unfold HTTPPlan.Within. eapply http_through_done.
        -- unfold HTTPPlan.store; simpl. apply lookup_insert_eq.
        -- apply setWithin_done. reflexivity.
      * rewrite http_timingOf_store. reflexivity.
    + unfold HTTPPlan.Consistently, HTTPPlan.through in R.
      destruct p as [|l]; [discriminate|].
      destruct (httpPlans h !! l) as [pl|] eqn:E; [|discriminate].
      unfold setConsistently in R.
      destruct (deref (configs h) _) as [c|]; [|discriminate].
      inversion R; subst q h1; clear R.
      eexists. split.
      * unfold HTTPPlan.For. eapply http_through_done.
        -- unfold HTTPPlan.store; simpl. apply lookup_insert_eq.
        -- apply setFor_done. reflexivity.
      * rewrite http_timingOf_store. reflexivity.
  - intros h p q h1 d. split; intros R.
    + unfold CLIPlan.Eventually, CLIPlan.through in R.
      destruct p as [|l]; [discriminate|].
      destruct (cliPlans h !! l) as [pl|] eqn:E; [|discriminate].
      unfold setEventually in R.
      destruct (deref (configs h) _) as [c|]; [|discriminate].
      inversion R; subst q h1; clear R.
      eexists. split.
      * unfold CLIPlan.Within. eapply cli_through_done.
        -- unfold CLIPlan.store; simpl. apply lookup_insert_eq.
        -- apply setWithin_done. reflexivity.
      * rewrite cli_timingOf_store. reflexivity.
    + unfold CLIPlan.Consistently, CLIPlan.through in R.
      destruct p as [|l]; [discriminate|].
      destruct (cliPlans h !! l) as [pl|] eqn:E; [|discriminate].
      unfold setConsistently in R.
      destruct (deref (configs h) _) as [c|]; [|discriminate].
      inversion R; subst q h1; clear R.
      eexists. split.
      * unfold CLIPlan.For. eapply cli_through_done.
        -- unfold CLIPlan.store; simpl. apply lookup_insert_eq.
        -- apply setFor_done. reflexivity.
      * rewrite cli_timingOf_store. reflexivity.
Qed.

(** C4.  On a plan in the [TimingImmediate] state whose [Config] is
    allocated, [Eventually()] returns the receiver; afterwards the timing is
    [TimingEventually] and the timeout is the config's
    [DefaultRetryTimeout].  Both plan kinds. *)
Theorem C4_eventually_from_immediate :
  (forall h l pl c,
      httpPlans h !! l = Some pl ->
      pb_timing (http_base pl) = TimingImmediate ->
      deref (configs h) (pb_config (http_base pl)) = Some c ->
      exists h', HTTPPlan.Eventually (addr l) h = Return (addr l) h' /\
        HTTPPlan.timingOf (addr l) h' =
        Some (TimingEventually, DefaultRetryTimeout c)) /\
  (forall h l pl c,
      cliPlans h !! l = Some pl ->
      pb_timing (cli_base pl) = TimingImmediate ->
      deref (configs h) (pb_config (cli_base pl)) = Some c ->
      exists h', CLIPlan.Eventually (addr l) h = Return (addr l) h' /\
        CLIPlan.timingOf (addr l) h' =
        Some (TimingEventually, DefaultRetryTimeout c)).
Proof.
  split; intros h l pl c E _ C; eexists; split.
  - eapply http_through_done; [exact E|]. apply setEventually_done, C.
  - rewrite http_timingOf_store. reflexivity.
  - eapply cli_through_done; [exact E|]. apply setEventually_done, C.
  - rewrite cli_timingOf_store. reflexivity.
Qed.

(** C5.  On a plan in the [TimingEventually] state, [Within(d)] returns the
    receiver and replaces the plan by one that differs in the timeout only:
    the timing is still [TimingEventually], the timeout is [d], and context,
    config pointer, method, URL, headers and body (command and arguments for
    a CLI plan) are the old ones.  Every other object of the heap is
    untouched. *)
Theorem C5_within_overrides_only_the_duration :
  (forall h l pl d,
      httpPlans h !! l = Some pl ->
      pb_timing (http_base pl) = TimingEventually ->
      exists h', HTTPPlan.Within d (addr l) h = Return (addr l) h' /\
        httpPlans h' =
          <[l := {| http_base :=
                      {| pb_timing := TimingEventually; pb_timeout := d;
                         pb_ctx := pb_ctx (http_base pl);
                         pb_config := pb_config (http_base pl) |};
                    method := method pl; url := url pl;
                    headers := headers pl; body := body pl |}]> (httpPlans h) /\
        configs h' = configs h /\ cliPlans h' = cliPlans h /\
        httpAsserts h' = httpAsserts h /\ cliAsserts h' = cliAsserts h) /\
  (forall h l pl d,
      cliPlans h !! l = Some pl ->
      pb_timing (cli_base pl) = TimingEventually ->
      exists h', CLIPlan.Within d (addr l) h = Return (addr l) h' /\
        cliPlans h' =
          <[l := {| cli_base :=
                      {| pb_timing := TimingEventually; pb_timeout := d;
                         pb_ctx := pb_ctx (cli_base pl);
                         pb_config := pb_config (cli_base pl) |};
                    command := command pl; args := args pl |}]> (cliPlans h) /\
        configs h' = configs h /\ httpPlans h' = httpPlans h /\
        httpAsserts h' = httpAsserts h /\ cliAsserts h' = cliAsserts h).
Proof.
  split; intros h l pl d E M; eexists; split.
  - eapply http_through_done; [exact E|]. apply setWithin_done, M.
  - simpl. repeat split; reflexivity.
  - eapply cli_through_done; [exact E|]. apply setWithin_done, M.
  - simpl. repeat split; reflexivity.
Qed.

(** C6.  Whenever one of the builder methods [Eventually()], [Within(d)],
    [Consistently()], [For(d)] of an [HTTPPlan] or a [CLIPlan] returns, the
    pointer it returns is the receiver it was called on; and it does return
    on every allocated plan for which the call is legal (the config is
    allocated for the two mode selectors, the mode matches for the two
    overrides). *)
Theorem C6_builder_methods_return_the_receiver :
  (forall c p h r h', HTTPPlan.invoke c p h = Return r h' -> r = p) /\
  (forall c p h r h', CLIPlan.invoke c p h = Return r h' -> r = p) /\
  (forall c h l pl,
      httpPlans h !! l = Some pl -> legal c (configs h) (http_base pl) ->
      exists h', HTTPPlan.invoke c (addr l) h = Return (addr l) h') /\
  (forall c h l pl,
      cliPlans h !! l = Some pl -> legal c (configs h) (cli_base pl) ->
      exists h', CLIPlan.invoke c (addr l) h = Return (addr l) h').
Proof.
  split; [|split; [|split]].
  - intros c p h r h'. rewrite http_invoke_through.
    apply http_through_receiver.
  - intros c p h r h'. rewrite cli_invoke_through.
    apply cli_through_receiver.
  - intros c h l pl E L. destruct (legal_setter _ _ _ L) as [b' S].
    rewrite http_invoke_through. eexists.
    eapply http_through_done; eassumption.
  - intros c h l pl E L. destruct (legal_setter _ _ _ L) as [b' S].
    rewrite cli_invoke_through. eexists.
    eapply cli_through_done; eassumption.
Qed.

(** C7.  On an allocated plan, [T()] returns a pointer to a newly allocated
    assert of the matching kind (an [HTTPAssert] for an [HTTPPlan], a
    [CLIAssert] for a [CLIPlan]) whose [plan] field is the receiver and whose
    [config] field is the config pointer the plan carries; plans and configs
    are left as they were. *)
Theorem C7_T_makes_the_matching_assert :
  (forall h l pl,
      httpPlans h !! l = Some pl ->
      exists a h', HTTPPlan.T (addr l) h = Return (addr a) h' /\
        httpAsserts h !! a = None /\
        httpAsserts h' =
          <[a := {| ha_base := {| ab_config := pb_config (http_base pl) |};
                    ha_plan := addr l |}]> (httpAsserts h) /\
        cliAsserts h' = cliAsserts h /\ httpPlans h' = httpPlans h /\
        cliPlans h' = cliPlans h /\ configs h' = configs h) /\
  (forall h l pl,
      cliPlans h !! l = Some pl ->
      exists a h', CLIPlan.T (addr l) h = Return (addr a) h' /\
        cliAsserts h !! a = None /\
        cliAsserts h' =
          <[a := {| ca_base := {| ab_config := pb_config (cli_base pl) |};
                    ca_plan := addr l |}]> (cliAsserts h) /\
        httpAsserts h' = httpAsserts h /\ httpPlans h' = httpPlans h /\
        cliPlans h' = cliPlans h /\ configs h' = configs h).
Proof.
  split; intros h l pl E.
  - unfold HTTPPlan.T, HTTPPlan.alloc_assert. simpl. rewrite E.
    do 2 eexists. split; [reflexivity|]. simpl.
    split; [|repeat split; reflexivity].
    apply not_elem_of_dom, is_fresh.
  - unfold CLIPlan.T, CLIPlan.alloc_assert. simpl. rewrite E.
    do 2 eexists. split; [reflexivity|]. simpl.
    split; [|repeat split; reflexivity].
    apply not_elem_of_dom, is_fresh.
Qed.

(** C10.  On an allocated plan whose [Config] is allocated, whatever the
    timing and the timeout were, [Eventually()] and [Consistently()] return
    the receiver and leave the timing at their own mode with the timeout at
    the config's default (the field [DefaultRetryTimeout] for both).  In
    particular each one may follow the other, and a duration set through
    [Within] or [For] is overwritten.  Both plan kinds. *)
Theorem C10_mode_selectors_overwrite :
  (forall h l pl c,
      httpPlans h !! l = Some pl ->
      deref (configs h) (pb_config (http_base pl)) = Some c ->
      (exists h', HTTPPlan.Eventually (addr l) h = Return (addr l) h' /\
         HTTPPlan.timingOf (addr l) h' =
         Some (TimingEventually, DefaultRetryTimeout c)) /\
      (exists h', HTTPPlan.Consistently (addr l) h = Return (addr l) h' /\
         HTTPPlan.timingOf (addr l) h' =
         Some (TimingConsistently, DefaultRetryTimeout c)) /\
      (forall d, exists h',
         HTTPPlan.chain [CallEventually; CallWithin d; CallConsistently]
           (addr l) h = Return (addr l) h' /\
         HTTPPlan.timingOf (addr l) h' =
         Some (TimingConsistently, DefaultRetryTimeout c)) /\
      (forall d, exists h',
         HTTPPlan.chain [CallConsistently; CallFor d; CallEventually]
           (addr l) h = Return (addr l) h' /\
         HTTPPlan.timingOf (addr l) h' =
         Some (TimingEventually, DefaultRetryTimeout c))) /\
  (forall h l pl c,
      cliPlans h !! l = Some pl ->
      deref (configs h) (pb_config (cli_base pl)) = Some c ->
      (exists h', CLIPlan.Eventually (addr l) h = Return (addr l) h' /\
         CLIPlan.timingOf (addr l) h' =
         Some (TimingEventually, DefaultRetryTimeout c)) /\
      (exists h', CLIPlan.Consistently (addr l) h = Return (addr l) h' /\
         CLIPlan.timingOf (addr l) h' =
         Some (TimingConsistently, DefaultRetryTimeout c)) /\
      (forall d, exists h',
         CLIPlan.chain [CallEventually; CallWithin d; CallConsistently]
           (addr l) h = Return (addr l) h' /\
         CLIPlan.timingOf (addr l) h' =
         Some (TimingConsistently, DefaultRetryTimeout c)) /\
      (forall d, exists h',
         CLIPlan.chain [CallConsistently; CallFor d; CallEventually]
           (addr l) h = Return (addr l) h' /\
         CLIPlan.timingOf (addr l) h' =
         Some (TimingEventually, DefaultRetryTimeout c))).
Proof.
  split; intros h l pl c E C.
  - split; [|split; [|split]].
    + eexists; split.
      * eapply http_through_done; [exact E|]. apply setEventually_done, C.
      * rewrite http_timingOf_store. reflexivity.
    + eexists; split.
      * eapply http_through_done; [exact E|]. apply setConsistently_done, C.
      * rewrite http_timingOf_store. reflexivity.
    + intros d. eexists. split.
      * rewrite http_chain_cons.
        erewrite http_invoke_done;
          [|exact E|apply setEventually_done, C].
        rewrite http_chain_cons.
        erewrite http_invoke_done;
          [|apply lookup_insert_eq|apply setWithin_done; reflexivity].
        rewrite http_chain_cons.
        erewrite http_invoke_done;
          [|apply lookup_insert_eq|apply setConsistently_done; exact C].
        apply http_chain_nil.
      * rewrite http_timingOf_store. reflexivity.
    + intros d. eexists. split.
      * rewrite http_chain_cons.
        erewrite http_invoke_done;
          [|exact E|apply setConsistently_done, C].
        rewrite http_chain_cons.
        erewrite http_invoke_done;
          [|apply lookup_insert_eq|apply setFor_done; reflexivity].
        rewrite http_chain_cons.
        erewrite http_invoke_done;
          [|apply lookup_insert_eq|apply setEventually_done; exact C].
        apply http_chain_nil.
      * rewrite http_timingOf_store. reflexivity.
  - split; [|split; [|split]].
    + eexists; split.
      * eapply cli_through_done; [exact E|]. apply setEventually_done, C.
      * rewrite cli_timingOf_store. reflexivity.
    + eexists; split.
      * eapply cli_through_done; [exact E|]. apply setConsistently_done, C.
      * rewrite cli_timingOf_store. reflexivity.
    + intros d. eexists. split.
      * rewrite cli_chain_cons.
        erewrite cli_invoke_done;
          [|exact E|apply setEventually_done, C].
        rewrite cli_chain_cons.
        erewrite cli_invoke_done;
          [|apply lookup_insert_eq|apply setWithin_done; reflexivity].
        rewrite cli_chain_cons.
        erewrite cli_invoke_done;
          [|apply lookup_insert_eq|apply setConsistently_done; exact C].
        apply cli_chain_nil.
      * rewrite cli_timingOf_store. reflexivity.
    + intros d. eexists. split.
      * rewrite cli_chain_cons.
        erewrite cli_invoke_done;
          [|exact E|apply setConsistently_done, C].
        rewrite cli_chain_cons.
        erewrite cli_invoke_done;
          [|apply lookup_insert_eq|apply setFor_done; reflexivity].
        rewrite cli_chain_cons.
        erewrite cli_invoke_done;
          [|apply lookup_insert_eq|apply setEventually_done; exact C].
        apply cli_chain_nil.
      * rewrite cli_timingOf_store. reflexivity.
Qed.

End Timing.

(* ===================================================================== *)
(** * The plan builder: plans and the asserts made from them              *)
(* ===================================================================== *)

Section Sharing.
Import attest.

Lemma http_chain_asserts cs : forall p h,
  httpAsserts (heapOf (HTTPPlan.chain cs p h)) = httpAsserts h.
Proof.
  induction cs as [|c cs IH]; intros p h; [reflexivity|].
  rewrite http_chain_cons.
  pose proof (http_invoke_frame c p h) as F. cbv zeta in F.
  destruct (HTTPPlan.invoke c p h) as [p' h'|msg h']; cbn [heapOf] in *.
  - rewrite IH. apply F.
  - apply F.
Qed.

Lemma cli_chain_asserts cs : forall p h,
  cliAsserts (heapOf (CLIPlan.chain cs p h)) = cliAsserts h.
Proof.
  induction cs as [|c cs IH]; intros p h; [reflexivity|].
  rewrite cli_chain_cons.
  pose proof (cli_invoke_frame c p h) as F. cbv zeta in F.
  destruct (CLIPlan.invoke c p h) as [p' h'|msg h']; cbn [heapOf] in *.
  - rewrite IH. apply F.
  - apply F.
Qed.

Lemma http_T_inv p h a h1 :
  HTTPPlan.T p h = Return a h1 ->
  exists x, deref (httpAsserts h1) a = Some x /\ ha_plan x = p.
Proof.
  unfold HTTPPlan.T, HTTPPlan.alloc_assert.
  destruct (deref (httpPlans h) p) as [pl|]; [|discriminate].
  intros E. inversion E; subst a h1; clear E. simpl.
  rewrite lookup_insert_eq. eexists. split; reflexivity.
Qed.

Lemma cli_T_inv p h a h1 :
  CLIPlan.T p h = Return a h1 ->
  exists x, deref (cliAsserts h1) a = Some x /\ ca_plan x = p.
Proof.
  unfold CLIPlan.T, CLIPlan.alloc_assert.
  destruct (deref (cliPlans h) p) as [pl|]; [|discriminate].
  intros E. inversion E; subst a h1; clear E. simpl.
  rewrite lookup_insert_eq. eexists. split; reflexivity.
Qed.

(** C3 as the spec states it fails: the plan of the sample heap is in the
    [TimingImmediate] state when [T()] hands out the assert, and the
    [Eventually()] call made on the plan afterwards changes the timing the
    assert works with to [TimingEventually] and 5s. *)
Lemma C3_assert_sees_later_builder_call :
  exists a h1 h2,
    HTTPPlan.T (addr 1) Sample.heap = Return a h1 /\
    HTTPPlan.Eventually (addr 1) h1 = Return (addr 1) h2 /\
    HTTPPlan.assertTiming a h1 = Some (TimingImmediate, 0) /\
    HTTPPlan.assertTiming a h2 = Some (TimingEventually, 5 * Second).
Proof.
  do 3 eexists. split; [reflexivity|]. split; [reflexivity|].
  split; vm_compute; reflexivity.
Qed.

(** C3, amended.  The assert [T()] returns keeps the pointer to the plan, not
    a copy of its timing state: after any chain of further builder calls on
    the plan (whether it returns or panics), the timing and duration the
    assert works with are the ones the plan has then, and the assert itself
    (its plan and config pointers) is the one [T()] made.  Both plan kinds. *)
Theorem C3_assert_shares_the_plan :
  (forall h p a h1 cs,
      HTTPPlan.T p h = Return a h1 ->
      HTTPPlan.assertTiming a (heapOf (HTTPPlan.chain cs p h1)) =
        HTTPPlan.timingOf p (heapOf (HTTPPlan.chain cs p h1)) /\
      deref (httpAsserts (heapOf (HTTPPlan.chain cs p h1))) a =
        deref (httpAsserts h1) a) /\
  (forall h p a h1 cs,
      CLIPlan.T p h = Return a h1 ->
      CLIPlan.assertTiming a (heapOf (CLIPlan.chain cs p h1)) =
        CLIPlan.timingOf p (heapOf (CLIPlan.chain cs p h1)) /\
      deref (cliAsserts (heapOf (CLIPlan.chain cs p h1))) a =
        deref (cliAsserts h1) a).
Proof.
  split; intros h p a h1 cs E.
  - destruct (http_T_inv _ _ _ _ E) as (x & X & P).
    unfold HTTPPlan.assertTiming.
    rewrite http_chain_asserts, X, P. split; reflexivity.
  - destruct (cli_T_inv _ _ _ _ E) as (x & X & P).
    unfold CLIPlan.assertTiming.
    rewrite cli_chain_asserts, X, P. split; reflexivity.
Qed.

End Sharing.

(* ===================================================================== *)
(** * The plan builder: the theorems at the sample heap                   *)
(* ===================================================================== *)

Section BuilderWitnesses.
Import attest.

(** The amended C1 on the second HTTP plan of the sample heap, which is in
    the Eventually state when [Consistently()] is called. *)
Lemma C1_witness :
  exists h', HTTPPlan.Consistently (addr 2) Sample.heap = Return (addr 2) h' /\
    HTTPPlan.timingOf (addr 2) h' = Some (TimingConsistently, 5 * Second).
Proof.
  apply (proj1 C1_consistently_sets_retry_timeout
           Sample.heap 2%positive Sample.get_ready Sample.cfg);
    reflexivity.
Defined.

(** C2 on the first HTTP plan of the sample heap, which is in the Immediate
    state: both overrides panic. *)
Lemma C2_witness :
  HTTPPlan.Within (2 * Second) (addr 1) Sample.heap =
    Panic "Within() can only be called after Eventually()" Sample.heap /\
  HTTPPlan.For (2 * Second) (addr 1) Sample.heap =
    Panic "For() can only be called after Consistently()" Sample.heap.
Proof.
  destruct C2_within_for_misuse_panics as [W _].
  destruct (W Sample.heap 1%positive Sample.get_health (2 * Second) eq_refl)
    as [A B].
  split; [apply A | apply B]; simpl; discriminate.
Defined.

(** The amended C3 on the first HTTP plan of the sample heap, with the chain
    [Eventually().Within(2s)] made after [T()]. *)
Lemma C3_witness :
  match HTTPPlan.T (addr 1) Sample.heap with
  | Return a h1 =>
    HTTPPlan.assertTiming a
      (heapOf (HTTPPlan.chain [CallEventually; CallWithin (2 * Second)]
                 (addr 1) h1)) =
    HTTPPlan.timingOf (addr 1)
      (heapOf (HTTPPlan.chain [CallEventually; CallWithin (2 * Second)]
                 (addr 1) h1))
  | Panic _ _ => False
  end.
Proof.
  destruct (HTTPPlan.T (addr 1) Sample.heap) as [a h1|msg h1] eqn:E.
  - apply (proj1 C3_assert_shares_the_plan Sample.heap (addr 1) a h1 _ E).
  - vm_compute in E. discriminate E.
Defined.

(** C4 on the first HTTP plan of the sample heap. *)
Lemma C4_witness :
  exists h', HTTPPlan.Eventually (addr 1) Sample.heap = Return (addr 1) h' /\
    HTTPPlan.timingOf (addr 1) h' = Some (TimingEventually, 5 * Second).
Proof.
  apply (proj1 C4_eventually_from_immediate
           Sample.heap 1%positive Sample.get_health Sample.cfg);
    reflexivity.
Defined.

(** C6 on the first CLI plan of the sample heap. *)
Lemma C6_witness :
  exists h', CLIPlan.invoke CallConsistently (addr 1) Sample.heap =
             Return (addr 1) h'.
Proof.
  destruct C6_builder_methods_return_the_receiver as (_ & _ & _ & R).
  apply (R CallConsistently Sample.heap 1%positive Sample.echo_ok).
  - reflexivity.
  - simpl. eexists. reflexivity.
Defined.

(** C7 on the first CLI plan of the sample heap. *)
Lemma C7_witness :
  exists a h', CLIPlan.T (addr 1) Sample.heap = Return (addr a) h' /\
    cliAsserts h' !! a =
      Some {| ca_base := {| ab_config := addr 1 |}; ca_plan := addr 1 |}.
Proof.
  destruct (proj2 C7_T_makes_the_matching_assert
              Sample.heap 1%positive Sample.echo_ok eq_refl)
    as (a & h' & E & _ & A & _).
  exists a, h'. split; [exact E|]. rewrite A. apply lookup_insert_eq.
Defined.

(** C10 on the first HTTP plan of the sample heap: [Consistently()] after
    [Eventually().Within(2s)]. *)
Lemma C10_witness :
  exists h',
    HTTPPlan.chain [CallEventually; CallWithin (2 * Second); CallConsistently]
      (addr 1) Sample.heap = Return (addr 1) h' /\
    HTTPPlan.timingOf (addr 1) h' = Some (TimingConsistently, 5 * Second).
Proof.
  destruct (proj1 C10_mode_selectors_overwrite
              Sample.heap 1%positive Sample.get_health Sample.cfg
              eq_refl eq_refl) as (_ & _ & R & _).
  apply (R (2 * Second)).
Defined.

End BuilderWitnesses.

(* ===================================================================== *)
(** * UTF-8 decoding, trimming and splitting: lemmas                      *)
(* ===================================================================== *)

Section Strings.
Import utf8.

(** ** Bytes and the forward decoder *)

Lemma byteval_range c : 0 <= byteval c < 256.
Proof.
  unfold byteval. pose proof (N_ascii_bounded c) as B. lia.
Qed.

Lemma RuneStart_spec c :
  RuneStart (byteval c) = negb ((0x80 <=? byteval c) && (byteval c <=? 0xBF)).
Proof. destruct c as [[] [] [] [] [] [] [] []]; reflexivity. Qed.

(** The classes of the [first] table. *)
Lemma first_cases b :
  (b < 0x80 /\ first b = as_) \/ (0x80 <= b /\ first b = xx) \/
  (0xC2 <= b /\ first b = s1) \/ (0xC2 <= b /\ first b = s2) \/ (0xC2 <= b /\ first b = s3) \/
  (0xC2 <= b /\ first b = s4) \/ (0xC2 <= b /\ first b = s5) \/ (0xC2 <= b /\ first b = s6) \/
  (0xC2 <= b /\ first b = s7).
Proof.
  unfold first.
  repeat match goal with
  | |- context [if ?c then _ else _] => 
      let E := fresh "E" in destruct c eqn:E;
      [ first [apply Z.ltb_lt in E | apply Z.eqb_eq in E] | first [apply Z.ltb_ge in E | apply Z.eqb_neq in E] ]
  end; try lia; intuition lia.
Qed.

(** The decoder by the class of the first byte: an ASCII byte, an invalid
    first byte, or the lead byte of a sequence of 2 to 4 bytes. *)
Lemma decode_cases c0 :
  (byteval c0 < 0x80 /\ forall t0, DecodeRuneInString (c0 :: t0) = (byteval c0, 1)) \/
  (0x80 <= byteval c0 /\ forall t0, DecodeRuneInString (c0 :: t0) = (RuneError, 1)) \/
  (0xC2 <= byteval c0 /\ exists sz lo hi,
      2 <= sz <= 4 /\ 0x80 <= lo /\ hi <= 0xBF /\
      forall t0, DecodeRuneInString (c0 :: t0) = decodeSeq sz lo hi c0 t0).
Proof.
  assert (forall x sz lo hi,
            first (byteval c0) = x -> (as_ <=? x) = false ->
            Z.land x 7 = sz -> acceptRanges (Z.shiftr x 4) = (lo, hi) ->
            forall t0, DecodeRuneInString (c0 :: t0) = decodeSeq sz lo hi c0 t0)
    as Seq.
  { intros x sz lo hi E A S R t0. unfold DecodeRuneInString, decodeSeq.
    rewrite E, A, S, R. reflexivity. }
  destruct (first_cases (byteval c0))
    as [[B E]|[[B E]|[[B E]|[[B E]|[[B E]|[[B E]|[[B E]|[[B E]|[B E]]]]]]]]].
  - left. split; [exact B|]. intros t0. unfold DecodeRuneInString.
    rewrite E. reflexivity.
  - right; left. split; [exact B|]. intros t0. unfold DecodeRuneInString.
    rewrite E. reflexivity.
  - right; right. split; [exact B|]. exists 2, 0x80, 0xBF.
    repeat split; try lia. apply (Seq s1); [exact E|reflexivity..].
  - right; right. split; [exact B|]. exists 3, 0xA0, 0xBF.
    repeat split; try lia. apply (Seq s2); [exact E|reflexivity..].
  - right; right. split; [exact B|]. exists 3, 0x80, 0xBF.
    repeat split; try lia. apply (Seq s3); [exact E|reflexivity..].
  - right; right. split; [exact B|]. exists 3, 0x80, 0x9F.
    repeat split; try lia. apply (Seq s4); [exact E|reflexivity..].
  - right; right. split; [exact B|]. exists 4, 0x90, 0xBF.
    repeat split; try lia. apply (Seq s5); [exact E|reflexivity..].
  - right; right. split; [exact B|]. exists 4, 0x80, 0xBF.
    repeat split; try lia. apply (Seq s6); [exact E|reflexivity..].
  - right; right. split; [exact B|]. exists 4, 0x80, 0x8F.
    repeat split; try lia. apply (Seq s7); [exact E|reflexivity..].
Qed.

(** Case analysis on every test of the goal; arithmetic closes the
    impossible branches. *)
Ltac tests :=
  repeat match goal with
  | |- context [if ?c then _ else _] =>
      let E := fresh "E" in destruct c eqn:E
  end.

Ltac arith :=
  unfold isCont, len, locb, hicb in *; cbn [length] in *;
  repeat match goal with
  | H : (_ || _) = true |- _ => apply orb_true_iff in H; destruct H as [H|H]
  | H : (_ || _) = false |- _ => apply orb_false_iff in H; destruct H as [? ?]
  | H : (_ && _) = true |- _ => apply andb_true_iff in H; destruct H as [? ?]
  | H : (_ && _) = false |- _ => apply andb_false_iff in H; destruct H as [H|H]
  end;
  repeat match goal with
  | H : (_ <? _) = true |- _ => apply Z.ltb_lt in H
  | H : (_ <? _) = false |- _ => apply Z.ltb_ge in H
  | H : (_ <=? _) = true |- _ => apply Z.leb_le in H
  | H : (_ <=? _) = false |- _ => apply Z.leb_gt in H
  | H : (_ =? _) = true |- _ => apply Z.eqb_eq in H
  | H : (_ =? _) = false |- _ => apply Z.eqb_neq in H
  end;
  lia.

Lemma decodeSeq_app_boundary sz lo hi c0 t u :
  2 <= sz <= 4 -> 0x80 <= lo -> hi <= 0xBF -> boundary u ->
  decodeSeq sz lo hi c0 (t ++ u) = decodeSeq sz lo hi c0 t.
Proof.
  intros S L Hh B. unfold decodeSeq.
  destruct t as [|c1 [|c2 [|c3 t]]]; cbn [app];
    destruct u as [|u0 [|u1 [|u2 u]]]; cbn [boundary] in B; cbn [app];
    tests; try reflexivity; exfalso; arith.
Qed.

(** Bytes after a sequence do not change its decoding when the first of
    them is not a continuation byte. *)
Lemma decode_app_boundary c u :
  c <> [] -> boundary u ->
  DecodeRuneInString (c ++ u) = DecodeRuneInString c.
Proof.
  intros N B. destruct c as [|c0 t]; [contradiction|]. cbn [app].
  destruct (decode_cases c0) as [[_ E]|[[_ E]|[_ (sz & lo & hi & S & L & Hh & E)]]].
  - rewrite !E. reflexivity.
  - rewrite !E. reflexivity.
  - rewrite !E. apply decodeSeq_app_boundary; assumption.
Qed.

(** A prefix is decoded as the whole string is, or as an invalid byte. *)
Lemma decode_app_prefix c u :
  c <> [] ->
  DecodeRuneInString (c ++ u) = DecodeRuneInString c \/
  DecodeRuneInString c = (RuneError, 1).
Proof.
  intros N. destruct c as [|c0 t]; [contradiction|]. cbn [app].
  destruct (decode_cases c0) as [[_ E]|[[_ E]|[_ (sz & lo & hi & S & L & Hh & E)]]].
  - rewrite !E. left. reflexivity.
  - rewrite !E. left. reflexivity.
  - rewrite !E. unfold decodeSeq.
    destruct t as [|c1 [|c2 [|c3 t]]]; cbn [app];
      destruct u as [|u0 [|u1 [|u2 u]]]; cbn [app];
      tests; try (left; reflexivity); try (right; reflexivity);
      exfalso; arith.
Qed.

(** The decoder consumes at least one byte and no more than there are. *)
Lemma decode_size c :
  c <> [] -> 1 <= snd (DecodeRuneInString c) <= len c.
Proof.
  intros N. destruct c as [|c0 t]; [contradiction|].
  destruct (decode_cases c0) as [[_ E]|[[_ E]|[_ (sz & lo & hi & S & L & Hh & E)]]].
  - rewrite E. unfold len. cbn [snd length]. lia.
  - rewrite E. unfold len. cbn [snd length]. lia.
  - rewrite E. unfold decodeSeq.
    destruct t as [|c1 [|c2 [|c3 t]]]; tests; cbn [snd]; arith.
Qed.

Lemma IsSpace_RuneError : unicode.IsSpace RuneError = false.
Proof. reflexivity. Qed.

(** A white-space rune does not start with a continuation byte. *)
Lemma decode_space_boundary s :
  s <> [] ->
  unicode.IsSpace (fst (DecodeRuneInString s)) = true -> boundary s.
Proof.
  intros N. destruct s as [|c0 t]; [contradiction|].
  destruct (decode_cases c0) as [[B E]|[[_ E]|[B _]]].
  - intros _. cbn [boundary]. unfold isCont.
    apply andb_false_iff. left. apply Z.leb_gt. exact B.
  - rewrite E. cbn [fst]. rewrite IsSpace_RuneError. discriminate.
  - intros _. cbn [boundary]. unfold isCont.
    apply andb_false_iff. right. apply Z.leb_gt. lia.
Qed.

Lemma decode_single c :
  0x80 <= byteval c -> DecodeRuneInString [c] = (RuneError, 1).
Proof.
  intros B.
  destruct (decode_cases c) as [[B' E]|[[_ E]|[_ (sz & lo & hi & S & L & Hh & E)]]].
  - lia.
  - apply E.
  - rewrite E. unfold decodeSeq. tests; try reflexivity; exfalso; arith.
Qed.

(** A sequence the decoder consumes whole is a lead byte followed by
    continuation bytes. *)
Lemma decode_full_bytes c r :
  DecodeRuneInString c = (r, len c) -> 2 <= len c ->
  exists c0 t, c = c0 :: t /\ 0xC2 <= byteval c0 /\ len c <= 4 /\
    Forall (fun a => isCont (byteval a) = true) t.
Proof.
  intros D N. destruct c as [|c0 t]; [unfold len in N; cbn in N; lia|].
  exists c0, t. split; [reflexivity|].
  destruct (decode_cases c0) as [[_ E]|[[_ E]|[B (sz & lo & hi & S & L & Hh & E)]]].
  - rewrite E in D. apply (f_equal snd) in D. cbn [snd] in D. lia.
  - rewrite E in D. apply (f_equal snd) in D. cbn [snd] in D. lia.
  - split; [exact B|]. rewrite E in D. unfold decodeSeq in D.
    destruct t as [|c1 [|c2 [|c3 [|c4 t]]]];
      repeat match type of D with
      | context [if ?c then _ else _] =>
          let E := fresh "E" in destruct c eqn:E
      end; apply (f_equal snd) in D; cbn [snd] in D;
      try (exfalso; arith);
      (split; [unfold len in *; cbn [length] in *; lia|]);
      repeat (apply List.Forall_cons;
              [apply andb_true_iff; split; apply Z.leb_le; arith|]);
      apply List.Forall_nil.
Qed.

(** ** Indexing and slicing *)

Lemma len_app p q : len (p ++ q) = len p + len q.
Proof. unfold len. rewrite length_app. lia. Qed.

Lemma len_nonneg s : 0 <= len s.
Proof. unfold len. lia. Qed.

Lemma len_cons c s : len (c :: s) = 1 + len s.
Proof. unfold len. cbn [length]. lia. Qed.

Lemma len_nil_iff s : len s = 0 <-> s = [].
Proof.
  unfold len. destruct s; cbn [length]; split; intros E;
    try reflexivity; try discriminate; lia.
Qed.

Lemma at_app_r p q k :
  0 <= k -> at_ (p ++ q) (len p + k) = at_ q k.
Proof.
  intros K. unfold at_, len.
  replace (Z.to_nat (Z.of_nat (length p) + k))
    with (length p + Z.to_nat k)%nat by lia.
  rewrite app_nth2_plus. reflexivity.
Qed.

Lemma at_app_l p q k :
  0 <= k < len p -> at_ (p ++ q) k = at_ p k.
Proof.
  intros K. unfold at_, len in *. rewrite app_nth1 by lia. reflexivity.
Qed.

Lemma at_head c q : at_ (c :: q) 0 = byteval c.
Proof. reflexivity. Qed.

Lemma slice_prefix s i : slice s 0 i = take (Z.to_nat i) s.
Proof. unfold slice. reflexivity. Qed.

Lemma slice_suffix s i : slice s i (len s) = drop (Z.to_nat i) s.
Proof.
  unfold slice, len. rewrite Nat2Z.id, take_ge by lia. reflexivity.
Qed.

Lemma slice_app_r p q : slice (p ++ q) (len p) (len (p ++ q)) = q.
Proof.
  rewrite slice_suffix. unfold len. rewrite Nat2Z.id.
  apply drop_app_length.
Qed.

Lemma take_len_app p q : take (Z.to_nat (len p)) (p ++ q) = p.
Proof. unfold len. rewrite Nat2Z.id. apply take_app_length. Qed.

Lemma drop_len_app p q : drop (Z.to_nat (len p)) (p ++ q) = q.
Proof. unfold len. rewrite Nat2Z.id. apply drop_app_length. Qed.

(** ** DecodeLastRuneInString *)

Lemma backToStart_le n s lim st : backToStart n s lim st <= st.
Proof.
  revert st. induction n as [|n IH]; intros st; cbn [backToStart]; [lia|].
  destruct (st <? lim); [lia|].
  destruct (RuneStart (at_ s st)); [lia|].
  specialize (IH (st - 1)). lia.
Qed.

Lemma dlr_nil : DecodeLastRuneInString [] = (RuneError, 0).
Proof. reflexivity. Qed.

Lemma dlr_ascii p c :
  byteval c < 0x80 -> DecodeLastRuneInString (p ++ [c]) = (byteval c, 1).
Proof.
  intros B. unfold DecodeLastRuneInString.
  rewrite len_app, len_cons.
  replace (len p + (1 + len [])) with (len p + 1) by (unfold len; cbn; lia).
  pose proof (len_nonneg p) as P.
  destruct (len p + 1 =? 0) eqn:Z0; [apply Z.eqb_eq in Z0; lia|].
  replace (len p + 1 - 1) with (len p + 0) by lia.
  rewrite at_app_r, at_head by lia.
  unfold RuneSelf. destruct (byteval c <? 128) eqn:A; [reflexivity|].
  apply Z.ltb_ge in A. lia.
Qed.

Lemma dlr_size s :
  s <> [] -> 1 <= snd (DecodeLastRuneInString s) <= len s.
Proof.
  intros N. unfold DecodeLastRuneInString.
  assert (0 < len s) as P.
  { pose proof (len_nonneg s). pose proof (len_nil_iff s). 
    destruct (Z.eq_dec (len s) 0); [tauto|lia]. }
  destruct (len s =? 0) eqn:Z0; [apply Z.eqb_eq in Z0; lia|].
  destruct (_ <? RuneSelf); [cbn [snd]; lia|].
  destruct (DecodeRuneInString _) as [r size] eqn:D.
  destruct (negb _) eqn:G; [cbn [snd]; lia|].
  apply negb_false_iff, Z.eqb_eq in G. cbn [snd].
  match type of D with DecodeRuneInString ?x = _ =>
    assert (x <> []) as NE end.
  { intros X. rewrite X in D. cbn in D. inversion D; subst.
    pose proof (backToStart_le 4 s
      (if len s - UTFMax <? 0 then 0 else len s - UTFMax) (len s - 1 - 1)).
    destruct (_ <? 0) eqn:F in G; [lia|]. lia. }
  pose proof (decode_size _ NE) as DS. rewrite D in DS. cbn [snd] in DS.
  split; [lia|].
  destruct (backToStart _ _ _ _ <? 0) eqn:F in G; [lia|].
  apply Z.ltb_ge in F. lia.
Qed.

(** What the backward decoder returns: a final ASCII byte, an invalid
    final byte, or a final sequence the forward decoder consumes whole. *)
Lemma dlr_sound s r size :
  s <> [] -> DecodeLastRuneInString s = (r, size) ->
  (exists p c, s = p ++ [c] /\ byteval c < 0x80 /\ r = byteval c /\ size = 1) \/
  (r = RuneError /\ size = 1 /\ exists p c, s = p ++ [c] /\ 0x80 <= byteval c) \/
  (exists p c, s = p ++ c /\ 2 <= len c /\ size = len c /\
               DecodeRuneInString c = (r, len c)).
Proof.
  intros N D. destruct (exists_last N) as (p & c & ->). clear N.
  destruct (Z.lt_ge_cases (byteval c) 0x80) as [A|A].
  { left. exists p, c. rewrite (dlr_ascii p c A) in D. inversion D; subst.
    auto. }
  right. revert D. unfold DecodeLastRuneInString.
  set (s := p ++ [c]).
  assert (len s = len p + 1) as L.
  { unfold s. rewrite len_app. unfold len. cbn [length]. lia. }
  pose proof (len_nonneg p) as P.
  destruct (len s =? 0) eqn:Z0; [apply Z.eqb_eq in Z0; lia|]. clear Z0.
  replace (at_ s (len s - 1)) with (byteval c).
  2:{ replace (len s - 1) with (len p + 0) by lia. unfold s.
      rewrite at_app_r, at_head by lia. reflexivity. }
  unfold RuneSelf. destruct (byteval c <? 128) eqn:A'; [apply Z.ltb_lt in A'; lia|].
  clear A'.
  set (lim := if len s - UTFMax <? 0 then 0 else len s - UTFMax).
  pose proof (backToStart_le 4 s lim (len s - 1 - 1)) as BL.
  set (st' := backToStart 4 s lim (len s - 1 - 1)) in *.
  set (st := if st' <? 0 then 0 else st').
  assert (0 <= st /\ (st = st' \/ st = 0)) as [S0 S1].
  { unfold st. destruct (st' <? 0) eqn:F; [lia|]. apply Z.ltb_ge in F. lia. }
  destruct (DecodeRuneInString (slice s st (len s))) as [r' size'] eqn:D.
  destruct (negb (st + size' =? len s)) eqn:G.
  { intros X. inversion X; subst. left. split; [reflexivity|].
    split; [reflexivity|]. exists p, c. auto. }
  apply negb_false_iff, Z.eqb_eq in G.
  intros X. inversion X; subst r' size'. clear X.
  rewrite slice_suffix in D.
  destruct (Z.lt_ge_cases size 2) as [S2|S2].
  - (* a single byte: only when the string is that byte *)
    left.
    assert (drop (Z.to_nat st) s <> []) as NE.
    { intros E. apply (f_equal length) in E. rewrite length_drop in E.
      unfold len in *. cbn [length] in E. lia. }
    pose proof (decode_size _ NE) as DS. rewrite D in DS. cbn [snd] in DS.
    assert (st = 0 /\ len p = 0) as [-> P0] by lia.
    apply len_nil_iff in P0. subst p.
    change (DecodeRuneInString [c] = (r, size)) in D.
    rewrite (decode_single c A) in D. inversion D; subst.
    split; [reflexivity|]. split; [reflexivity|]. exists [], c. auto.
  - right. exists (take (Z.to_nat st) s), (drop (Z.to_nat st) s).
    assert (len (drop (Z.to_nat st) s) = size) as LD.
    { unfold len in *. rewrite length_drop. lia. }
    rewrite LD. split; [symmetry; apply take_drop|].
    split; [exact S2|]. split; [reflexivity|]. exact D.
Qed.

Lemma backToStart_skip n s lim st :
  lim <= st -> RuneStart (at_ s st) = false ->
  backToStart (S n) s lim st = backToStart n s lim (st - 1).
Proof.
  intros L R. cbn [backToStart].
  destruct (st <? lim) eqn:F; [apply Z.ltb_lt in F; lia|].
  rewrite R. reflexivity.
Qed.

Lemma backToStart_stop n s lim st :
  lim <= st -> RuneStart (at_ s st) = true ->
  backToStart (S n) s lim st = st.
Proof.
  intros L R. cbn [backToStart].
  destruct (st <? lim) eqn:F; [apply Z.ltb_lt in F; lia|].
  rewrite R. reflexivity.
Qed.

Lemma RuneStart_cont c : isCont (byteval c) = true -> RuneStart (byteval c) = false.
Proof. intros C. rewrite RuneStart_spec. unfold isCont in C. rewrite C. reflexivity. Qed.

Lemma RuneStart_lead c : 0xC2 <= byteval c -> RuneStart (byteval c) = true.
Proof.
  intros C. rewrite RuneStart_spec.
  destruct (byteval c <=? 191) eqn:E; [apply Z.leb_le in E; lia|].
  rewrite andb_false_r. reflexivity.
Qed.

(** The backward decoder finds a sequence the forward decoder consumes
    whole. *)
Lemma dlr_complete p c r :
  DecodeRuneInString c = (r, len c) -> 2 <= len c ->
  DecodeLastRuneInString (p ++ c) = (r, len c).
Proof.
  intros D N.
  destruct (decode_full_bytes c r D N) as (c0 & t & -> & B & L4 & CT).
  pose proof (len_nonneg p) as P.
  unfold DecodeLastRuneInString.
  set (s := p ++ c0 :: t).
  assert (len s = len p + len (c0 :: t)) as LS by (unfold s; apply len_app).
  assert (forall k, 0 <= k -> at_ s (len p + k) = at_ (c0 :: t) k) as AT.
  { intros k K. unfold s. apply at_app_r. exact K. }
  assert (at_ s (len p) = byteval c0) as AT0.
  { replace (len p) with (len p + 0) by lia. rewrite AT by lia.
    reflexivity. }
  assert (slice s (len p) (len s) = c0 :: t) as SL.
  { unfold s. apply slice_app_r. }
  destruct (len s =? 0) eqn:Z0; [apply Z.eqb_eq in Z0; lia|]. clear Z0.
  assert (backToStart 4 s (if len s - UTFMax <? 0 then 0 else len s - UTFMax)
            (len s - 1 - 1) = len p /\
          (at_ s (len s - 1) <? RuneSelf) = false) as [BS LA].
  { unfold UTFMax.
    set (lim := if len s - 4 <? 0 then 0 else len s - 4).
    assert (lim <= len p) as LL.
    { unfold lim. destruct (len s - 4 <? 0) eqn:F; [lia|].
      apply Z.ltb_ge in F. lia. }
    clearbody lim.
    destruct t as [|c1 [|c2 [|c3 [|c4 t]]]];
      unfold len in N, L4, LS; cbn [length] in N, L4, LS; try lia.
    - apply Forall_cons in CT as [C1 _].
      replace (len s - 1 - 1) with (len p) by (unfold len in *; lia).
      replace (len s - 1) with (len p + 1) by (unfold len in *; lia).
      split.
      + apply backToStart_stop; [lia|]. rewrite AT0.
        apply RuneStart_lead, B.
      + rewrite AT by lia. change (at_ [c0; c1] 1) with (byteval c1).
        unfold RuneSelf, isCont in *. apply Z.ltb_ge.
        apply andb_true_iff in C1 as [C1 _]. apply Z.leb_le in C1. lia.
    - apply Forall_cons in CT as [C1 CT]. apply Forall_cons in CT as [C2 _].
      replace (len s - 1 - 1) with (len p + 1) by (unfold len in *; lia).
      replace (len s - 1) with (len p + 2) by (unfold len in *; lia).
      split.
      + rewrite backToStart_skip; [|lia|].
        2:{ rewrite AT by lia. apply (RuneStart_cont c1 C1). }
        replace (len p + 1 - 1) with (len p) by lia.
        apply backToStart_stop; [lia|]. rewrite AT0.
        apply RuneStart_lead, B.
      + rewrite AT by lia. change (at_ [c0; c1; c2] 2) with (byteval c2).
        unfold RuneSelf, isCont in *. apply Z.ltb_ge.
        apply andb_true_iff in C2 as [C2 _]. apply Z.leb_le in C2. lia.
    - apply Forall_cons in CT as [C1 CT]. apply Forall_cons in CT as [C2 CT].
      apply Forall_cons in CT as [C3 _].
      replace (len s - 1 - 1) with (len p + 2) by (unfold len in *; lia).
      replace (len s - 1) with (len p + 3) by (unfold len in *; lia).
      split.
      + rewrite backToStart_skip; [|lia|].
        2:{ rewrite AT by lia. apply (RuneStart_cont c2 C2). }
        replace (len p + 2 - 1) with (len p + 1) by lia.
        rewrite backToStart_skip; [|lia|].
        2:{ rewrite AT by lia. apply (RuneStart_cont c1 C1). }
        replace (len p + 1 - 1) with (len p) by lia.
        apply backToStart_stop; [lia|]. rewrite AT0.
        apply RuneStart_lead, B.
      + rewrite AT by lia. change (at_ [c0; c1; c2; c3] 3) with (byteval c3).
        unfold RuneSelf, isCont in *. apply Z.ltb_ge.
        apply andb_true_iff in C3 as [C3 _]. apply Z.leb_le in C3. lia. }
  rewrite LA, BS.
  destruct (len p <? 0) eqn:F; [apply Z.ltb_lt in F; lia|].
  rewrite SL, D.
  destruct (negb (len p + len (c0 :: t) =? len s)) eqn:G; [|reflexivity].
  apply negb_true_iff, Z.eqb_neq in G. lia.
Qed.

(** After an ASCII byte, the last rune of a non-empty string is found
    without looking at what precedes that byte. *)
Lemma dlr_app_ascii p a s :
  byteval a < 0x80 -> s <> [] ->
  unicode.IsSpace (fst (DecodeLastRuneInString (p ++ a :: s))) = true ->
  unicode.IsSpace (fst (DecodeLastRuneInString s)) = true.
Proof.
  intros A N.
  destruct (DecodeLastRuneInString (p ++ a :: s)) as [r size] eqn:D.
  cbn [fst]. intros SP.
  assert (p ++ a :: s <> []) as N' by (destruct p; discriminate).
  destruct (dlr_sound _ _ _ N' D)
    as [(q & c & E & C & -> & _)|[(-> & _)|(q & c & E & L2 & _ & DC)]].
  - destruct (exists_last N) as (s' & c' & ->).
    replace (p ++ a :: s' ++ [c']) with ((p ++ a :: s') ++ [c']) in E
      by (rewrite <- app_assoc; reflexivity).
    apply app_inj_tail in E as [_ ->].
    rewrite (dlr_ascii s' c C). exact SP.
  - rewrite IsSpace_RuneError in SP. discriminate.
  - destruct (decode_full_bytes c r DC L2) as (c0 & t & -> & B & _ & CT).
    replace (p ++ a :: s) with ((p ++ [a]) ++ s) in E
      by (rewrite <- app_assoc; reflexivity).
    apply app_eq_inv in E as [(k & E1 & E2)|(k & E1 & E2)].
    + destruct k as [|k0 k] using rev_ind.
      * cbn [app] in E2. rewrite <- E2.
        pose proof (dlr_complete [] (c0 :: t) r DC L2) as DL.
        cbn [app] in DL. rewrite DL. exact SP.
      * exfalso. rewrite app_assoc in E1.
        apply app_inj_tail in E1 as [_ <-].
        destruct k as [|k1 k]; cbn [app] in E2; inversion E2; subst.
        -- lia.
        -- apply Forall_app in CT as [CT _]. apply Forall_app in CT as [_ CT].
           apply Forall_cons in CT as [CA _].
           unfold isCont in CA. apply andb_true_iff in CA as [CA _].
           apply Z.leb_le in CA. lia.
    + rewrite E2. rewrite (dlr_complete k (c0 :: t) r DC L2). exact SP.
Qed.

(** ** strings.TrimLeftFunc *)

Section Index.
Variables (f : Z -> bool) (truth : bool).

(** The loop of [indexFunc] from any index and with any sufficient fuel,
    in terms of [indexFunc] itself. *)
Lemma indexFunc_from_spec n : forall s, (length s <= n)%nat ->
  (strings.indexFunc s f truth = -1 \/
   0 <= strings.indexFunc s f truth <= len s) /\
  forall fuel i, (length s <= fuel)%nat ->
    strings.indexFunc_from fuel s f truth i =
    if strings.indexFunc s f truth =? -1 then -1
    else i + strings.indexFunc s f truth.
Proof.
  induction n as [|n IH]; intros s L.
  - destruct s; [|cbn [length] in L; lia].
    split; [left; reflexivity|]. intros [|fuel] i _; reflexivity.
  - destruct s as [|c t].
    { split; [left; reflexivity|]. intros [|fuel] i _; reflexivity. }
    assert (c :: t <> []) as NE by discriminate.
    pose proof (decode_size _ NE) as DS.
    unfold strings.indexFunc. cbn [length strings.indexFunc_from].
    destruct (DecodeRuneInString (c :: t)) as [r size] eqn:D.
    cbn [snd] in DS.
    destruct (Bool.eqb (f r) truth) eqn:Q.
    + split; [right; pose proof (len_nonneg (c :: t)); lia|].
      intros [|fuel] i F; [cbn [length] in F; lia|].
      cbn [strings.indexFunc_from]. rewrite D, Q.
      change (0 =? -1) with false. cbv iota. lia.
    + set (s' := slice (c :: t) size (len (c :: t))).
      assert (length s' <= length t)%nat as L''.
      { unfold s'. rewrite slice_suffix, length_drop.
        cbn [length] in *. lia. }
      assert (length s' <= n)%nat as L' by (cbn [length] in L; lia).
      assert (len s' = len (c :: t) - size) as LS'.
      { unfold s'. rewrite slice_suffix. unfold len in *.
        rewrite length_drop. lia. }
      destruct (IH s' L') as [BD SH].
      rewrite (SH (length t) (0 + size) L'').
      split.
      * destruct BD as [BD|BD].
        -- left. rewrite BD. reflexivity.
        -- right. destruct (_ =? -1) eqn:Z1; [apply Z.eqb_eq in Z1; lia|].
           lia.
      * intros [|fuel] i F; [cbn [length] in F; lia|].
        cbn [strings.indexFunc_from]. rewrite D, Q. fold s'.
        rewrite (SH fuel (i + size)) by (cbn [length] in F; lia).
        destruct BD as [BD|BD].
        -- rewrite BD. reflexivity.
        -- destruct (strings.indexFunc s' f truth =? -1) eqn:Z1;
             [apply Z.eqb_eq in Z1; lia|].
           destruct (0 + size + _ =? -1) eqn:Z2;
             [apply Z.eqb_eq in Z2; lia|]. lia.
Qed.

End Index.

Section TrimLeft.
Variable f : Z -> bool.

Lemma TrimLeft_nil : strings.TrimLeftFunc [] f = [].
Proof. reflexivity. Qed.

Lemma TrimLeft_stop s :
  s <> [] -> f (fst (DecodeRuneInString s)) = false ->
  strings.TrimLeftFunc s f = s.
Proof.
  intros N Q. destruct s as [|c t]; [contradiction|].
  unfold strings.TrimLeftFunc, strings.indexFunc.
  cbn [length strings.indexFunc_from].
  destruct (DecodeRuneInString (c :: t)) as [r size]. cbn [fst] in Q.
  rewrite Q. cbn [Bool.eqb]. change (0 =? -1) with false. cbv iota.
  rewrite slice_suffix. reflexivity.
Qed.

Lemma TrimLeft_skip s r size :
  s <> [] -> DecodeRuneInString s = (r, size) -> f r = true ->
  strings.TrimLeftFunc s f = strings.TrimLeftFunc (drop (Z.to_nat size) s) f.
Proof.
  intros N D Q. destruct s as [|c t]; [contradiction|].
  pose proof (decode_size _ N) as DS. rewrite D in DS. cbn [snd] in DS.
  unfold strings.TrimLeftFunc at 1. unfold strings.indexFunc.
  cbn [length strings.indexFunc_from]. rewrite D, Q. cbn [Bool.eqb].
  rewrite slice_suffix.
  set (s' := drop (Z.to_nat size) (c :: t)).
  assert (length s' <= length t)%nat as L'.
  { unfold s'. rewrite length_drop. cbn [length]. lia. }
  destruct (indexFunc_from_spec f false (length s') s' (le_n _)) as [BD SH].
  rewrite (SH (length t) (0 + size) L').
  unfold strings.TrimLeftFunc.
  destruct BD as [BD|BD].
  - rewrite BD. reflexivity.
  - destruct (strings.indexFunc s' f false =? -1) eqn:Z1;
      [apply Z.eqb_eq in Z1; lia|].
    destruct (0 + size + _ =? -1) eqn:Z2; [apply Z.eqb_eq in Z2; lia|].
    rewrite !slice_suffix. unfold s' in *. rewrite drop_drop. f_equal. lia.
Qed.

(** The result of trimming on the left is a suffix that does not start with
    a rune satisfying [f]. *)
Lemma TrimLeft_spec n : forall s, (length s <= n)%nat ->
  (exists w, s = w ++ strings.TrimLeftFunc s f) /\
  (strings.TrimLeftFunc s f = [] \/
   f (fst (DecodeRuneInString (strings.TrimLeftFunc s f))) = false).
Proof.
  induction n as [|n IH]; intros s L.
  - destruct s; [|cbn [length] in L; lia].
    split; [exists []; reflexivity|left; reflexivity].
  - destruct s as [|c t].
    { split; [exists []; reflexivity|left; reflexivity]. }
    assert (c :: t <> []) as NE by discriminate.
    destruct (DecodeRuneInString (c :: t)) as [r size] eqn:D.
    destruct (f r) eqn:Q.
    + rewrite (TrimLeft_skip _ _ _ NE D Q).
      pose proof (decode_size _ NE) as DS. rewrite D in DS. cbn [snd] in DS.
      set (s' := drop (Z.to_nat size) (c :: t)).
      assert (length s' <= n)%nat as L'.
      { unfold s'. rewrite length_drop. cbn [length] in *. lia. }
      destruct (IH s' L') as [[w W] O]. split; [|exact O].
      exists (take (Z.to_nat size) (c :: t) ++ w).
      rewrite <- app_assoc, <- W. unfold s'. symmetry. apply take_drop.
    + rewrite TrimLeft_stop; [|exact NE|rewrite D; exact Q].
      split; [exists []; reflexivity|]. right. rewrite D. exact Q.
Qed.

End TrimLeft.

(** ** strings.TrimRightFunc *)

Lemma dlr_size_nonneg s : 0 <= snd (DecodeLastRuneInString s).
Proof.
  destruct s as [|c t]; [rewrite dlr_nil; cbn [snd]; lia|].
  assert (c :: t <> []) as N by discriminate.
  pose proof (dlr_size _ N). lia.
Qed.

Section LastIndex.
Variables (f : Z -> bool) (truth : bool).

(** The loop of [lastIndexFunc] from index [i] reads [s[0:i]] only. *)
Lemma lastIndexFunc_from_ext fuel : forall s t i,
  take (Z.to_nat i) s = take (Z.to_nat i) t ->
  strings.lastIndexFunc_from fuel s f truth i =
  strings.lastIndexFunc_from fuel t f truth i.
Proof.
  induction fuel as [|fuel IH]; intros s t i E; [reflexivity|].
  cbn [strings.lastIndexFunc_from].
  destruct (0 <? i); [|reflexivity].
  rewrite !slice_prefix, <- E.
  pose proof (dlr_size_nonneg (take (Z.to_nat i) s)) as SZ.
  destruct (DecodeLastRuneInString (take (Z.to_nat i) s)) as [r size].
  cbn [snd] in SZ.
  destruct (Bool.eqb (f r) truth); [reflexivity|].
  apply IH.
  apply (f_equal (take (Z.to_nat (i - size)))) in E.
  rewrite !take_take in E.
  replace (Z.to_nat (i - size) `min` Z.to_nat i)%nat
    with (Z.to_nat (i - size)) in E by lia.
  exact E.
Qed.

(** Any fuel of at least [i] gives the same result, which is -1 or an
    index below [i]. *)
Lemma lastIndexFunc_from_fuel s n : forall i fuel,
  0 <= i <= len s -> (Z.to_nat i <= n)%nat -> (Z.to_nat i <= fuel)%nat ->
  strings.lastIndexFunc_from fuel s f truth i =
  strings.lastIndexFunc_from n s f truth i /\
  (strings.lastIndexFunc_from n s f truth i = -1 \/
   0 <= strings.lastIndexFunc_from n s f truth i < i).
Proof.
  induction n as [|n IH]; intros i fuel I N F.
  - assert (i = 0) as -> by lia.
    split; [|left; reflexivity]. destruct fuel; reflexivity.
  - destruct (Z.eq_dec i 0) as [->|NZ].
    { split; [|left; reflexivity]. destruct fuel; reflexivity. }
    destruct fuel as [|fuel]; [lia|].
    cbn [strings.lastIndexFunc_from].
    destruct (0 <? i) eqn:P; [|apply Z.ltb_ge in P; lia].
    rewrite slice_prefix.
    assert (take (Z.to_nat i) s <> []) as NE.
    { intros E. apply (f_equal length) in E. rewrite length_take in E.
      unfold len in I. cbn [length] in E. lia. }
    pose proof (dlr_size _ NE) as SZ.
    assert (len (take (Z.to_nat i) s) = i) as LT.
    { unfold len in *. rewrite length_take. lia. }
    rewrite LT in SZ.
    destruct (DecodeLastRuneInString (take (Z.to_nat i) s)) as [r size].
    cbn [snd] in SZ.
    destruct (Bool.eqb (f r) truth).
    + split; [reflexivity|]. right. lia.
    + destruct (IH (i - size) fuel ltac:(lia) ltac:(lia) ltac:(lia))
        as [E B].
      split; [exact E|]. destruct B as [B|B]; [left; exact B|right; lia].
Qed.

End LastIndex.

Section TrimRight.
Import unicode.

Lemma TrimRight_unfold s f :
  strings.TrimRightFunc s f = slice s 0 (after s (strings.lastIndexFunc s f false)).
Proof. reflexivity. Qed.

Lemma after_app s u i :
  0 <= i < len s -> boundary u -> after (s ++ u) i = after s i.
Proof.
  intros I B. unfold after.
  rewrite at_app_l by exact I.
  destruct ((0 <=? i) && (RuneSelf <=? at_ s i)); [|reflexivity].
  rewrite !slice_suffix.
  rewrite drop_app_le by (unfold len in I; lia).
  rewrite decode_app_boundary; [reflexivity| |exact B].
  intros E. apply (f_equal length) in E. rewrite length_drop in E.
  unfold len in I. cbn [length] in E. lia.
Qed.

Lemma after_le s i : 0 <= i < len s -> after s i <= len s.
Proof.
  intros I. unfold after.
  destruct ((0 <=? i) && (RuneSelf <=? at_ s i)); [|lia].
  rewrite slice_suffix.
  assert (drop (Z.to_nat i) s <> []) as NE.
  { intros E. apply (f_equal length) in E. rewrite length_drop in E.
    unfold len in I. cbn [length] in E. lia. }
  pose proof (decode_size _ NE) as DS.
  unfold len in *. rewrite length_drop in DS. lia.
Qed.

(** The three shapes of the last rune of a string, with the bytes it is
    decoded from. *)
Lemma dlr_chunk s r size :
  s <> [] -> DecodeLastRuneInString s = (r, size) ->
  exists p c, s = p ++ c /\ size = len c /\ 1 <= size /\
    after s (len p) = len s /\
    (IsSpace r = true -> boundary c).
Proof.
  intros N D. pose proof (len_nonneg s) as LS.
  destruct (dlr_sound _ _ _ N D)
    as [(p & c & -> & C & -> & ->)|[(-> & -> & p & c & -> & C)|
        (p & c & -> & L2 & -> & DC)]].
  - exists p, [c]. split; [reflexivity|]. split; [reflexivity|].
    split; [lia|]. pose proof (len_nonneg p). split.
    + unfold after. replace (len p) with (len p + 0) at 2 by lia.
      rewrite at_app_r, at_head by lia. unfold RuneSelf.
      destruct (128 <=? byteval c) eqn:G; [apply Z.leb_le in G; lia|].
      rewrite andb_false_r, len_app. reflexivity.
    + intros _. cbn [boundary]. unfold isCont.
      destruct (128 <=? byteval c) eqn:G; [apply Z.leb_le in G; lia|].
      reflexivity.
  - exists p, [c]. split; [reflexivity|]. split; [reflexivity|].
    split; [lia|]. pose proof (len_nonneg p). split.
    + unfold after. replace (len p) with (len p + 0) at 2 by lia.
      rewrite at_app_r, at_head by lia. unfold RuneSelf.
      destruct (128 <=? byteval c) eqn:G; [|apply Z.leb_gt in G; lia].
      destruct (0 <=? len p) eqn:G'; [|apply Z.leb_gt in G'; lia].
      cbn [andb]. rewrite slice_app_r, (decode_single c C), len_app.
      reflexivity.
    + rewrite IsSpace_RuneError. discriminate.
  - exists p, c. split; [reflexivity|]. split; [reflexivity|].
    split; [lia|]. pose proof (len_nonneg p). split.
    + destruct (decode_full_bytes c r DC L2) as (c0 & t & -> & B & _ & _).
      unfold after. replace (len p) with (len p + 0) at 2 by lia.
      rewrite at_app_r, at_head by lia. unfold RuneSelf.
      destruct (128 <=? byteval c0) eqn:G; [|apply Z.leb_gt in G; lia].
      destruct (0 <=? len p) eqn:G'; [|apply Z.leb_gt in G'; lia].
      cbn [andb]. rewrite slice_app_r, DC, len_app. reflexivity.
    + intros SP. apply decode_space_boundary.
      * intros E. subst c. unfold len in L2. cbn in L2. lia.
      * rewrite DC. exact SP.
Qed.

Lemma TrimRight_nil f : strings.TrimRightFunc [] f = [].
Proof. reflexivity. Qed.

Lemma lastIndexFunc_unfold s f r size :
  s <> [] -> DecodeLastRuneInString s = (r, size) ->
  strings.lastIndexFunc s f false =
  if Bool.eqb (f r) false then len s - size
  else strings.lastIndexFunc_from (length s - 1) s f false (len s - size).
Proof.
  intros N D. unfold strings.lastIndexFunc.
  destruct s as [|c t]; [contradiction|].
  cbn [length strings.lastIndexFunc_from].
  assert ((0 <? len (c :: t)) = true) as ->.
  { apply Z.ltb_lt. rewrite len_cons. pose proof (len_nonneg t). lia. }
  rewrite slice_prefix. unfold len at 1. rewrite Nat2Z.id, firstn_all, D.
  replace (S (length t) - 1)%nat with (length t) by lia. reflexivity.
Qed.

Lemma TrimRight_stop s :
  s <> [] -> IsSpace (fst (DecodeLastRuneInString s)) = false ->
  strings.TrimRightFunc s IsSpace = s.
Proof.
  intros N Q. destruct (DecodeLastRuneInString s) as [r size] eqn:D.
  cbn [fst] in Q.
  rewrite TrimRight_unfold, (lastIndexFunc_unfold _ _ _ _ N D), Q.
  cbn [Bool.eqb].
  destruct (dlr_chunk _ _ _ N D) as (p & c & E & -> & _ & A & _).
  replace (len s - len c) with (len p) by (rewrite E, len_app; lia).
  rewrite A, slice_prefix. unfold len. rewrite Nat2Z.id. apply firstn_all.
Qed.

Lemma TrimRight_skip s r size :
  s <> [] -> DecodeLastRuneInString s = (r, size) -> IsSpace r = true ->
  strings.TrimRightFunc s IsSpace =
  strings.TrimRightFunc (take (Z.to_nat (len s - size)) s) IsSpace.
Proof.
  intros N D Q.
  rewrite !TrimRight_unfold, (lastIndexFunc_unfold _ _ _ _ N D), Q.
  cbn [Bool.eqb].
  destruct (dlr_chunk _ _ _ N D) as (p & c & -> & -> & C1 & _ & B).
  specialize (B Q).
  replace (len (p ++ c) - len c) with (len p) by (rewrite len_app; lia).
  rewrite take_len_app.
  rewrite (lastIndexFunc_from_ext IsSpace false _ (p ++ c) p (len p))
    by (rewrite take_len_app; unfold len; rewrite Nat2Z.id, firstn_all;
        reflexivity).
  pose proof (len_nonneg p) as LP.
  destruct (lastIndexFunc_from_fuel IsSpace false p (length p) (len p)
              (length (p ++ c) - 1))
    as [E BD]; [lia|unfold len; lia|
                rewrite length_app; unfold len in *; lia|].
  rewrite E. fold (strings.lastIndexFunc p IsSpace false).
  fold (strings.lastIndexFunc p IsSpace false) in BD.
  destruct BD as [BD|BD].
  - rewrite BD. reflexivity.
  - rewrite after_app by first [exact BD | exact B].
    rewrite !slice_prefix. apply take_app_le.
    pose proof (after_le p _ BD). unfold len in *. lia.
Qed.

(** The result of trimming white space on the right is a prefix that does
    not end with a white-space rune. *)
Lemma TrimRight_spec n : forall s, (length s <= n)%nat ->
  (exists w, s = strings.TrimRightFunc s IsSpace ++ w) /\
  (strings.TrimRightFunc s IsSpace = [] \/
   IsSpace (fst (DecodeLastRuneInString (strings.TrimRightFunc s IsSpace)))
   = false).
Proof.
  induction n as [|n IH]; intros s L.
  - destruct s; [|cbn [length] in L; lia].
    split; [exists []; reflexivity|left; reflexivity].
  - destruct (decide (s = [])) as [->|NE].
    { split; [exists []; reflexivity|left; reflexivity]. }
    destruct (DecodeLastRuneInString s) as [r size] eqn:D.
    destruct (IsSpace r) eqn:Q.
    + rewrite (TrimRight_skip _ _ _ NE D Q).
      pose proof (dlr_size _ NE) as DS. rewrite D in DS. cbn [snd] in DS.
      set (s' := take (Z.to_nat (len s - size)) s).
      assert (length s' <= n)%nat as L'.
      { unfold s'. rewrite length_take. unfold len in *. lia. }
      destruct (IH s' L') as [[w W] O]. split; [|exact O].
      exists (w ++ drop (Z.to_nat (len s - size)) s).
      rewrite app_assoc, <- W. unfold s'. symmetry. apply take_drop.
    + rewrite TrimRight_stop; [|exact NE|rewrite D; exact Q].
      split; [exists []; symmetry; apply app_nil_r|].
      right. rewrite D. exact Q.
Qed.

End TrimRight.

(** ** strings.TrimSpace *)

Section TrimSpace.
Import unicode.

Lemma TrimSpace_unfold s :
  strings.TrimSpace s =
  strings.TrimRightFunc (strings.TrimLeftFunc s IsSpace) IsSpace.
Proof. reflexivity. Qed.

Lemma TrimLeft_suffix s : exists w, s = w ++ strings.TrimLeftFunc s IsSpace.
Proof. apply (TrimLeft_spec IsSpace (length s) s (le_n _)). Qed.

Lemma TrimLeft_out s :
  strings.TrimLeftFunc s IsSpace = [] \/
  IsSpace (fst (DecodeRuneInString (strings.TrimLeftFunc s IsSpace))) = false.
Proof. apply (TrimLeft_spec IsSpace (length s) s (le_n _)). Qed.

Lemma TrimRight_prefix s : exists w, s = strings.TrimRightFunc s IsSpace ++ w.
Proof. apply (TrimRight_spec (length s) s (le_n _)). Qed.

Lemma TrimRight_out s :
  strings.TrimRightFunc s IsSpace = [] \/
  IsSpace (fst (DecodeLastRuneInString (strings.TrimRightFunc s IsSpace)))
  = false.
Proof. apply (TrimRight_spec (length s) s (le_n _)). Qed.

Lemma trimmed_TrimSpace s : trimmed s -> strings.TrimSpace s = s.
Proof.
  intros [->|[A B]]; [reflexivity|].
  destruct (decide (s = [])) as [->|N]; [reflexivity|].
  rewrite TrimSpace_unfold, (TrimLeft_stop _ _ N A).
  apply (TrimRight_stop _ N B).
Qed.

(** [TrimSpace] returns a trimmed string, and leaves a trimmed string as it
    is. *)
Lemma TrimSpace_trimmed s : trimmed (strings.TrimSpace s).
Proof.
  rewrite TrimSpace_unfold.
  set (y := strings.TrimLeftFunc s IsSpace).
  destruct (TrimRight_out y) as [E|E]; [left; exact E|].
  destruct (decide (strings.TrimRightFunc y IsSpace = [])) as [Z|N];
    [left; exact Z|].
  right. split; [|exact E].
  destruct (TrimRight_prefix y) as [w W].
  destruct (TrimLeft_out s) as [Y|Y]; fold y in Y.
  - rewrite Y in N. contradiction.
  - rewrite W in Y.
    destruct (decode_app_prefix _ w N) as [P|P].
    + rewrite <- P. exact Y.
    + rewrite P. reflexivity.
Qed.

Lemma TrimSpace_fixed s : strings.TrimSpace s = s <-> trimmed s.
Proof.
  split; [|apply trimmed_TrimSpace].
  intros E. rewrite <- E. apply TrimSpace_trimmed.
Qed.

Lemma TrimSpace_idempotent s :
  strings.TrimSpace (strings.TrimSpace s) = strings.TrimSpace s.
Proof. apply trimmed_TrimSpace, TrimSpace_trimmed. Qed.

(** The record [SaveTo] writes, read back: trimming removes the final
    newline and nothing else. *)
Lemma TrimSpace_record c s :
  trimmed c -> trimmed s ->
  strings.TrimSpace (c ++ ":"%char :: s ++ [nl]) = c ++ ":"%char :: s.
Proof.
  intros C S. rewrite TrimSpace_unfold.
  set (x := c ++ ":"%char :: s ++ [nl]).
  assert (x <> []) as NX by (unfold x; destruct c; discriminate).
  assert (strings.TrimLeftFunc x IsSpace = x) as ->.
  { apply TrimLeft_stop; [exact NX|].
    destruct C as [->|[C _]]; [reflexivity|].
    destruct (decide (c = [])) as [->|N]; [reflexivity|].
    unfold x. rewrite decode_app_boundary; [exact C|exact N|reflexivity]. }
  assert (DecodeLastRuneInString x = (10, 1)) as DX.
  { unfold x.
    replace (c ++ ":"%char :: s ++ [nl]) with ((c ++ ":"%char :: s) ++ [nl])
      by (rewrite <- app_assoc; reflexivity).
    apply (dlr_ascii _ nl). reflexivity. }
  rewrite (TrimRight_skip x 10 1 NX DX eq_refl).
  assert (take (Z.to_nat (len x - 1)) x = c ++ ":"%char :: s) as ->.
  { unfold x.
    replace (c ++ ":"%char :: s ++ [nl]) with ((c ++ ":"%char :: s) ++ [nl])
      by (rewrite <- app_assoc; reflexivity).
    rewrite len_app. change (len [nl]) with 1.
    replace (len (c ++ ":"%char :: s) + 1 - 1) with (len (c ++ ":"%char :: s))
      by lia.
    apply take_len_app. }
  apply TrimRight_stop; [destruct c; discriminate|].
  destruct S as [->|[_ S]].
  - rewrite (dlr_ascii c ":"%char); reflexivity.
  - destruct (decide (s = [])) as [->|N].
    + rewrite (dlr_ascii c ":"%char); reflexivity.
    + destruct (IsSpace (fst (DecodeLastRuneInString (c ++ ":"%char :: s))))
        eqn:Q; [|reflexivity].
      apply dlr_app_ascii in Q; [|reflexivity|exact N].
      rewrite S in Q. discriminate.
Qed.

End TrimSpace.

(** ** strings.SplitN at a colon *)

Lemma HasPrefix_nil s : strings.HasPrefix s [] = true.
Proof. destruct s; reflexivity. Qed.

Lemma Index_no_colon s : colon ∉ s -> strings.Index s [colon] = -1.
Proof.
  induction s as [|c s IH]; intros N; [reflexivity|].
  cbn [strings.Index strings.HasPrefix].
  apply not_elem_of_cons in N as [N1 N2].
  destruct (Ascii.eqb c colon) eqn:E; [apply Ascii.eqb_eq in E; congruence|].
  cbn [andb]. rewrite (IH N2). reflexivity.
Qed.

Lemma Index_first_colon c s :
  colon ∉ c -> strings.Index (c ++ colon :: s) [colon] = len c.
Proof.
  induction c as [|a c IH]; intros N.
  - cbn [app strings.Index strings.HasPrefix].
    rewrite Ascii.eqb_refl, HasPrefix_nil. reflexivity.
  - cbn [app strings.Index strings.HasPrefix].
    apply not_elem_of_cons in N as [N1 N2].
    destruct (Ascii.eqb a colon) eqn:E; [apply Ascii.eqb_eq in E; congruence|].
    cbn [andb]. rewrite (IH N2). pose proof (len_nonneg c).
    destruct (len c <? 0) eqn:F; [apply Z.ltb_lt in F; lia|].
    rewrite len_cons. reflexivity.
Qed.

Lemma SplitN_no_colon s :
  colon ∉ s -> strings.SplitN s [colon] 2 = [s].
Proof.
  intros N. unfold strings.SplitN, strings.genSplit.
  change (2 =? 0) with false. change (len [colon] =? 0) with false.
  change (2 <? 0) with false. cbv iota.
  destruct (len s + 1 <? 2) eqn:F.
  - apply Z.ltb_lt in F. pose proof (len_nonneg s).
    replace (len s + 1 - 1) with (len s) by lia.
    assert (len s = 0) as Z0 by lia. rewrite Z0. reflexivity.
  - change (Z.to_nat (2 - 1)) with 1%nat. cbn [strings.genSplit_loop].
    rewrite (Index_no_colon s N). reflexivity.
Qed.

Lemma SplitN_first_colon c s :
  colon ∉ c -> strings.SplitN (c ++ colon :: s) [colon] 2 = [c; s].
Proof.
  intros N. unfold strings.SplitN, strings.genSplit.
  change (2 =? 0) with false. change (len [colon] =? 0) with false.
  change (2 <? 0) with false. cbv iota.
  pose proof (len_nonneg c) as LC. pose proof (len_nonneg s) as LS.
  assert (len (c ++ colon :: s) = len c + 1 + len s) as LX.
  { rewrite len_app, len_cons. lia. }
  destruct (len (c ++ colon :: s) + 1 <? 2) eqn:F;
    [apply Z.ltb_lt in F; lia|].
  change (Z.to_nat (2 - 1)) with 1%nat. cbn [strings.genSplit_loop].
  rewrite (Index_first_colon c s N).
  destruct (len c <? 0) eqn:G; [apply Z.ltb_lt in G; lia|].
  f_equal.
  - replace (len c + 0) with (len c) by lia.
    rewrite slice_prefix. apply take_len_app.
  - f_equal. rewrite slice_suffix. change (len [colon]) with 1.
    replace (Z.to_nat (len c + 1)) with (length (c ++ [colon])).
    2:{ rewrite length_app. unfold len. cbn [length]. lia. }
    replace (c ++ colon :: s) with ((c ++ [colon]) ++ s)
      by (rewrite <- app_assoc; reflexivity).
    apply drop_app_length.
Qed.

(** A string with a colon splits at its first colon. *)
Lemma first_colon s :
  colon ∈ s -> exists c t, s = c ++ colon :: t /\ colon ∉ c.
Proof.
  induction s as [|a s IH]; intros I; [inversion I|].
  destruct (decide (a = colon)) as [->|NE].
  - exists [], s. split; [reflexivity|]. apply not_elem_of_nil.
  - apply elem_of_cons in I as [I|I]; [congruence|].
    destruct (IH I) as (c & t & -> & N).
    exists (a :: c), t. split; [reflexivity|].
    apply not_elem_of_cons. split; [congruence|exact N].
Qed.

End Strings.

(* ===================================================================== *)
(** * Package state: the lc.state record                                  *)
(* ===================================================================== *)

Section StateFile.
Import state.

Lemma Sprintf_record c s :
  fmt.Sprintf (go "%s:%s" ++ [nl]) [c; s] = c ++ colon :: s ++ [nl].
Proof. reflexivity. Qed.

Lemma Load_missing fs :
  os.files fs !! statePath = None -> exists e, Load fs = inr e.
Proof.
  intros E. unfold Load, os.Stat. rewrite E. cbn [os.IsNotExist os.Err].
  eexists. reflexivity.
Qed.

Lemma Load_unreadable fs pe :
  os.ReadFile fs statePath = inr pe -> exists e, Load fs = inr e.
Proof.
  intros E. unfold Load. destruct (os.IsNotExist _); [eexists; reflexivity|].
  rewrite E. eexists. reflexivity.
Qed.

Lemma ReadFile_exists fs bytes :
  os.ReadFile fs statePath = inl bytes ->
  os.IsNotExist (os.Stat fs statePath) = false.
Proof.
  unfold os.ReadFile, os.Stat.
  destruct (os.files fs !! statePath); [reflexivity|discriminate].
Qed.

Lemma Load_no_colon fs bytes :
  os.ReadFile fs statePath = inl bytes ->
  colon ∉ strings.TrimSpace bytes ->
  exists e, Load fs = inr e.
Proof.
  intros E N. unfold Load. rewrite (ReadFile_exists _ _ E), E.
  change (go ":") with [colon]. rewrite (SplitN_no_colon _ N).
  eexists. reflexivity.
Qed.

Lemma Load_first_colon fs bytes c s :
  os.ReadFile fs statePath = inl bytes ->
  strings.TrimSpace bytes = c ++ colon :: s -> colon ∉ c ->
  Load fs = inl {| Challenge := strings.TrimSpace c;
                   Stage := strings.TrimSpace s |}.
Proof.
  intros E T N. unfold Load. rewrite (ReadFile_exists _ _ E), E, T.
  change (go ":") with [colon]. rewrite (SplitN_first_colon _ _ N).
  reflexivity.
Qed.

(** C8.  Let the [Challenge] field of a [State] contain no colon and let both
    fields be equal to their [TrimSpace].  If [SaveTo] writes the state to
    the path [Load] reads, lc.state, without an error, and a file already
    there was readable, then [Load] returns that state. *)
Theorem C8_save_then_load_round_trips :
  forall (fs fs' : os.FS) (st : State) (path : gostring),
    colon ∉ Challenge st ->
    strings.TrimSpace (Challenge st) = Challenge st ->
    strings.TrimSpace (Stage st) = Stage st ->
    path = statePath ->
    (forall f, os.files fs !! path = Some f -> os.readable f = true) ->
    SaveTo st path fs = (fs', None) ->
    Load fs' = inl st.
Proof.
  intros fs fs' [c s] path N TC TS -> R S. cbn [Challenge Stage] in *.
  apply TrimSpace_fixed in TC as TC'. apply TrimSpace_fixed in TS as TS'.
  assert (os.ReadFile fs' statePath = inl (c ++ colon :: s ++ [nl])) as RD.
  { revert S. unfold SaveTo. cbn [Challenge Stage].
    rewrite Sprintf_record. unfold os.WriteFile, os.ReadFile.
    destruct (os.files fs !! statePath) as [f|] eqn:F.
    - specialize (R f eq_refl).
      destruct (os.writable f); intros S; inversion S; subst fs'.
      cbn [os.files]. rewrite lookup_insert_eq. cbn [os.readable os.data].
      rewrite R. reflexivity.
    - destruct (decide (statePath ∈ os.nocreate fs));
        intros S; inversion S; subst fs'.
      cbn [os.files]. rewrite lookup_insert_eq. reflexivity. }
  rewrite (Load_first_colon fs' _ c s RD (TrimSpace_record c s TC' TS') N).
  rewrite TC, TS. reflexivity.
Qed.

(** C9.  [Load] returns an error exactly when lc.state does not exist, cannot
    be read, or its trimmed content contains no colon.  Otherwise the trimmed
    content is cut at its first colon: the part before it (which has no
    colon) gives [Challenge], all of the rest (colons included) gives
    [Stage], each passed through [TrimSpace]; and both fields of a state
    [Load] returns are equal to their own [TrimSpace]. *)
Theorem C9_load_errors_and_first_colon :
  forall fs : os.FS,
    ((exists e, Load fs = inr e) <->
     (os.files fs !! statePath = None \/
      (exists pe, os.ReadFile fs statePath = inr pe) \/
      (exists bytes, os.ReadFile fs statePath = inl bytes /\
                     colon ∉ strings.TrimSpace bytes))) /\
    (forall bytes c s,
        os.ReadFile fs statePath = inl bytes ->
        strings.TrimSpace bytes = c ++ colon :: s -> colon ∉ c ->
        Load fs = inl {| Challenge := strings.TrimSpace c;
                         Stage := strings.TrimSpace s |}) /\
    (forall st,
        Load fs = inl st ->
        strings.TrimSpace (Challenge st) = Challenge st /\
        strings.TrimSpace (Stage st) = Stage st).
Proof.
  intros fs.
  assert (forall bytes, os.ReadFile fs statePath = inl bytes ->
            colon ∈ strings.TrimSpace bytes ->
            exists c s, (colon ∉ c) /\
              Load fs = inl {| Challenge := strings.TrimSpace c;
                               Stage := strings.TrimSpace s |}) as OK.
  { intros bytes E I. destruct (first_colon _ I) as (c & s & T & N).
    exists c, s. split; [exact N|].
    apply (Load_first_colon fs bytes c s E T N). }
  split; [split|split].
  - intros [e L].
    destruct (os.ReadFile fs statePath) as [bytes|pe] eqn:E.
    + destruct (decide (colon ∈ strings.TrimSpace bytes)) as [I|N].
      * destruct (OK bytes eq_refl I) as (c & s & _ & L').
        rewrite L' in L. discriminate.
      * right; right. exists bytes. auto.
    + right; left. exists pe. reflexivity.
  - intros [M|[[pe E]|(bytes & E & N)]].
    + apply Load_missing, M.
    + apply (Load_unreadable fs pe E).
    + apply (Load_no_colon fs bytes E N).
  - apply Load_first_colon.
  - intros st L.
    destruct (os.ReadFile fs statePath) as [bytes|pe] eqn:E.
    + destruct (decide (colon ∈ strings.TrimSpace bytes)) as [I|N].
      * destruct (OK bytes eq_refl I) as (c & s & _ & L').
        rewrite L' in L. inversion L; subst st. cbn [Challenge Stage].
        split; apply TrimSpace_idempotent.
      * destruct (Load_no_colon fs bytes E N) as [e L'].
        rewrite L' in L. discriminate.
    + destruct (Load_unreadable fs pe E) as [e L'].
      rewrite L' in L. discriminate.
Qed.

End StateFile.

(* ===================================================================== *)
(** * The theorems at the sample inputs                                   *)
(* ===================================================================== *)

Section Witnesses.
Import attest.

(** C5 on the second HTTP plan of the sample heap: the timeout becomes 2s,
    the headers and the other plan stay. *)
Lemma C5_witness :
  exists h',
    HTTPPlan.Within (2 * Second) (addr 2) Sample.heap = Return (addr 2) h' /\
    httpPlans h' !! 2%positive =
      Some {| http_base :=
                {| pb_timing := TimingEventually; pb_timeout := 2 * Second;
                   pb_ctx := ctxRef 1; pb_config := addr 1 |};
              method := "GET"; url := "http://127.0.0.1:8080/ready";
              headers := {[ "Accept" := "text/plain" ]}; body := [] |} /\
    httpPlans h' !! 1%positive = Some Sample.get_health.
Proof.
  destruct (proj1 C5_within_overrides_only_the_duration
              Sample.heap 2%positive Sample.get_ready (2 * Second)
              eq_refl eq_refl) as (h' & E & P & _).
  exists h'. split; [exact E|]. rewrite P. split.
  - apply lookup_insert_eq.
  - reflexivity.
Defined.

(** C8 for the state kv-store:http-api saved into an empty directory. *)
Lemma C8_witness :
  state.Load (fst (state.SaveTo Sample.st state.statePath Sample.emptyDir))
  = inl Sample.st.
Proof.
  apply (C8_save_then_load_round_trips Sample.emptyDir _ Sample.st
           state.statePath).
  - intros I. vm_compute in I.
    repeat (apply elem_of_cons in I as [I|I]; [discriminate I|]).
    inversion I.
  - vm_compute. reflexivity.
  - vm_compute. reflexivity.
  - reflexivity.
  - intros f F. vm_compute in F. discriminate F.
  - vm_compute. reflexivity.
Defined.

(** C9 on a record with blanks and a second colon, and on a directory
    without the file. *)
Lemma C9_witness :
  state.Load Sample.blanks =
    inl {| state.Challenge := go "kv-store"; state.Stage := go "http-api:v2" |} /\
  exists e, state.Load Sample.emptyDir = inr e.
Proof.
  destruct (C9_load_errors_and_first_colon Sample.blanks) as (_ & S & _).
  destruct (C9_load_errors_and_first_colon Sample.emptyDir) as ((_ & E) & _).
  split.
  - rewrite (S (go "  kv-store : http-api:v2 " ++ [nl])
               (go "kv-store ") (go " http-api:v2")).
    + vm_compute. reflexivity.
    + vm_compute. reflexivity.
    + vm_compute. reflexivity.
    + intros I. vm_compute in I.
      repeat (apply elem_of_cons in I as [I|I]; [discriminate I|]).
      inversion I.
  - apply E. left. vm_compute. reflexivity.
Defined.

End Witnesses.

(* ===================================================================== *)
(** * Further properties                                                  *)
(* ===================================================================== *)

Section Further.
Import attest.

(** X1.  The mirror image of [Within]: on a plan in the
    [TimingConsistently] state, [For(d)] returns the receiver and changes
    the timeout to [d] and nothing else.  Both plan kinds. *)
Theorem X1_for_overrides_only_the_duration :
  (forall h l pl d,
      httpPlans h !! l = Some pl ->
      pb_timing (http_base pl) = TimingConsistently ->
      exists h', HTTPPlan.For d (addr l) h = Return (addr l) h' /\
        httpPlans h' =
          <[l := {| http_base :=
                      {| pb_timing := TimingConsistently; pb_timeout := d;
                         pb_ctx := pb_ctx (http_base pl);
                         pb_config := pb_config (http_base pl) |};
                    method := method pl; url := url pl;
                    headers := headers pl; body := body pl |}]> (httpPlans h) /\
        configs h' = configs h /\ cliPlans h' = cliPlans h /\
        httpAsserts h' = httpAsserts h /\ cliAsserts h' = cliAsserts h) /\
  (forall h l pl d,
      cliPlans h !! l = Some pl ->
      pb_timing (cli_base pl) = TimingConsistently ->
      exists h', CLIPlan.For d (addr l) h = Return (addr l) h' /\
        cliPlans h' =
          <[l := {| cli_base :=
                      {| pb_timing := TimingConsistently; pb_timeout := d;
                         pb_ctx := pb_ctx (cli_base pl);
                         pb_config := pb_config (cli_base pl) |};
                    command := command pl; args := args pl |}]> (cliPlans h) /\
        configs h' = configs h /\ httpPlans h' = httpPlans h /\
        httpAsserts h' = httpAsserts h /\ cliAsserts h' = cliAsserts h).
Proof.
  split; intros h l pl d E M; eexists; split.
  - eapply http_through_done; [exact E|]. apply setFor_done, M.
  - simpl. repeat split; reflexivity.
  - eapply cli_through_done; [exact E|]. apply setFor_done, M.
  - simpl. repeat split; reflexivity.
Qed.

(** X1 on the second CLI plan of the sample heap. *)
Lemma X1_witness :
  exists h',
    CLIPlan.For (3 * Second) (addr 2) Sample.heap = Return (addr 2) h' /\
    cliPlans h' !! 2%positive =
      Some {| cli_base :=
                {| pb_timing := TimingConsistently; pb_timeout := 3 * Second;
                   pb_ctx := ctxRef 1; pb_config := addr 1 |};
              command := "kv"; args := ["status"%string] |}.
Proof.
  destruct (proj2 X1_for_overrides_only_the_duration
              Sample.heap 2%positive Sample.kv_status (3 * Second)
              eq_refl eq_refl) as (h' & E & P & _).
  exists h'. split; [exact E|]. rewrite P. apply lookup_insert_eq.
Defined.

Lemma Errorf_read x :
  fmt.Sprintf (go "Failed to read state file: %w") [x] =
  go "Failed to read state file: " ++ x.
Proof. cbn. rewrite app_nil_r. reflexivity. Qed.


Lemma Errorf_format x :
  fmt.Sprintf
    (go "Invalid state format. Expected '<challenge>:<stage>', got: %s") [x] =
  go "Invalid state format. Expected '<challenge>:<stage>', got: " ++ x.
Proof. cbn. rewrite app_nil_r. reflexivity. Qed.

(** X2.  The text of the three errors of [Load]: a missing lc.state gives
    the "Not in a challenge directory" hint; a failed read gives "Failed to
    read state file: " followed by the text of the cause; a content without a
    colon gives "Invalid state format. ..., got: " followed by the trimmed
    content. *)
Theorem X2_load_error_texts :
  forall fs : os.FS,
    (os.files fs !! state.statePath = None ->
     state.Load fs =
       inr (go "Not in a challenge directory" ++ nl ::
            go "Run this command from a directory created with 'lc init <challenge>'")) /\
    (forall f pe,
        os.files fs !! state.statePath = Some f ->
        os.ReadFile fs state.statePath = inr pe ->
        state.Load fs = inr (go "Failed to read state file: " ++ os.Error pe)) /\
    (forall bytes,
        os.ReadFile fs state.statePath = inl bytes ->
        colon ∉ strings.TrimSpace bytes ->
        state.Load fs =
          inr (go "Invalid state format. Expected '<challenge>:<stage>', got: "
               ++ strings.TrimSpace bytes)).
Proof.
  intros fs. split; [|split].
  - intros E. unfold state.Load, os.Stat. rewrite E. reflexivity.
  - intros f pe E R. unfold state.Load, os.Stat. rewrite E, R.
    cbn [os.IsNotExist]. rewrite Errorf_read. reflexivity.
  - intros bytes R N. unfold state.Load.
    rewrite (ReadFile_exists _ _ R), R.
    change (go ":") with [colon]. rewrite (SplitN_no_colon _ N).
    rewrite Errorf_format. reflexivity.
Qed.

(** X2 on a file whose content has no colon. *)
Lemma X2_witness :
  state.Load
    {| os.files :=
         {[ state.statePath :=
              {| os.readable := true; os.writable := true;
                 os.data := go " kv-store " |} ]};
       os.nocreate := ∅ |} =
  inr (go "Invalid state format. Expected '<challenge>:<stage>', got: kv-store").
Proof.
  match goal with |- state.Load ?fs = _ =>
    destruct (X2_load_error_texts fs) as (_ & _ & X) end.
  rewrite (X (go " kv-store ")).
  - vm_compute. reflexivity.
  - vm_compute. reflexivity.
  - intros I. vm_compute in I.
    repeat (apply elem_of_cons in I as [I|I]; [discriminate I|]).
    inversion I.
Defined.


End Further.

(* ===================================================================== *)
(** * More on TrimSpace: what it removes, and how it commutes             *)
(* ===================================================================== *)

Section MoreStrings.
Import utf8 unicode.

Ltac tests :=
  repeat match goal with
  | |- context [if ?c then _ else _] =>
      let E := fresh "E" in destruct c eqn:E
  end.

Ltac arith :=
  unfold isCont, len, locb, hicb in *; cbn [length] in *;
  repeat match goal with
  | H : (_ || _) = true |- _ => apply orb_true_iff in H; destruct H as [H|H]
  | H : (_ || _) = false |- _ => apply orb_false_iff in H; destruct H as [? ?]
  | H : (_ && _) = true |- _ => apply andb_true_iff in H; destruct H as [? ?]
  | H : (_ && _) = false |- _ => apply andb_false_iff in H; destruct H as [H|H]
  end;
  repeat match goal with
  | H : (_ <? _) = true |- _ => apply Z.ltb_lt in H
  | H : (_ <? _) = false |- _ => apply Z.ltb_ge in H
  | H : (_ <=? _) = true |- _ => apply Z.leb_le in H
  | H : (_ <=? _) = false |- _ => apply Z.leb_gt in H
  | H : (_ =? _) = true |- _ => apply Z.eqb_eq in H
  | H : (_ =? _) = false |- _ => apply Z.eqb_neq in H
  end;
  lia.

(** The bytes the decoder consumes are decoded alike on their own. *)
Lemma decode_take s r size :
  s <> [] -> DecodeRuneInString s = (r, size) ->
  DecodeRuneInString (take (Z.to_nat size) s) = (r, size).
Proof.
  intros N. destruct s as [|c0 t]; [contradiction|].
  destruct (decode_cases c0) as [[_ E]|[[_ E]|[_ (sz & lo & hi & S & L & Hh & E)]]].
  - rewrite E. intros D. inversion D; subst. cbn [take Z.to_nat Pos.to_nat Pos.iter_op Nat.add].
    apply E.
  - rewrite E. intros D. inversion D; subst. apply E.
  - rewrite E. unfold decodeSeq.
    destruct t as [|c1 [|c2 [|c3 t]]]; tests; intros D; inversion D; subst;
      change (Z.to_nat 1) with 1%nat; change (Z.to_nat 2) with 2%nat;
      change (Z.to_nat 3) with 3%nat; change (Z.to_nat 4) with 4%nat;
      cbn [take]; rewrite E; unfold decodeSeq; tests;
      try reflexivity; exfalso; arith.
Qed.

(** A valid sequence at the end of a string whose bytes before it end with
    an ASCII byte lies after that byte. *)
Lemma suffix_after_ascii p a s q c0 t :
  byteval a < 0x80 ->
  p ++ a :: s = q ++ c0 :: t ->
  0x80 <= byteval c0 ->
  Forall (fun x => isCont (byteval x) = true) t ->
  exists k, s = k ++ c0 :: t.
Proof.
  intros A E B CT.
  replace (p ++ a :: s) with ((p ++ [a]) ++ s) in E
    by (rewrite <- app_assoc; reflexivity).
  apply app_eq_inv in E as [(k & E1 & E2)|(k & E1 & E2)].
  - destruct k as [|k0 k] using rev_ind.
    + exists []. cbn [app] in *. symmetry. exact E2.
    + exfalso. rewrite app_assoc in E1.
      apply app_inj_tail in E1 as [_ <-].
      destruct k as [|k1 k]; cbn [app] in E2; inversion E2; subst.
      * lia.
      * apply Forall_app in CT as [CT _]. apply Forall_app in CT as [_ CT].
        apply Forall_cons in CT as [CA _].
        unfold isCont in CA. apply andb_true_iff in CA as [CA _].
        apply Z.leb_le in CA. lia.
  - exists k. exact E2.
Qed.

(** After an ASCII byte the backward decoder sees what it sees without the
    bytes up to that byte. *)
Lemma dlr_app_ascii_eq p a s :
  byteval a < 0x80 -> s <> [] ->
  DecodeLastRuneInString (p ++ a :: s) = DecodeLastRuneInString s.
Proof.
  intros A N.
  destruct (DecodeLastRuneInString s) as [r size] eqn:D.
  destruct (dlr_sound _ _ _ N D)
    as [(q & c & -> & C & -> & ->)|[(-> & -> & q & c & -> & C)|
        (q & c & -> & L2 & -> & DC)]].
  - replace (p ++ a :: q ++ [c]) with ((p ++ a :: q) ++ [c])
      by (rewrite <- app_assoc; reflexivity).
    apply dlr_ascii, C.
  - destruct (DecodeLastRuneInString (p ++ a :: q ++ [c])) as [r' size'] eqn:D'.
    assert (p ++ a :: q ++ [c] <> []) as N' by (destruct p; discriminate).
    destruct (dlr_sound _ _ _ N' D')
      as [(q' & c' & E & C' & _ & _)|[(-> & -> & _)|
          (q' & ch & E & L2 & -> & DC)]].
    + exfalso.
      replace (p ++ a :: q ++ [c]) with ((p ++ a :: q) ++ [c]) in E
        by (rewrite <- app_assoc; reflexivity).
      apply app_inj_tail in E as [_ <-]. lia.
    + reflexivity.
    + exfalso.
      destruct (decode_full_bytes ch r' DC L2) as (c0 & t & -> & B & _ & CT).
      destruct (suffix_after_ascii p a (q ++ [c]) q' c0 t A E ltac:(lia) CT)
        as [k K].
      rewrite K in D. rewrite (dlr_complete k (c0 :: t) r' DC L2) in D.
      apply (f_equal snd) in D. cbn [snd] in D. lia.
  - replace (p ++ a :: q ++ c) with ((p ++ a :: q) ++ c)
      by (rewrite <- app_assoc; reflexivity).
    apply dlr_complete; assumption.
Qed.

(** ** Strings of white-space runes *)

Lemma spaceRune_shape ch :
  spaceRune ch ->
  (exists c, ch = [c] /\ byteval c < 0x80 /\ IsSpace (byteval c) = true) \/
  (2 <= len ch /\ exists r, DecodeRuneInString ch = (r, len ch) /\
                            IsSpace r = true).
Proof.
  intros (N & r & D & S).
  destruct (Z.lt_ge_cases (len ch) 2) as [L|L]; [left|right; eauto].
  destruct ch as [|c [|c' t]]; [contradiction| |rewrite !len_cons in L;
    pose proof (len_nonneg t); lia].
  exists c. split; [reflexivity|].
  destruct (Z.lt_ge_cases (byteval c) 0x80) as [A|A].
  - split; [exact A|].
    destruct (decode_cases c) as [[_ E]|[[B _]|[B _]]]; try lia.
    rewrite E in D. inversion D; subst. exact S.
  - rewrite (decode_single c A) in D. inversion D; subst.
    rewrite IsSpace_RuneError in S. discriminate.
Qed.

(** The backward decoder finds a white-space rune at the end of a string. *)
Lemma dlr_spaceRune p ch :
  spaceRune ch ->
  exists r, DecodeLastRuneInString (p ++ ch) = (r, len ch) /\
            IsSpace r = true.
Proof.
  intros S. destruct (spaceRune_shape ch S) as [(c & -> & A & Sp)|(L & r & D & Sp)].
  - exists (byteval c). rewrite (dlr_ascii p c A). auto.
  - exists r. rewrite (dlr_complete p ch r D L). auto.
Qed.

Lemma spaceRune_boundary ch u : spaceRune ch -> boundary (ch ++ u).
Proof.
  intros (N & r & D & S).
  assert (boundary ch) as B.
  { apply decode_space_boundary; [exact N|]. rewrite D. exact S. }
  destruct ch; [contradiction|exact B].
Qed.

(** The forward decoder reads a white-space rune whatever follows it. *)
Lemma decode_spaceRune ch u :
  spaceRune ch ->
  exists r, DecodeRuneInString (ch ++ u) = (r, len ch) /\ IsSpace r = true.
Proof.
  intros (N & r & D & S). exists r. split; [|exact S].
  destruct (decode_app_prefix ch u N) as [E|E].
  - rewrite E. exact D.
  - rewrite E in D. inversion D; subst.
    rewrite IsSpace_RuneError in S. discriminate.
Qed.

Lemma blank_app w1 w2 : blank w1 -> blank w2 -> blank (w1 ++ w2).
Proof.
  induction 1 as [|ch w S B IH]; intros B2; [exact B2|].
  rewrite <- app_assoc. constructor; auto.
Qed.

Lemma blank_snoc w ch : blank w -> spaceRune ch -> blank (w ++ ch).
Proof.
  intros B S. apply blank_app; [exact B|].
  rewrite <- (app_nil_r ch). constructor; [exact S|constructor].
Qed.

(** A non-empty blank string ends with a white-space rune. *)
Lemma blank_last w :
  blank w -> w = [] \/ exists w' ch, w = w' ++ ch /\ blank w' /\ spaceRune ch.
Proof.
  induction 1 as [|ch w S B IH]; [left; reflexivity|right].
  destruct IH as [->|(w' & ch' & -> & B' & S')].
  - exists [], ch. rewrite app_nil_r.
    split; [reflexivity|split; [constructor|exact S]].
  - exists (ch ++ w'), ch'. rewrite app_assoc.
    split; [reflexivity|split; [constructor; assumption|exact S']].
Qed.

(** In a sequence of a lead byte and continuation bytes, every byte after
    the first is a continuation byte. *)
Lemma not_first_cont (c0 : ascii) t u l v :
  Forall (fun x => isCont (byteval x) = true) t ->
  c0 :: t = u ++ l :: v -> u <> [] -> isCont (byteval l) = true.
Proof.
  intros CT E N. destruct u as [|u0 u]; [contradiction|].
  cbn [app] in E. inversion E; subst.
  apply Forall_app in CT as [_ CT]. apply Forall_cons in CT as [C _]. exact C.
Qed.

Lemma lead_not_cont c : 0xC2 <= byteval c -> isCont (byteval c) = true -> False.
Proof.
  intros B C. unfold isCont in C. apply andb_true_iff in C as [_ C].
  apply Z.leb_le in C. lia.
Qed.

(** Before a non-empty string, white-space runes do not change what the
    backward decoder sees. *)
Lemma dlr_app_blank w y :
  blank w -> y <> [] ->
  DecodeLastRuneInString (w ++ y) = DecodeLastRuneInString y.
Proof.
  intros B N.
  destruct (blank_last w B) as [->|(w' & ch & -> & _ & S)]; [reflexivity|].
  destruct (spaceRune_shape ch S) as [(c & -> & A & _)|(L & rc & Dc & Sc)].
  { rewrite <- app_assoc. cbn [app]. apply dlr_app_ascii_eq; assumption. }
  destruct (decode_full_bytes ch rc Dc L) as (l0 & lt & -> & LB & _ & LCT).
  assert (forall u r', u <> [] ->
            DecodeRuneInString ((l0 :: lt) ++ u) = (r', len ((l0 :: lt) ++ u)) ->
            False)
    as Short.
  { intros u r' U X.
    destruct (decode_app_prefix (l0 :: lt) u) as [P|P]; [discriminate| |].
    - rewrite P, Dc in X. apply (f_equal snd) in X. cbn [snd] in X.
      rewrite len_app in X. pose proof (len_nonneg u).
      assert (len u <> 0) by (intros Z0; apply len_nil_iff in Z0; contradiction).
      lia.
    - rewrite P in Dc. inversion Dc; subst.
      rewrite IsSpace_RuneError in Sc. discriminate. }
  destruct (DecodeLastRuneInString y) as [r size] eqn:D.
  destruct (dlr_sound _ _ _ N D)
    as [(q & c & -> & C & -> & ->)|[(-> & -> & q & c & -> & C)|
        (q & c & -> & L2 & -> & DC)]].
  - rewrite app_assoc. apply dlr_ascii, C.
  - set (y := q ++ [c]) in *.
    destruct (DecodeLastRuneInString ((w' ++ l0 :: lt) ++ y)) as [r' size'] eqn:D'.
    assert ((w' ++ l0 :: lt) ++ y <> []) as N' by (destruct w'; discriminate).
    destruct (dlr_sound _ _ _ N' D')
      as [(q' & c' & E & C' & _ & _)|[(-> & -> & _)|
          (q' & ch & E & L2 & -> & DC)]].
    + exfalso. unfold y in E. rewrite app_assoc in E.
      apply app_inj_tail in E as [_ <-]. lia.
    + reflexivity.
    + exfalso.
      destruct (decode_full_bytes ch r' DC L2) as (c0 & t & -> & B0 & _ & CT).
      assert (forall k, y = k ++ c0 :: t -> False) as Inside.
      { intros k K. rewrite K in D.
        rewrite (dlr_complete k (c0 :: t) r' DC L2) in D.
        apply (f_equal snd) in D. cbn [snd] in D. lia. }
      apply app_eq_inv in E as [(k & E1 & E2)|(k & E1 & E2)];
        [|apply (Inside k E2)].
      destruct k as [|k0 k]; [apply (Inside [] (eq_sym E2))|].
      apply app_eq_inv in E1 as [(j & F1 & F2)|(j & F1 & F2)].
      * (* the sequence starts at or before the last white-space rune *)
        destruct j as [|j0 j].
        -- cbn [app] in F2. rewrite F2 in E2.
           apply (Short y r' N). rewrite <- E2. exact DC.
        -- rewrite F2 in E2. rewrite <- app_assoc in E2. cbn [app] in E2.
           apply (lead_not_cont l0 LB).
           apply (not_first_cont c0 t (j0 :: j) l0 (lt ++ y) CT);
             [|discriminate].
           exact E2.
      * (* the sequence starts inside the last white-space rune *)
        destruct j as [|j0 j].
        -- cbn [app] in F2. rewrite <- F2 in E2.
           apply (Short y r' N). rewrite <- E2. exact DC.
        -- cbn [app] in E2. inversion E2; subst k0.
           apply (lead_not_cont c0 B0).
           apply (not_first_cont l0 lt (j0 :: j) c0 k LCT);
             [exact F2|discriminate].
  - rewrite app_assoc. apply dlr_complete; assumption.
Qed.


(** What [TrimLeftFunc] removes is a string of white-space runes. *)
Lemma TrimLeft_blank n : forall s, (length s <= n)%nat ->
  exists w, blank w /\ s = w ++ (strings.TrimLeftFunc s IsSpace).
Proof.
  induction n as [|n IH]; intros s L.
  - destruct s; [|cbn [length] in L; lia]. exists []. split; [constructor|reflexivity].
  - destruct (decide (s = [])) as [->|NE].
    { exists []. split; [constructor|reflexivity]. }
    destruct (DecodeRuneInString s) as [r size] eqn:D.
    destruct (IsSpace r) eqn:Q.
    + rewrite (TrimLeft_skip _ _ _ _ NE D Q).
      pose proof (decode_size _ NE) as DS. rewrite D in DS. cbn [snd] in DS.
      set (s' := drop (Z.to_nat size) s).
      assert (length s' <= n)%nat as L'.
      { unfold s'. rewrite length_drop. unfold len in DS. lia. }
      destruct (IH s' L') as (w & B & W).
      exists (take (Z.to_nat size) s ++ w). split.
      * constructor; [|exact B]. split.
        { intros E. apply (f_equal length) in E. rewrite length_take in E.
          unfold len in DS. cbn [length] in E. lia. }
        exists r. split; [|exact Q].
        rewrite (decode_take s r size NE D). f_equal.
        unfold len in *. rewrite length_take. lia.
      * rewrite <- app_assoc, <- W. unfold s'. symmetry. apply take_drop.
    + rewrite TrimLeft_stop; [|exact NE|rewrite D; exact Q].
      exists []. split; [constructor|reflexivity].
Qed.

(** [TrimLeftFunc] removes white-space runes in front. *)
Lemma TrimLeft_app_blank w y : blank w -> (strings.TrimLeftFunc (w ++ y) IsSpace) = (strings.TrimLeftFunc y IsSpace).
Proof.
  induction 1 as [|ch w S B IH]; [reflexivity|].
  rewrite <- app_assoc.
  destruct (decode_spaceRune ch (w ++ y) S) as (r & D & Q).
  assert (ch ++ w ++ y <> []) as NE.
  { destruct S as [N _]. destruct ch; [contradiction|discriminate]. }
  rewrite (TrimLeft_skip _ _ _ _ NE D Q), drop_len_app. exact IH.
Qed.

(** [TrimRightFunc] removes a string of white-space runes altogether. *)
Lemma TrimRight_blank n : forall w, (length w <= n)%nat -> blank w -> (strings.TrimRightFunc w IsSpace) = [].
Proof.
  induction n as [|n IH]; intros w L B.
  - destruct w; [reflexivity|cbn [length] in L; lia].
  - destruct (blank_last w B) as [->|(w' & ch & -> & B' & S)]; [reflexivity|].
    destruct (dlr_spaceRune w' ch S) as (r & D & Q).
    assert (ch <> []) as NC by (destruct S; assumption).
    assert (w' ++ ch <> []) as NE.
    { destruct w'; [exact NC|discriminate]. }
    rewrite (TrimRight_skip _ _ _ NE D Q).
    replace (len (w' ++ ch) - len ch) with (len w') by (rewrite len_app; lia).
    rewrite take_len_app. apply IH; [|exact B'].
    rewrite length_app in L. destruct ch; [contradiction|].
    cbn [length] in L. lia.
Qed.

(** A white-space rune found by the backward decoder, with its bytes. *)
Lemma dlr_space_chunk s r size :
  s <> [] -> DecodeLastRuneInString s = (r, size) -> IsSpace r = true ->
  exists p ch, s = p ++ ch /\ size = len ch /\ spaceRune ch /\
               DecodeRuneInString ch = (r, len ch).
Proof.
  intros N D Q.
  destruct (dlr_sound _ _ _ N D)
    as [(q & a & -> & A & -> & ->)|[(-> & _)|(q & ch & -> & L2 & -> & DC)]].
  - assert (DecodeRuneInString [a] = (byteval a, len [a])) as DA.
    { destruct (decode_cases a) as [[_ E]|[[B _]|[B _]]]; try lia. apply E. }
    exists q, [a]. split; [reflexivity|]. split; [reflexivity|].
    split; [|exact DA]. split; [discriminate|]. exists (byteval a). auto.
  - rewrite IsSpace_RuneError in Q. discriminate.
  - exists q, ch. split; [reflexivity|]. split; [reflexivity|].
    split; [|exact DC]. split.
    + intros ->. unfold len in L2. cbn in L2. lia.
    + exists r. auto.
Qed.

(** If [TrimRightFunc] removes everything, the string starts with a
    white-space rune (or is empty). *)
Lemma TrimRight_nil_inv n : forall y, (length y <= n)%nat ->
  (strings.TrimRightFunc y IsSpace) = [] -> y = [] \/ IsSpace (fst (DecodeRuneInString y)) = true.
Proof.
  induction n as [|n IH]; intros y L E.
  - destruct y; [left; reflexivity|cbn [length] in L; lia].
  - destruct (decide (y = [])) as [->|NE]; [left; reflexivity|right].
    destruct (DecodeLastRuneInString y) as [r size] eqn:D.
    destruct (IsSpace r) eqn:Q.
    + rewrite (TrimRight_skip _ _ _ NE D Q) in E.
      destruct (dlr_space_chunk _ _ _ NE D Q) as (p & c & -> & -> & S & DC).
      assert (c <> []) as NC by (destruct S; assumption).
      replace (len (p ++ c) - len c) with (len p) in E
        by (rewrite len_app; lia).
      rewrite take_len_app in E.
      assert (length p <= n)%nat as LP.
      { rewrite length_app in L. destruct c; [contradiction|].
        cbn [length] in L. lia. }
      destruct (IH p LP E) as [->|SP].
      * cbn [app]. rewrite DC. exact Q.
      * destruct (decode_app_prefix p c) as [P|P].
        -- intros ->. cbn in SP. discriminate.
        -- rewrite P. exact SP.
        -- rewrite P in SP. cbn [fst] in SP. rewrite IsSpace_RuneError in SP.
           discriminate.
    + rewrite TrimRight_stop in E; [contradiction|exact NE|rewrite D; exact Q].
Qed.

(** Behind a string of white-space runes, [TrimRightFunc] works on the rest
    alone, as long as something of the rest remains. *)
Lemma TrimRight_app_blank w n : forall y, (length y <= n)%nat ->
  blank w -> (strings.TrimRightFunc y IsSpace) <> [] -> (strings.TrimRightFunc (w ++ y) IsSpace) = w ++ (strings.TrimRightFunc y IsSpace).
Proof.
  induction n as [|n IH]; intros y L B NT.
  - destruct y; [contradiction|cbn [length] in L; lia].
  - destruct (decide (y = [])) as [->|NE]; [contradiction|].
    assert (w ++ y <> []) as NE'.
    { intros E. apply app_eq_nil in E as [_ E]. contradiction. }
    pose proof (dlr_app_blank w y B NE) as DW.
    destruct (DecodeLastRuneInString y) as [r size] eqn:D.
    destruct (IsSpace r) eqn:Q.
    + rewrite (TrimRight_skip _ _ _ NE' DW Q).
      rewrite (TrimRight_skip _ _ _ NE D Q) in NT |- *.
      pose proof (dlr_size _ NE) as DS. rewrite D in DS. cbn [snd] in DS.
      replace (take (Z.to_nat (len (w ++ y) - size)) (w ++ y))
        with (w ++ take (Z.to_nat (len y - size)) y).
      2:{ rewrite len_app. pose proof (len_nonneg w).
          replace (Z.to_nat (len w + len y - size))
            with (length w + Z.to_nat (len y - size))%nat
            by (unfold len in *; lia).
          rewrite take_app_add. reflexivity. }
      apply IH; [|exact B|exact NT].
      rewrite length_take. unfold len in *. lia.
    + rewrite (TrimRight_stop _ NE'); [|rewrite DW; exact Q].
      rewrite (TrimRight_stop _ NE); [reflexivity|rewrite D; exact Q].
Qed.

(** Trimming on the left and trimming on the right commute. *)
Lemma TrimLeft_TrimRight s : (strings.TrimLeftFunc ((strings.TrimRightFunc s IsSpace)) IsSpace) = (strings.TrimRightFunc ((strings.TrimLeftFunc s IsSpace)) IsSpace).
Proof.
  destruct (TrimLeft_blank (length s) s (le_n _)) as (w & B & W).
  destruct (TrimLeft_out s) as [Y|Y].
  - (* all of [s] is white space *)
    rewrite Y in W |- *. rewrite app_nil_r in W. subst w.
    rewrite (TrimRight_blank (length s) s (le_n _) B). reflexivity.
  - set (y := (strings.TrimLeftFunc s IsSpace)) in *.
    destruct (decide (y = [])) as [Z|NE].
    { rewrite Z in W |- *. rewrite app_nil_r in W. subst w.
      rewrite (TrimRight_blank (length s) s (le_n _) B). reflexivity. }
    assert ((strings.TrimRightFunc y IsSpace) <> []) as NT.
    { intros E.
      destruct (TrimRight_nil_inv (length y) y (le_n _) E) as [Z|Z];
        [contradiction|]. rewrite Z in Y. discriminate. }
    rewrite W at 1.
    rewrite (TrimRight_app_blank w (length y) y (le_n _) B NT).
    rewrite (TrimLeft_app_blank w ((strings.TrimRightFunc y IsSpace)) B).
    apply TrimLeft_stop; [exact NT|].
    destruct (TrimRight_prefix y) as [v V].
    destruct (decode_app_prefix ((strings.TrimRightFunc y IsSpace)) v NT) as [P|P].
    + rewrite <- P, <- V. exact Y.
    + rewrite P. reflexivity.
Qed.

Lemma TrimLeft_idempotent s : (strings.TrimLeftFunc ((strings.TrimLeftFunc s IsSpace)) IsSpace) = (strings.TrimLeftFunc s IsSpace).
Proof.
  destruct (TrimLeft_out s) as [Y|Y]; [rewrite Y; reflexivity|].
  destruct (decide ((strings.TrimLeftFunc s IsSpace) = [])) as [Z|NE]; [rewrite Z; reflexivity|].
  apply TrimLeft_stop; assumption.
Qed.

Lemma TrimRight_idempotent s : (strings.TrimRightFunc ((strings.TrimRightFunc s IsSpace)) IsSpace) = (strings.TrimRightFunc s IsSpace).
Proof.
  destruct (TrimRight_out s) as [Y|Y]; [rewrite Y; reflexivity|].
  destruct (decide ((strings.TrimRightFunc s IsSpace) = [])) as [Z|NE]; [rewrite Z; reflexivity|].
  apply TrimRight_stop; assumption.
Qed.

(** [TrimSpace] after trimming one side is [TrimSpace]. *)
Lemma TrimSpace_TrimLeft s : strings.TrimSpace ((strings.TrimLeftFunc s IsSpace)) = strings.TrimSpace s.
Proof. rewrite !TrimSpace_unfold, TrimLeft_idempotent. reflexivity. Qed.

Lemma TrimSpace_TrimRight s : strings.TrimSpace ((strings.TrimRightFunc s IsSpace)) = strings.TrimSpace s.
Proof.
  rewrite !TrimSpace_unfold, TrimLeft_TrimRight, TrimRight_idempotent.
  reflexivity.
Qed.

(** ** Trimming around a colon *)

Lemma TrimLeft_app_colon n : forall c s, (length c <= n)%nat ->
  (strings.TrimLeftFunc (c ++ colon :: s) IsSpace) = (strings.TrimLeftFunc c IsSpace) ++ colon :: s.
Proof.
  assert (forall s, (strings.TrimLeftFunc (colon :: s) IsSpace) = colon :: s) as Stop.
  { intros s. apply TrimLeft_stop; [discriminate|reflexivity]. }
  induction n as [|n IH]; intros c s L.
  - destruct c; [|cbn [length] in L; lia]. apply Stop.
  - destruct (decide (c = [])) as [->|NE]; [apply Stop|].
    assert (c ++ colon :: s <> []) as NE' by (destruct c; discriminate).
    assert (DecodeRuneInString (c ++ colon :: s) = DecodeRuneInString c) as DE.
    { apply decode_app_boundary; [exact NE|reflexivity]. }
    destruct (DecodeRuneInString c) as [r size] eqn:D.
    destruct (IsSpace r) eqn:Q.
    + rewrite (TrimLeft_skip _ _ _ _ NE' DE Q), (TrimLeft_skip _ _ _ _ NE D Q).
      pose proof (decode_size _ NE) as DS. rewrite D in DS. cbn [snd] in DS.
      rewrite drop_app_le by (unfold len in DS; lia).
      apply IH. rewrite length_drop. unfold len in DS. lia.
    + rewrite (TrimLeft_stop _ _ NE'); [|rewrite DE; exact Q].
      rewrite (TrimLeft_stop _ _ NE); [reflexivity|rewrite D; exact Q].
Qed.

Lemma TrimRight_app_colon n : forall p s, (length s <= n)%nat ->
  (strings.TrimRightFunc (p ++ colon :: s) IsSpace) = p ++ colon :: (strings.TrimRightFunc s IsSpace).
Proof.
  assert (forall p, (strings.TrimRightFunc (p ++ [colon]) IsSpace) = p ++ [colon]) as Stop.
  { intros p. apply TrimRight_stop; [destruct p; discriminate|].
    rewrite (dlr_ascii p colon); reflexivity. }
  induction n as [|n IH]; intros p s L.
  - destruct s; [|cbn [length] in L; lia]. apply Stop.
  - destruct (decide (s = [])) as [->|NE]; [apply Stop|].
    assert (p ++ colon :: s <> []) as NE' by (destruct p; discriminate).
    pose proof (dlr_app_ascii_eq p colon s ltac:(reflexivity) NE) as DE.
    destruct (DecodeLastRuneInString s) as [r size] eqn:D.
    destruct (IsSpace r) eqn:Q.
    + rewrite (TrimRight_skip _ _ _ NE' DE Q), (TrimRight_skip _ _ _ NE D Q).
      pose proof (dlr_size _ NE) as DS. rewrite D in DS. cbn [snd] in DS.
      replace (take (Z.to_nat (len (p ++ colon :: s) - size)) (p ++ colon :: s))
        with (p ++ colon :: take (Z.to_nat (len s - size)) s).
      2:{ replace (p ++ colon :: s) with ((p ++ [colon]) ++ s)
            by (rewrite <- app_assoc; reflexivity).
          replace (p ++ colon :: take (Z.to_nat (len s - size)) s)
            with ((p ++ [colon]) ++ take (Z.to_nat (len s - size)) s)
            by (rewrite <- app_assoc; reflexivity).
          rewrite len_app. pose proof (len_nonneg (p ++ [colon])).
          replace (Z.to_nat (len (p ++ [colon]) + len s - size))
            with (length (p ++ [colon]) + Z.to_nat (len s - size))%nat
            by (unfold len in *; lia).
          rewrite take_app_add. reflexivity. }
      apply IH. rewrite length_take. unfold len in *. lia.
    + rewrite (TrimRight_stop _ NE'); [|rewrite DE; exact Q].
      rewrite (TrimRight_stop _ NE); [reflexivity|rewrite D; exact Q].
Qed.

(** [TrimSpace] of a string with a colon trims in front of the first part
    and behind the second, whatever the two parts are. *)
Lemma TrimSpace_app_colon c s :
  strings.TrimSpace (c ++ colon :: s) = (strings.TrimLeftFunc c IsSpace) ++ colon :: (strings.TrimRightFunc s IsSpace).
Proof.
  rewrite TrimSpace_unfold, (TrimLeft_app_colon (length c) c s (le_n _)).
  apply (TrimRight_app_colon (length s) _ s (le_n _)).
Qed.

Lemma TrimSpace_newline s : strings.TrimSpace (s ++ [nl]) = strings.TrimSpace s.
Proof.
  rewrite <- (TrimSpace_TrimRight (s ++ [nl])), <- (TrimSpace_TrimRight s).
  f_equal.
  assert (s ++ [nl] <> []) as NE by (destruct s; discriminate).
  rewrite (TrimRight_skip (s ++ [nl]) 10 1 NE (dlr_ascii s nl eq_refl) eq_refl).
  rewrite len_app. change (len [nl]) with 1.
  replace (len s + 1 - 1) with (len s) by lia.
  rewrite take_len_app. reflexivity.
Qed.

Lemma not_elem_of_TrimLeft (a : ascii) s : a ∉ s -> a ∉ (strings.TrimLeftFunc s IsSpace).
Proof.
  intros N I. apply N. destruct (TrimLeft_suffix s) as [w W].
  rewrite W. apply elem_of_app. right. exact I.
Qed.

Lemma not_elem_of_TrimSpace (a : ascii) s : a ∉ s -> a ∉ strings.TrimSpace s.
Proof.
  intros N I. apply (not_elem_of_TrimLeft a s N).
  rewrite TrimSpace_unfold in I.
  destruct (TrimRight_prefix ((strings.TrimLeftFunc s IsSpace))) as [w W].
  rewrite W. apply elem_of_app. left. exact I.
Qed.

(** ** Package state: what [Load] and [Save] do to the fields *)

End MoreStrings.

(* ===================================================================== *)
(** * Package state: Load on raw content, and Save followed by Load       *)
(* ===================================================================== *)

Section StateMore.
Import state.

(** What a successful [Load] has read. *)
Lemma Load_inv fs st :
  Load fs = inl st ->
  exists f c s,
    os.files fs !! statePath = Some f /\ os.readable f = true /\
    strings.TrimSpace (os.data f) = c ++ colon :: s /\ (colon ∉ c) /\
    st = {| Challenge := strings.TrimSpace c; Stage := strings.TrimSpace s |}.
Proof.
  intros L.
  destruct (os.ReadFile fs statePath) as [bytes|pe] eqn:R.
  - assert (exists f, os.files fs !! statePath = Some f /\
                      os.readable f = true /\ os.data f = bytes)
      as (f & F & RD & <-).
    { revert R. unfold os.ReadFile.
      destruct (os.files fs !! statePath) as [f|]; [|discriminate].
      destruct (os.readable f) eqn:RD; [|discriminate].
      intros R. inversion R. eauto. }
    destruct (decide (colon ∈ strings.TrimSpace (os.data f))) as [I|N].
    + destruct (first_colon _ I) as (c & s & T & N).
      rewrite (Load_first_colon fs _ c s R T N) in L. inversion L.
      exists f, c, s. auto.
    + destruct (Load_no_colon fs _ R N) as [e E]. rewrite E in L. discriminate.
  - destruct (Load_unreadable fs pe R) as [e E]. rewrite E in L. discriminate.
Qed.

(** [Load] on a content cut at its first colon. *)
Lemma Load_raw fs bytes c s :
  os.ReadFile fs statePath = inl bytes ->
  bytes = c ++ colon :: s -> colon ∉ c ->
  Load fs = inl {| Challenge := strings.TrimSpace c;
                   Stage := strings.TrimSpace s |}.
Proof.
  intros R -> N.
  rewrite (Load_first_colon fs _ _ _ R (TrimSpace_app_colon c s)
             (not_elem_of_TrimLeft colon c N)).
  rewrite TrimSpace_TrimLeft, TrimSpace_TrimRight. reflexivity.
Qed.

(** What a successful [SaveTo] leaves at the path. *)
Lemma SaveTo_written st path fs fs' :
  SaveTo st path fs = (fs', None) ->
  exists f', os.files fs' !! path = Some f' /\
    os.data f' = Challenge st ++ colon :: Stage st ++ [nl] /\
    (forall f, os.files fs !! path = Some f -> os.readable f' = os.readable f) /\
    (os.files fs !! path = None -> os.readable f' = true).
Proof.
  unfold SaveTo. rewrite Sprintf_record. unfold os.WriteFile.
  destruct (os.files fs !! path) as [f|] eqn:F.
  - destruct (os.writable f); intros S; inversion S; subst fs'.
    eexists. cbn [os.files]. rewrite lookup_insert_eq.
    split; [reflexivity|]. split; [reflexivity|]. split; [|discriminate].
    intros f0 E. inversion E; subst. reflexivity.
  - destruct (decide (path ∈ os.nocreate fs)); intros S; inversion S; subst fs'.
    eexists. cbn [os.files]. rewrite lookup_insert_eq.
    split; [reflexivity|]. split; [reflexivity|]. split; [discriminate|].
    reflexivity.
Qed.

Lemma SaveTo_ReadFile st fs fs' :
  SaveTo st statePath fs = (fs', None) ->
  (forall f, os.files fs !! statePath = Some f -> os.readable f = true) ->
  os.ReadFile fs' statePath = inl (Challenge st ++ colon :: Stage st ++ [nl]).
Proof.
  intros S R. destruct (SaveTo_written _ _ _ _ S) as (f' & F' & D & R1 & R2).
  unfold os.ReadFile. rewrite F', D.
  destruct (os.files fs !! statePath) as [f|] eqn:F.
  - rewrite (R1 f eq_refl), (R f eq_refl). reflexivity.
  - rewrite (R2 eq_refl). reflexivity.
Qed.

(** [SaveTo] followed by [Load], for any fields. *)
Lemma SaveTo_Load st fs fs' c0 s0 :
  SaveTo st statePath fs = (fs', None) ->
  (forall f, os.files fs !! statePath = Some f -> os.readable f = true) ->
  Challenge st ++ colon :: Stage st = c0 ++ colon :: s0 -> colon ∉ c0 ->
  Load fs' = inl {| Challenge := strings.TrimSpace c0;
                    Stage := strings.TrimSpace s0 |}.
Proof.
  intros S R E N.
  rewrite (Load_raw fs' _ c0 (s0 ++ [nl]) (SaveTo_ReadFile _ _ _ S R)).
  - rewrite TrimSpace_newline. reflexivity.
  - change (Challenge st ++ colon :: Stage st ++ [nl])
      with (Challenge st ++ (colon :: Stage st) ++ [nl]).
    rewrite app_assoc, E, <- app_assoc. reflexivity.
  - exact N.
Qed.


(** The cut of a string at its first colon is unique. *)
Lemma first_colon_unique c s c' s' :
  c ++ colon :: s = c' ++ colon :: s' -> colon ∉ c -> colon ∉ c' ->
  c = c' /\ s = s'.
Proof.
  revert c'. induction c as [|a c IH]; intros [|a' c'] E N N'.
  - inversion E. auto.
  - inversion E; subst. exfalso. apply N'. left.
  - inversion E; subst. exfalso. apply N. left.
  - inversion E; subst.
    apply not_elem_of_cons in N as [_ N]. apply not_elem_of_cons in N' as [_ N'].
    destruct (IH c' H1 N N') as [-> ->]. auto.
Qed.

Lemma elem_of_TrimSpace_colon s : colon ∈ s <-> colon ∈ strings.TrimSpace s.
Proof.
  split.
  - intros I. destruct (first_colon _ I) as (c & t & -> & _).
    rewrite TrimSpace_app_colon. apply elem_of_app. right. left.
  - intros I. destruct (decide (colon ∈ s)) as [J|J]; [exact J|].
    destruct (not_elem_of_TrimSpace _ _ J I).
Qed.

(** X4.  [Load] in terms of the bytes of lc.state as they are.  It returns a
    state exactly when the file is there, can be read and holds a colon.
    Then the content is cut at its first colon, and each side is passed
    through [TrimSpace]: blanks around either field are dropped, also those
    next to the colon, and later colons stay in [Stage]. *)
Theorem X4_load_cuts_the_raw_content :
  forall fs : os.FS,
    ((exists st, Load fs = inl st) <->
     (exists bytes, os.ReadFile fs statePath = inl bytes /\ colon ∈ bytes)) /\
    (forall c s,
        os.ReadFile fs statePath = inl (c ++ colon :: s) -> colon ∉ c ->
        Load fs = inl {| Challenge := strings.TrimSpace c;
                         Stage := strings.TrimSpace s |}).
Proof.
  intros fs. split; [split|].
  - intros [st L]. destruct (Load_inv _ _ L) as (f & c & s & F & R & T & _).
    exists (os.data f). split.
    + unfold os.ReadFile. rewrite F, R. reflexivity.
    + apply elem_of_TrimSpace_colon. rewrite T. apply elem_of_app. right. left.
  - intros (bytes & R & I). destruct (first_colon _ I) as (c & s & E & N).
    eexists. exact (Load_raw fs bytes c s R E N).
  - intros c s R N. exact (Load_raw fs _ c s R eq_refl N).
Qed.

(** X5.  [Load] after [SaveTo] never fails, whatever the fields hold: when
    [SaveTo] has written to lc.state without an error (a file already there
    being readable), [Load] returns a state.  It is the saved record cut at
    its first colon with both sides trimmed; for a [Challenge] without a
    colon, it is the saved state with both fields trimmed. *)
Theorem X5_load_after_save_normalises :
  forall (st : State) (fs fs' : os.FS),
    SaveTo st statePath fs = (fs', None) ->
    (forall f, os.files fs !! statePath = Some f -> os.readable f = true) ->
    (exists c0 s0,
        Challenge st ++ colon :: Stage st = c0 ++ colon :: s0 /\ (colon ∉ c0) /\
        Load fs' = inl {| Challenge := strings.TrimSpace c0;
                          Stage := strings.TrimSpace s0 |}) /\
    (colon ∉ Challenge st ->
     Load fs' = inl {| Challenge := strings.TrimSpace (Challenge st);
                       Stage := strings.TrimSpace (Stage st) |}).
Proof.
  intros st fs fs' S R. split.
  - assert (colon ∈ Challenge st ++ colon :: Stage st) as I
        by (apply elem_of_app; right; left).
    destruct (first_colon _ I) as (c0 & s0 & E & N).
    exists c0, s0. split; [exact E|]. split; [exact N|].
    exact (SaveTo_Load st fs fs' c0 s0 S R E N).
  - intros N. exact (SaveTo_Load st fs fs' _ _ S R eq_refl N).
Qed.

(** X6.  The states that survive the round trip.  After a [SaveTo] to
    lc.state without an error (a file already there being readable), [Load]
    returns the saved state if and only if its [Challenge] holds no colon and
    both fields are equal to their [TrimSpace]. *)
Theorem X6_round_trip_exactly_when_normal :
  forall (st : State) (fs fs' : os.FS),
    SaveTo st statePath fs = (fs', None) ->
    (forall f, os.files fs !! statePath = Some f -> os.readable f = true) ->
    (Load fs' = inl st <->
     (colon ∉ Challenge st) /\
     strings.TrimSpace (Challenge st) = Challenge st /\
     strings.TrimSpace (Stage st) = Stage st).
Proof.
  intros st fs fs' S R. split.
  - intros L.
    assert (colon ∈ Challenge st ++ colon :: Stage st) as I
        by (apply elem_of_app; right; left).
    destruct (first_colon _ I) as (c0 & s0 & E & N).
    rewrite (SaveTo_Load st fs fs' c0 s0 S R E N) in L.
    destruct st as [c s]. cbn [Challenge Stage] in *.
    injection L as HC HS.
    assert (colon ∉ c) as NC by (rewrite <- HC; apply not_elem_of_TrimSpace, N).
    destruct (first_colon_unique _ _ _ _ E NC N) as [<- <-].
    split; [exact NC|]. split; [exact HC|exact HS].
  - intros (N & TC & TS).
    rewrite (SaveTo_Load st fs fs' _ _ S R eq_refl N), TC, TS.
    destruct st; reflexivity.
Qed.

(** X7.  A state that [Load] returned can be saved and loaded again without
    change: if [Load] returns [st] and [Save st] returns no error, then
    [Load] returns [st] afterwards. *)
Theorem X7_loaded_state_saves_and_loads :
  forall (fs fs' : os.FS) (st : State),
    Load fs = inl st ->
    Save st fs = (fs', None) ->
    Load fs' = inl st.
Proof.
  intros fs fs' st L S.
  destruct (Load_inv _ _ L) as (f & c & s & F & R & _ & N & ->).
  unfold Save in S.
  assert (forall f0, os.files fs !! statePath = Some f0 -> os.readable f0 = true)
    as RD by (intros f0 E; rewrite F in E; inversion E; subst; exact R).
  rewrite (SaveTo_Load _ fs fs' _ _ S RD eq_refl
             (not_elem_of_TrimSpace colon c N)).
  cbn [Challenge Stage]. rewrite !TrimSpace_idempotent. reflexivity.
Qed.

End StateMore.

Section StateMoreWitnesses.

(** X5 for a state with blanks and colons in its fields, saved into an empty
    directory. *)
Lemma X5_witness :
  state.Load (fst (state.SaveTo
                     {| state.Challenge := go " kv:store ";
                        state.Stage := go "http : api" |}
                     state.statePath Sample.emptyDir))
  = inl {| state.Challenge := go "kv"; state.Stage := go "store :http : api" |}.
Proof.
  set (st0 := {| state.Challenge := go " kv:store ";
                 state.Stage := go "http : api" |}).
  destruct (X5_load_after_save_normalises st0 Sample.emptyDir
              (fst (state.SaveTo st0 state.statePath Sample.emptyDir)))
    as [(c0 & s0 & E & N & L) _].
  - vm_compute. reflexivity.
  - intros f F. vm_compute in F. discriminate F.
  - rewrite L.
    destruct (first_colon_unique (go " kv") (go "store :http : api") c0 s0)
      as [<- <-].
    + exact E.
    + intros I. vm_compute in I.
      repeat (apply elem_of_cons in I as [I|I]; [discriminate I|]).
      inversion I.
    + exact N.
    + vm_compute. reflexivity.
Defined.

(** X6 for the sample state saved into an empty directory. *)
Lemma X6_witness :
  state.Load (fst (state.SaveTo Sample.st state.statePath Sample.emptyDir))
  = inl Sample.st.
Proof.
  apply (X6_round_trip_exactly_when_normal Sample.st Sample.emptyDir).
  - vm_compute. reflexivity.
  - intros f F. vm_compute in F. discriminate F.
  - split; [|split].
    + intros I. vm_compute in I.
      repeat (apply elem_of_cons in I as [I|I]; [discriminate I|]).
      inversion I.
    + vm_compute. reflexivity.
    + vm_compute. reflexivity.
Defined.

(** X7 on the record with blanks: what [Load] returns there is written back
    in normal form and read again. *)
Lemma X7_witness :
  state.Load
    (fst (state.Save
            {| state.Challenge := go "kv-store";
               state.Stage := go "http-api:v2" |} Sample.blanks))
  = inl {| state.Challenge := go "kv-store"; state.Stage := go "http-api:v2" |}.
Proof.
  apply (X7_loaded_state_saves_and_loads Sample.blanks).
  - vm_compute. reflexivity.
  - vm_compute. reflexivity.
Defined.

End StateMoreWitnesses.

(* ===================================================================== *)
(** * Package cli: init, test and next                                    *)
(* ===================================================================== *)

Section Files.

(** A [WriteFile] that succeeds sets the file at the path and nothing
    else. *)
Lemma WriteFile_done fs path d perm fs' :
  os.WriteFile fs path d perm = (fs', None) ->
  writableAt fs path = true /\
  exists f', os.files fs' = <[path := f']> (os.files fs) /\
    os.nocreate fs' = os.nocreate fs /\ os.data f' = d /\
    (forall f, os.files fs !! path = Some f ->
               os.readable f' = os.readable f /\ os.writable f' = os.writable f) /\
    (os.files fs !! path = None ->
     os.readable f' = Z.testbit perm 8 /\ os.writable f' = Z.testbit perm 7).
Proof.
  unfold os.WriteFile, writableAt.
  destruct (os.files fs !! path) as [f|] eqn:F.
  - destruct (os.writable f) eqn:W; intros E; inversion E; subst fs'.
    split; [reflexivity|]. eexists. cbn [os.files os.nocreate os.data].
    split; [reflexivity|]. split; [reflexivity|]. split; [reflexivity|].
    split; [|discriminate]. intros f0 F0. inversion F0; subst. auto.
  - destruct (decide (path ∈ os.nocreate fs)) as [I|I];
      intros E; inversion E; subst fs'.
    split; [apply bool_decide_eq_true; exact I|].
    eexists. cbn [os.files os.nocreate os.data].
    split; [reflexivity|]. split; [reflexivity|]. split; [reflexivity|].
    split; [discriminate|]. auto.
Qed.

(** A [WriteFile] that fails leaves the file system as it is. *)
Lemma WriteFile_failed fs path d perm fs' e :
  os.WriteFile fs path d perm = (fs', Some e) ->
  fs' = fs /\ writableAt fs path = false.
Proof.
  unfold os.WriteFile, writableAt.
  destruct (os.files fs !! path) as [f|] eqn:F.
  - destruct (os.writable f) eqn:W; intros E; inversion E; subst fs'. auto.
  - destruct (decide (path ∈ os.nocreate fs)) as [I|I];
      intros E; inversion E; subst fs'.
    split; [reflexivity|]. apply bool_decide_eq_false. auto.
Qed.

Lemma WriteFile_writable fs path d perm :
  writableAt fs path = true ->
  exists fs', os.WriteFile fs path d perm = (fs', None).
Proof.
  intros W. destruct (os.WriteFile fs path d perm) as [fs' [e|]] eqn:E.
  - apply WriteFile_failed in E as [_ E]. congruence.
  - eauto.
Qed.

(** Writing one file does not change what can be written elsewhere, nor the
    content there. *)
Lemma WriteFile_other fs path d perm fs' q :
  os.WriteFile fs path d perm = (fs', None) -> q <> path ->
  os.files fs' !! q = os.files fs !! q /\
  writableAt fs' q = writableAt fs q /\ content fs' q = content fs q.
Proof.
  intros E NE. apply WriteFile_done in E as (_ & f' & F & NC & _).
  assert (os.files fs' !! q = os.files fs !! q) as L
      by (rewrite F; apply lookup_insert_ne; congruence).
  unfold writableAt, content. rewrite L, NC. auto.
Qed.

Lemma WriteFile_content fs path d perm fs' :
  os.WriteFile fs path d perm = (fs', None) -> content fs' path = Some d.
Proof.
  intros E. apply WriteFile_done in E as (_ & f' & F & _ & D & _).
  unfold content. rewrite F, lookup_insert_eq. cbn. rewrite D. reflexivity.
Qed.


End Files.

Section Init.
Import registry cli.

Lemma Join_here_run : filepath.Join [go "."; go "run.sh"] = go "run.sh".
Proof. vm_compute. reflexivity. Qed.
Lemma Join_here_readme : filepath.Join [go "."; go "README.md"] = go "README.md".
Proof. vm_compute. reflexivity. Qed.
Lemma Join_here_state : filepath.Join [go "."; go "lc.state"] = state.statePath.
Proof. vm_compute. reflexivity. Qed.
Lemma Join_here_gitignore :
  filepath.Join [go "."; go ".gitignore"] = go ".gitignore".
Proof. vm_compute. reflexivity. Qed.

Lemma index_first (order : list gostring) :
  index order 0 =
  match order with
  | [] => Panics (IndexOutOfRange 0 0)
  | stage0 :: _ => Returns stage0
  end.
Proof.
  destruct order as [|s0 rest]; [reflexivity|].
  unfold index. cbn [length nth Z.to_nat].
  destruct (0 <? 0) eqn:A; [discriminate|].
  destruct (Z.of_nat (S (length rest)) <=? 0) eqn:B; [|reflexivity].
  apply Z.leb_le in B. lia.
Qed.

(** [createChallengeFiles] in the current directory, as the sequence of its
    four writes. *)
Lemma createChallengeFiles_here ch fs fs' :
  createChallengeFiles ch (go ".") fs = (fs', Returns None) <->
  exists stage0 rest fs1 fs2 fs3,
    StageOrder ch = stage0 :: rest /\
    os.WriteFile fs (go "run.sh") scriptTemplate 0x1ED = (fs1, None) /\
    os.WriteFile fs1 (go "README.md") (README ch) 0x1A4 = (fs2, None) /\
    os.WriteFile fs2 state.statePath
      (Key ch ++ colon :: stage0 ++ [nl]) 0x1A4 = (fs3, None) /\
    os.WriteFile fs3 (go ".gitignore") (go ".lc/") 0x1A4 = (fs', None).
Proof.
  unfold createChallengeFiles.
  rewrite Join_here_run, Join_here_readme, Join_here_state, Join_here_gitignore.
  rewrite index_first.
  destruct (StageOrder ch) as [|stage0 rest].
  { split.
    - destruct (os.WriteFile fs _ _ _) as [fs1 [e|]]; [discriminate|].
      destruct (os.WriteFile fs1 _ _ _) as [fs2 [e|]]; discriminate.
    - intros (? & ? & ? & ? & ? & O & _). discriminate O. }
  unfold state.SaveTo. rewrite Sprintf_record.
  cbn [state.Challenge state.Stage].
  split.
  - destruct (os.WriteFile fs _ _ _) as [fs1 [e|]] eqn:W1; [discriminate|].
    destruct (os.WriteFile fs1 _ _ _) as [fs2 [e|]] eqn:W2; [discriminate|].
    destruct (os.WriteFile fs2 _ _ _) as [fs3 [e|]] eqn:W3; [discriminate|].
    destruct (os.WriteFile fs3 _ _ _) as [fs4 [e|]] eqn:W4; [discriminate|].
    intros E. inversion E; subst fs4.
    exists stage0, rest, fs1, fs2, fs3.
    repeat split; first [reflexivity | assumption].
  - intros (s0 & r0 & fs1 & fs2 & fs3 & O & -> & -> & W3 & W4).
    inversion O; subst s0 r0.
    rewrite W3, W4. reflexivity.
Qed.

(** [InitChallenge] without a path argument returns no error exactly when
    [createChallengeFiles] does, in the current directory. *)
Lemma InitChallenge_here reg mk key ch fs fs' :
  reg key = inl ch ->
  InitChallenge reg mk [key] fs = (fs', Returns None) <->
  createChallengeFiles ch (go ".") fs = (fs', Returns None).
Proof.
  intros G. unfold InitChallenge. rewrite G.
  destruct (createChallengeFiles ch (go ".") fs) as [fs1 [[e|]|p]] eqn:C.
  - split; discriminate.
  - apply createChallengeFiles_here in C as (s0 & rest & _ & _ & _ & O & _).
    rewrite index_first, O. reflexivity.
  - split; discriminate.
Qed.

(** A successful [InitChallenge] in the current directory, as its writes. *)
Lemma InitChallenge_writes (reg : Registry) mk key ch fs fs' :
  reg key = inl ch ->
  InitChallenge reg mk [key] fs = (fs', Returns None) ->
  exists stage0 rest fs1 fs2 fs3,
    StageOrder ch = stage0 :: rest /\
    os.WriteFile fs (go "run.sh") scriptTemplate 0x1ED = (fs1, None) /\
    os.WriteFile fs1 (go "README.md") (README ch) 0x1A4 = (fs2, None) /\
    os.WriteFile fs2 state.statePath
      (Key ch ++ colon :: stage0 ++ [nl]) 0x1A4 = (fs3, None) /\
    os.WriteFile fs3 (go ".gitignore") (go ".lc/") 0x1A4 = (fs', None).
Proof.
  intros G I. apply (InitChallenge_here reg mk key ch fs fs' G) in I.
  apply createChallengeFiles_here in I. exact I.
Qed.

Ltac names_differ :=
  let E := fresh in intros E; vm_compute in E; discriminate E.

(** X8.  What [lc init <challenge>] leaves in the current directory.  When
    [InitChallenge] is called with the challenge key alone and returns no
    error, the challenge has a first stage, run.sh holds the script
    template, README.md the text of [README()], lc.state the record of the
    challenge's [Key] and its first stage, .gitignore the line for the
    working directory, and every other file is as before.  [os.MkdirAll]
    plays no part. *)
Theorem X8_init_writes_the_four_files :
  forall (reg : Registry) mk (key : gostring) (ch : Challenge)
         (fs fs' : os.FS),
    reg key = inl ch ->
    InitChallenge reg mk [key] fs = (fs', Returns None) ->
    exists stage0 rest,
      StageOrder ch = stage0 :: rest /\
      content fs' (go "run.sh") = Some scriptTemplate /\
      content fs' (go "README.md") = Some (README ch) /\
      content fs' (go "lc.state") = Some (Key ch ++ colon :: stage0 ++ [nl]) /\
      content fs' (go ".gitignore") = Some (go ".lc/") /\
      (forall q, q ∉ challengeFiles -> os.files fs' !! q = os.files fs !! q).
Proof.
  intros reg mk key ch fs fs' G I.
  apply (InitChallenge_here reg mk key ch fs fs' G) in I.
  apply createChallengeFiles_here in I
    as (stage0 & rest & fs1 & fs2 & fs3 & O & W1 & W2 & W3 & W4).
  exists stage0, rest. split; [exact O|].
  split; [|split; [|split; [|split]]].
  - destruct (WriteFile_other _ _ _ _ _ (go "run.sh") W4) as (_ & _ & ->);
      [names_differ|].
    destruct (WriteFile_other _ _ _ _ _ (go "run.sh") W3) as (_ & _ & ->);
      [names_differ|].
    destruct (WriteFile_other _ _ _ _ _ (go "run.sh") W2) as (_ & _ & ->);
      [names_differ|].
    exact (WriteFile_content _ _ _ _ _ W1).
  - destruct (WriteFile_other _ _ _ _ _ (go "README.md") W4) as (_ & _ & ->);
      [names_differ|].
    destruct (WriteFile_other _ _ _ _ _ (go "README.md") W3) as (_ & _ & ->);
      [names_differ|].
    exact (WriteFile_content _ _ _ _ _ W2).
  - destruct (WriteFile_other _ _ _ _ _ (go "lc.state") W4) as (_ & _ & ->);
      [names_differ|].
    exact (WriteFile_content _ _ _ _ _ W3).
  - exact (WriteFile_content _ _ _ _ _ W4).
  - intros q Q.
    assert (q <> go "run.sh" /\ q <> go "README.md" /\ q <> state.statePath /\
            q <> go ".gitignore") as (Q1 & Q2 & Q3 & Q4).
    { repeat split; intros ->; apply Q; unfold challengeFiles;
        rewrite !elem_of_cons; auto 6. }
    destruct (WriteFile_other _ _ _ _ _ q W4 Q4) as (-> & _).
    destruct (WriteFile_other _ _ _ _ _ q W3 Q3) as (-> & _).
    destruct (WriteFile_other _ _ _ _ _ q W2 Q2) as (-> & _).
    destruct (WriteFile_other _ _ _ _ _ q W1 Q1) as (-> & _).
    reflexivity.
Qed.

(** X9.  When [lc init <challenge>] succeeds.  With the challenge key alone,
    [InitChallenge] returns no error if and only if the challenge has at
    least one stage and each of the four files can be written: it is there
    and writable, or it is not there and can be created. *)
Theorem X9_init_succeeds_exactly_when_writable :
  forall (reg : Registry) mk (key : gostring) (ch : Challenge) (fs : os.FS),
    reg key = inl ch ->
    ((exists fs', InitChallenge reg mk [key] fs = (fs', Returns None)) <->
     StageOrder ch <> [] /\
     forall p, p ∈ challengeFiles -> writableAt fs p = true).
Proof.
  intros reg mk key ch fs G. split.
  - intros [fs' I].
    apply (InitChallenge_here reg mk key ch fs fs' G) in I.
    apply createChallengeFiles_here in I
      as (stage0 & rest & fs1 & fs2 & fs3 & O & W1 & W2 & W3 & W4).
    split; [rewrite O; discriminate|].
    intros p P. unfold challengeFiles in P.
    apply elem_of_cons in P as [->|P]; [exact (proj1 (WriteFile_done _ _ _ _ _ W1))|].
    apply elem_of_cons in P as [->|P].
    { destruct (WriteFile_other _ _ _ _ _ (go "README.md") W1) as (_ & <- & _);
        [names_differ|].
      exact (proj1 (WriteFile_done _ _ _ _ _ W2)). }
    apply elem_of_cons in P as [->|P].
    { destruct (WriteFile_other _ _ _ _ _ (go "lc.state") W1) as (_ & <- & _);
        [names_differ|].
      destruct (WriteFile_other _ _ _ _ _ (go "lc.state") W2) as (_ & <- & _);
        [names_differ|].
      exact (proj1 (WriteFile_done _ _ _ _ _ W3)). }
    apply elem_of_cons in P as [->|P]; [|inversion P].
    destruct (WriteFile_other _ _ _ _ _ (go ".gitignore") W1) as (_ & <- & _);
      [names_differ|].
    destruct (WriteFile_other _ _ _ _ _ (go ".gitignore") W2) as (_ & <- & _);
      [names_differ|].
    destruct (WriteFile_other _ _ _ _ _ (go ".gitignore") W3) as (_ & <- & _);
      [names_differ|].
    exact (proj1 (WriteFile_done _ _ _ _ _ W4)).
  - intros [O W].
    destruct (StageOrder ch) as [|stage0 rest] eqn:SO; [congruence|].
    assert (writableAt fs (go "run.sh") = true) as A1
        by (apply W; unfold challengeFiles; rewrite !elem_of_cons; auto 6).
    assert (writableAt fs (go "README.md") = true) as A2
        by (apply W; unfold challengeFiles; rewrite !elem_of_cons; auto 6).
    assert (writableAt fs (go "lc.state") = true) as A3
        by (apply W; unfold challengeFiles; rewrite !elem_of_cons; auto 6).
    assert (writableAt fs (go ".gitignore") = true) as A4
        by (apply W; unfold challengeFiles; rewrite !elem_of_cons; auto 6).
    destruct (WriteFile_writable fs (go "run.sh") scriptTemplate 0x1ED A1)
      as [fs1 W1].
    destruct (WriteFile_other _ _ _ _ _ (go "README.md") W1) as (_ & B2 & _);
      [names_differ|].
    destruct (WriteFile_other _ _ _ _ _ (go "lc.state") W1) as (_ & B3 & _);
      [names_differ|].
    destruct (WriteFile_other _ _ _ _ _ (go ".gitignore") W1) as (_ & B4 & _);
      [names_differ|].
    rewrite <- B2 in A2. rewrite <- B3 in A3. rewrite <- B4 in A4.
    destruct (WriteFile_writable fs1 (go "README.md") (README ch) 0x1A4 A2)
      as [fs2 W2].
    destruct (WriteFile_other _ _ _ _ _ (go "lc.state") W2) as (_ & C3 & _);
      [names_differ|].
    destruct (WriteFile_other _ _ _ _ _ (go ".gitignore") W2) as (_ & C4 & _);
      [names_differ|].
    rewrite <- C3 in A3. rewrite <- C4 in A4.
    destruct (WriteFile_writable fs2 state.statePath
                (Key ch ++ colon :: stage0 ++ [nl]) 0x1A4 A3) as [fs3 W3].
    destruct (WriteFile_other _ _ _ _ _ (go ".gitignore") W3) as (_ & D4 & _);
      [names_differ|].
    rewrite <- D4 in A4.
    destruct (WriteFile_writable fs3 (go ".gitignore") (go ".lc/") 0x1A4 A4)
      as [fs4 W4].
    exists fs4. apply (InitChallenge_here reg mk key ch fs fs4 G).
    apply createChallengeFiles_here.
    exists stage0, rest, fs1, fs2, fs3.
    repeat split; first [reflexivity | assumption].
Qed.


(** [Load] looks at lc.state only. *)
Lemma Load_ext fs1 fs2 :
  os.files fs1 !! state.statePath = os.files fs2 !! state.statePath ->
  state.Load fs1 = state.Load fs2.
Proof.
  intros E. unfold state.Load, os.Stat, os.ReadFile. rewrite E. reflexivity.
Qed.

Lemma content_exists fs p d :
  content fs p = Some d -> os.IsNotExist (os.Stat fs p) = false.
Proof.
  unfold content, os.Stat. destruct (os.files fs !! p); [reflexivity|discriminate].
Qed.

Lemma SaveTo_of_WriteFile st path fs fs' :
  os.WriteFile fs path
    (state.Challenge st ++ colon :: state.Stage st ++ [nl]) 0x1A4 = (fs', None) ->
  state.SaveTo st path fs = (fs', None).
Proof.
  intros W. unfold state.SaveTo. rewrite Sprintf_record, W. reflexivity.
Qed.

(** X10.  A directory made by [lc init <challenge>] passes the check of the
    other commands.  After [InitChallenge] with the key alone has returned no
    error (an lc.state already there being readable), and for a challenge
    whose [Key] holds no colon, [validateEnvironment] returns the state of
    the challenge's [Key] and its first stage, each trimmed. *)
Theorem X10_init_then_validate :
  forall (reg : Registry) mk (key : gostring) (ch : Challenge)
         (fs fs' : os.FS),
    reg key = inl ch ->
    InitChallenge reg mk [key] fs = (fs', Returns None) ->
    (forall f, os.files fs !! state.statePath = Some f -> os.readable f = true) ->
    colon ∉ Key ch ->
    exists stage0 rest,
      StageOrder ch = stage0 :: rest /\
      validateEnvironment fs' =
        inl {| state.Challenge := strings.TrimSpace (Key ch);
               state.Stage := strings.TrimSpace stage0 |}.
Proof.
  intros reg mk key ch fs fs' G I R N.
  destruct (InitChallenge_writes reg mk key ch fs fs' G I)
    as (stage0 & rest & fs1 & fs2 & fs3 & O & W1 & W2 & W3 & W4).
  exists stage0, rest. split; [exact O|].
  unfold validateEnvironment.
  assert (content fs' (go "run.sh") = Some scriptTemplate) as C.
  { destruct (WriteFile_other _ _ _ _ _ (go "run.sh") W4) as (_ & _ & ->);
      [names_differ|].
    destruct (WriteFile_other _ _ _ _ _ (go "run.sh") W3) as (_ & _ & ->);
      [names_differ|].
    destruct (WriteFile_other _ _ _ _ _ (go "run.sh") W2) as (_ & _ & ->);
      [names_differ|].
    exact (WriteFile_content _ _ _ _ _ W1). }
  rewrite (content_exists _ _ _ C).
  assert (state.Load fs' = state.Load fs3) as ->.
  { apply Load_ext.
    destruct (WriteFile_other _ _ _ _ _ state.statePath W4) as (E & _);
      [names_differ|exact E]. }
  assert (os.files fs2 !! state.statePath = os.files fs !! state.statePath) as E2.
  { destruct (WriteFile_other _ _ _ _ _ state.statePath W2) as (-> & _);
      [names_differ|].
    destruct (WriteFile_other _ _ _ _ _ state.statePath W1) as (-> & _);
      [names_differ|reflexivity]. }
  rewrite (SaveTo_Load {| state.Challenge := Key ch; state.Stage := stage0 |}
             fs2 fs3 (Key ch) stage0).
  - reflexivity.
  - apply SaveTo_of_WriteFile. exact W3.
  - intros f F. rewrite E2 in F. exact (R f F).
  - reflexivity.
  - exact N.
Qed.

(** X11.  A challenge registered without a stage.  [InitChallenge] with the
    key alone never returns without an error then.  When run.sh and README.md
    can both be written it panics on the first element of the empty
    [StageOrder], with these two files written and lc.state and .gitignore
    untouched; otherwise it returns the error of the write that failed. *)
Theorem X11_init_without_stages_panics :
  forall (reg : Registry) mk (key : gostring) (ch : Challenge)
         (fs fs' : os.FS) r,
    reg key = inl ch ->
    StageOrder ch = [] ->
    InitChallenge reg mk [key] fs = (fs', r) ->
    match r with
    | Panics p =>
      p = IndexOutOfRange 0 0 /\
      writableAt fs (go "run.sh") = true /\
      writableAt fs (go "README.md") = true /\
      content fs' (go "run.sh") = Some scriptTemplate /\
      content fs' (go "README.md") = Some (README ch) /\
      os.files fs' !! go "lc.state" = os.files fs !! go "lc.state" /\
      os.files fs' !! go ".gitignore" = os.files fs !! go ".gitignore"
    | Returns None => False
    | Returns (Some e) =>
      writableAt fs (go "run.sh") = false \/
      writableAt fs (go "README.md") = false
    end.
Proof.
  intros reg mk key ch fs fs' r G O.
  unfold InitChallenge. rewrite G. unfold createChallengeFiles.
  rewrite Join_here_run, Join_here_readme, index_first, O.
  destruct (os.WriteFile fs _ _ _) as [fs1 [e|]] eqn:W1.
  { intros E. inversion E; subst. left.
    exact (proj2 (WriteFile_failed _ _ _ _ _ _ W1)). }
  destruct (os.WriteFile fs1 _ _ _) as [fs2 [e|]] eqn:W2.
  { intros E. inversion E; subst. right.
    destruct (WriteFile_other _ _ _ _ _ (go "README.md") W1) as (_ & <- & _);
      [names_differ|].
    exact (proj2 (WriteFile_failed _ _ _ _ _ _ W2)). }
  intros E. inversion E; subst.
  split; [reflexivity|].
  split; [exact (proj1 (WriteFile_done _ _ _ _ _ W1))|].
  split.
  { destruct (WriteFile_other _ _ _ _ _ (go "README.md") W1) as (_ & <- & _);
      [names_differ|].
    exact (proj1 (WriteFile_done _ _ _ _ _ W2)). }
  split.
  { destruct (WriteFile_other _ _ _ _ _ (go "run.sh") W2) as (_ & _ & ->);
      [names_differ|].
    exact (WriteFile_content _ _ _ _ _ W1). }
  split; [exact (WriteFile_content _ _ _ _ _ W2)|].
  split.
  - destruct (WriteFile_other _ _ _ _ _ (go "lc.state") W2) as (-> & _);
      [names_differ|].
    destruct (WriteFile_other _ _ _ _ _ (go "lc.state") W1) as (-> & _);
      [names_differ|reflexivity].
  - destruct (WriteFile_other _ _ _ _ _ (go ".gitignore") W2) as (-> & _);
      [names_differ|].
    destruct (WriteFile_other _ _ _ _ _ (go ".gitignore") W1) as (-> & _);
      [names_differ|reflexivity].
Qed.

End Init.

Section Stages.
Import registry cli.

Lemma Sprintf_stage_line stage :
  fmt.Sprintf (go "- %s" ++ [nl]) [stage] = go "- " ++ stage ++ [nl].
Proof. reflexivity. Qed.

Lemma Sprintf_wrap err msg :
  fmt.Sprintf (go "%w" ++ nl :: go "%s") [err; msg] = err ++ nl :: msg.
Proof. cbn. rewrite app_nil_r. reflexivity. Qed.

Lemma stageLines_spec stages : forall msg,
  stageLines msg stages =
  msg ++ concat (map (fun stage => go "- " ++ stage ++ [nl]) stages).
Proof.
  induction stages as [|s rest IH]; intros msg; cbn [stageLines map concat].
  - symmetry. apply app_nil_r.
  - rewrite IH, Sprintf_stage_line, <- app_assoc. reflexivity.
Qed.

Lemma runStageTests_unknown_challenge (reg : Registry) ck sk fs err :
  reg ck = inr err -> runStageTests reg ck sk fs = (fs, (false, Some err)).
Proof. intros G. unfold runStageTests. rewrite G. reflexivity. Qed.

Lemma runStageTests_run (reg : Registry) ck sk fs ch stg passed fs1 :
  reg ck = inl ch -> GetStage ch sk = inl stg -> Run stg fs = (passed, fs1) ->
  runStageTests reg ck sk fs = (fs1, (passed, None)).
Proof. intros G S R. unfold runStageTests. rewrite G, S, R. reflexivity. Qed.

(** Only a run of the stage's suite makes [runStageTests] answer [true] or
    return without an error. *)
Lemma runStageTests_inv (reg : Registry) ck sk fs fs' passed err :
  runStageTests reg ck sk fs = (fs', (passed, err)) ->
  (passed = true \/ err = None) ->
  err = None /\
  exists ch stg, reg ck = inl ch /\ GetStage ch sk = inl stg /\
                 Run stg fs = (passed, fs').
Proof.
  unfold runStageTests.
  destruct (reg ck) as [ch|e] eqn:G.
  - destruct (GetStage ch sk) as [stg|e] eqn:S.
    + destruct (Run stg fs) as [p fs1] eqn:R. intros E _. inversion E; subst.
      split; [reflexivity|]. eauto.
    + intros E [P|P]; inversion E; subst; discriminate.
  - intros E [P|P]; inversion E; subst; discriminate.
Qed.

(** X12.  The error of [runStageTests] for a stage the challenge does not
    have: the error of [GetStage], an empty line, the heading "Available
    stages:" and one line "- <key>" for each stage of [StageOrder], in
    order.  No suite is run and no file is touched. *)
Theorem X12_unknown_stage_lists_the_stages :
  forall (reg : Registry) (challengeKey stageKey : gostring)
         (ch : Challenge) (err : state.error) (fs : os.FS),
    reg challengeKey = inl ch ->
    GetStage ch stageKey = inr err ->
    runStageTests reg challengeKey stageKey fs =
      (fs, (false,
            Some (err ++ nl :: nl :: go "Available stages:" ++ nl ::
                  concat (map (fun stage => go "- " ++ stage ++ [nl])
                              (StageOrder ch))))).
Proof.
  intros reg ck sk ch err fs G S. unfold runStageTests. rewrite G, S.
  rewrite Sprintf_wrap, stageLines_spec.
  reflexivity.
Qed.

Lemma guideError_text ck sk :
  guideError ck sk =
  let url := DocsBaseURL ++ "/"%char :: ck ++ "/"%char :: sk in
  nl :: go "Read the guide: " ++ esc :: go "]8;;" ++ url ++ esc :: "\"%char ::
  url ++ esc :: go "]8;;" ++ esc :: "\"%char :: [nl].
Proof.
  unfold guideError. cbn. rewrite !app_nil_r.
  repeat (rewrite <- ?app_assoc; cbn [app]; f_equal).
Qed.

Lemma TestStage_run (reg : Registry) args fs cfg sk :
  validateEnvironment fs = inl cfg -> stageArg cfg args = Some sk ->
  TestStage reg args fs =
  let '(fs1, (passed, err)) :=
    runStageTests reg (state.Challenge cfg) sk fs in
  if passed then (fs1, err)
  else (fs1, Some (guideError (state.Challenge cfg) sk)).
Proof.
  intros V A. unfold TestStage. rewrite V.
  destruct args as [|a [|b rest]]; cbn in A; inversion A; subst; reflexivity.
Qed.

(** X13.  [TestStage] returns no error exactly when the suite of the stage
    has run and passed: the environment is valid, there is at most one
    argument, the saved challenge and the stage (the saved one, or the
    argument) are in the registry, and the run answers [true].  The file
    system is then the one the run leaves. *)
Theorem X13_test_succeeds_exactly_when_suite_passes :
  forall (reg : Registry) (args : list gostring) (fs fs' : os.FS),
    TestStage reg args fs = (fs', None) <->
    exists cfg stageKey ch stg,
      validateEnvironment fs = inl cfg /\
      stageArg cfg args = Some stageKey /\
      reg (state.Challenge cfg) = inl ch /\
      GetStage ch stageKey = inl stg /\
      Run stg fs = (true, fs').
Proof.
  intros reg args fs fs'. split.
  - destruct (validateEnvironment fs) as [cfg|e] eqn:V.
    2:{ unfold TestStage. rewrite V. discriminate. }
    destruct (stageArg cfg args) as [sk|] eqn:A.
    2:{ unfold TestStage. rewrite V.
        destruct args as [|a [|b rest]]; try discriminate A. discriminate. }
    rewrite (TestStage_run reg args fs cfg sk V A).
    destruct (runStageTests reg (state.Challenge cfg) sk fs)
      as [fs1 [passed err]] eqn:R.
    destruct passed; [|discriminate].
    intros E. inversion E; subst.
    destruct (runStageTests_inv _ _ _ _ _ _ _ R (or_introl eq_refl))
      as (_ & ch & stg & G & S & RN).
    exists cfg, sk, ch, stg. auto.
  - intros (cfg & sk & ch & stg & V & A & G & S & R).
    rewrite (TestStage_run reg args fs cfg sk V A).
    rewrite (runStageTests_run reg _ sk fs ch stg true fs' G S R). reflexivity.
Qed.

(** X14.  Whatever goes wrong in [TestStage] after the environment and the
    arguments are accepted, the caller gets the same error: the line "Read
    the guide: " with a terminal hyperlink whose target and text are both
    DocsBaseURL/<challenge>/<stage>.  This is so when the suite fails, but
    also when the challenge or the stage is not in the registry: the error
    of [runStageTests] is overwritten and never returned. *)
Theorem X14_test_failure_is_the_guide_error :
  forall (reg : Registry) (args : list gostring) (fs : os.FS)
         (cfg : state.State) (stageKey : gostring),
    validateEnvironment fs = inl cfg ->
    stageArg cfg args = Some stageKey ->
    let url := DocsBaseURL ++ "/"%char :: state.Challenge cfg ++
               "/"%char :: stageKey in
    let guide :=
      nl :: go "Read the guide: " ++ esc :: go "]8;;" ++ url ++ esc ::
      "\"%char :: url ++ esc :: go "]8;;" ++ esc :: "\"%char :: [nl] in
    (forall fs' e, TestStage reg args fs = (fs', Some e) -> e = guide) /\
    (forall err, reg (state.Challenge cfg) = inr err ->
                 TestStage reg args fs = (fs, Some guide)) /\
    (forall ch err, reg (state.Challenge cfg) = inl ch ->
                    GetStage ch stageKey = inr err ->
                    TestStage reg args fs = (fs, Some guide)).
Proof.
  intros reg args fs cfg sk V A url guide.
  assert (guideError (state.Challenge cfg) sk = guide) as GE
      by apply guideError_text.
  rewrite (TestStage_run reg args fs cfg sk V A).
  split; [|split].
  - intros fs' e.
    destruct (runStageTests reg (state.Challenge cfg) sk fs)
      as [fs1 [passed err]] eqn:R.
    destruct passed.
    + destruct (runStageTests_inv _ _ _ _ _ _ _ R (or_introl eq_refl))
        as (-> & _). discriminate.
    + intros E. inversion E; subst. exact GE.
  - intros err G. rewrite (runStageTests_unknown_challenge reg _ sk fs err G).
    rewrite GE. reflexivity.
  - intros ch err G S. unfold runStageTests. rewrite G, S, GE. reflexivity.
Qed.

End Stages.

Section Next.
Import registry cli.

Lemma wrapInt_id z : - 2 ^ 63 <= z < 2 ^ 63 -> wrapInt z = z.
Proof. intros R. unfold wrapInt. rewrite Z.mod_small; lia. Qed.

Lemma Errorf_complete stage :
  fmt.Sprintf (go "Complete %s before advancing.") [stage] =
  go "Complete " ++ stage ++ go " before advancing.".
Proof. reflexivity. Qed.

Lemma validateEnvironment_Load fs cfg :
  validateEnvironment fs = inl cfg -> state.Load fs = inl cfg.
Proof.
  unfold validateEnvironment.
  destruct (os.IsNotExist _); [discriminate|].
  destruct (state.Load fs); [|discriminate]. intros E; inversion E; reflexivity.
Qed.

(** A state that [Load] returned, saved over a readable lc.state, is what
    [Load] returns afterwards. *)
Lemma Save_loaded fs0 fs fs' st :
  state.Load fs0 = inl st ->
  (forall f, os.files fs !! state.statePath = Some f -> os.readable f = true) ->
  state.Save st fs = (fs', None) ->
  state.Load fs' = inl st.
Proof.
  intros L R S.
  destruct (Load_inv _ _ L) as (f & c & s & _ & _ & _ & N & ->).
  unfold state.Save in S.
  rewrite (SaveTo_Load _ fs fs' _ _ S R eq_refl
             (not_elem_of_TrimSpace colon c N)).
  cbn [state.Challenge state.Stage]. rewrite !TrimSpace_idempotent. reflexivity.
Qed.

(** The next stage saved beside a loaded challenge. *)
Lemma Save_next fs0 fs fs' cfg next :
  state.Load fs0 = inl cfg ->
  (forall f, os.files fs !! state.statePath = Some f -> os.readable f = true) ->
  state.Save {| state.Challenge := state.Challenge cfg;
                state.Stage := next |} fs = (fs', None) ->
  state.Load fs' = inl {| state.Challenge := state.Challenge cfg;
                          state.Stage := strings.TrimSpace next |}.
Proof.
  intros L R S.
  destruct (Load_inv _ _ L) as (f & c & s & _ & _ & _ & N & ->).
  unfold state.Save in S. cbn [state.Challenge state.Stage] in *.
  rewrite (SaveTo_Load _ fs fs' _ _ S R eq_refl
             (not_elem_of_TrimSpace colon c N)).
  cbn [state.Challenge state.Stage].
  rewrite TrimSpace_idempotent. reflexivity.
Qed.

(** [NextStage] once the suite of the current stage has run. *)
Lemma NextStage_run (reg : Registry) fs cfg ch stg passed fs1 :
  validateEnvironment fs = inl cfg ->
  reg (state.Challenge cfg) = inl ch ->
  StageIndex ch (state.Stage cfg) <> -1 ->
  GetStage ch (state.Stage cfg) = inl stg ->
  Run stg fs = (passed, fs1) ->
  NextStage reg fs =
  if negb passed then
    (fs1, Returns (Some (go "Complete " ++ state.Stage cfg ++
                         go " before advancing.")))
  else if StageIndex ch (state.Stage cfg) =? wrapInt (Len ch - 1) then
    let '(fs2, err) := state.Save cfg fs1 in (fs2, Returns err)
  else
    match index (StageOrder ch) (wrapInt (StageIndex ch (state.Stage cfg) + 1)) with
    | Panics p => (fs1, Panics p)
    | Returns nextStageKey =>
      match state.Save {| state.Challenge := state.Challenge cfg;
                          state.Stage := nextStageKey |} fs1 with
      | (fs2, Some err) => (fs2, Returns (Some err))
      | (fs2, None) =>
        match GetStage ch nextStageKey with
        | inr err => (fs2, Returns (Some err))
        | inl _ => (fs2, Returns None)
        end
      end
    end.
Proof.
  intros V G I S R. unfold NextStage. rewrite V, G.
  destruct (StageIndex ch (state.Stage cfg) =? -1) eqn:E;
    [apply Z.eqb_eq in E; contradiction|].
  rewrite (runStageTests_run reg _ _ fs ch stg passed fs1 G S R).
  rewrite Errorf_complete. reflexivity.
Qed.

(** X15.  [NextStage] does not advance on a failing stage, and returns no
    error only after a passing one.  When the suite of the current stage
    fails, the error is "Complete <stage> before advancing." and the file
    system is the one the run leaves: lc.state is not written.  And whenever
    [NextStage] returns without an error, the suite of the saved stage has
    run and passed. *)
Theorem X15_next_requires_a_passing_stage :
  forall (reg : Registry) (fs : os.FS),
    (forall cfg ch stg fs1,
        validateEnvironment fs = inl cfg ->
        reg (state.Challenge cfg) = inl ch ->
        StageIndex ch (state.Stage cfg) <> -1 ->
        GetStage ch (state.Stage cfg) = inl stg ->
        Run stg fs = (false, fs1) ->
        NextStage reg fs =
          (fs1, Returns (Some (go "Complete " ++ state.Stage cfg ++
                               go " before advancing.")))) /\
    (forall fs',
        NextStage reg fs = (fs', Returns None) ->
        exists cfg ch stg fs1,
          validateEnvironment fs = inl cfg /\
          reg (state.Challenge cfg) = inl ch /\
          GetStage ch (state.Stage cfg) = inl stg /\
          Run stg fs = (true, fs1)).
Proof.
  intros reg fs. split.
  - intros cfg ch stg fs1 V G I S R.
    rewrite (NextStage_run reg fs cfg ch stg false fs1 V G I S R). reflexivity.
  - intros fs'. unfold NextStage.
    destruct (validateEnvironment fs) as [cfg|e] eqn:V; [|discriminate].
    destruct (reg (state.Challenge cfg)) as [ch|e] eqn:G; [|discriminate].
    destruct (StageIndex ch (state.Stage cfg) =? -1); [discriminate|].
    destruct (runStageTests reg (state.Challenge cfg) (state.Stage cfg) fs)
      as [fs1 [passed [err|]]] eqn:R; [discriminate|].
    destruct (runStageTests_inv _ _ _ _ _ _ _ R (or_intror eq_refl))
      as (_ & ch' & stg & G' & S & RN).
    rewrite G in G'. inversion G'; subst ch'.
    destruct passed; [|discriminate].
    intros _. exists cfg, ch, stg, fs1. auto.
Qed.


(** X17.  After [NextStage] has advanced, the directory is valid for the
    next command: under the conditions of an advance and with an lc.state
    that the run has left readable, when [NextStage] returns no error [Load]
    returns the saved challenge with the next stage, trimmed. *)
Theorem X17_next_then_load :
  forall (reg : Registry) (fs fs1 fs' : os.FS) (cfg : state.State)
         (ch : Challenge) (stg : Stage) (next : gostring),
    validateEnvironment fs = inl cfg ->
    reg (state.Challenge cfg) = inl ch ->
    StageIndex ch (state.Stage cfg) <> -1 ->
    StageIndex ch (state.Stage cfg) <> wrapInt (Len ch - 1) ->
    GetStage ch (state.Stage cfg) = inl stg ->
    Run stg fs = (true, fs1) ->
    (forall f, os.files fs1 !! state.statePath = Some f -> os.readable f = true) ->
    index (StageOrder ch) (wrapInt (StageIndex ch (state.Stage cfg) + 1)) = Returns next ->
    NextStage reg fs = (fs', Returns None) ->
    state.Load fs' =
      inl {| state.Challenge := state.Challenge cfg;
             state.Stage := strings.TrimSpace next |}.
Proof.
  intros reg fs fs1 fs' cfg ch stg next V G I NL S R RD IX.
  rewrite (NextStage_run reg fs cfg ch stg true fs1 V G I S R).
  cbn [negb].
  destruct (StageIndex ch (state.Stage cfg) =? wrapInt (Len ch - 1)) eqn:E;
    [apply Z.eqb_eq in E; contradiction|].
  rewrite IX.
  destruct (state.Save _ fs1) as [fs2 [e|]] eqn:SV; [discriminate|].
  destruct (GetStage ch next); [|discriminate].
  intros X; inversion X; subst.
  exact (Save_next fs fs1 fs' cfg next (validateEnvironment_Load _ _ V) RD SV).
Qed.

(** X18.  [NextStage] on the last stage, passed: the loaded state is saved
    again and nothing advances.  The result is the result of [Save], and
    when that is no error (lc.state being readable after the run), [Load]
    returns the very state it returned before. *)
Theorem X18_next_at_the_final_stage :
  forall (reg : Registry) (fs fs1 fs' : os.FS) (cfg : state.State)
         (ch : Challenge) (stg : Stage) r,
    validateEnvironment fs = inl cfg ->
    reg (state.Challenge cfg) = inl ch ->
    StageIndex ch (state.Stage cfg) <> -1 ->
    StageIndex ch (state.Stage cfg) = wrapInt (Len ch - 1) ->
    GetStage ch (state.Stage cfg) = inl stg ->
    Run stg fs = (true, fs1) ->
    (forall f, os.files fs1 !! state.statePath = Some f -> os.readable f = true) ->
    NextStage reg fs = (fs', r) ->
    (exists err, r = Returns err /\ state.Save cfg fs1 = (fs', err)) /\
    (r = Returns None -> state.Load fs' = inl cfg).
Proof.
  intros reg fs fs1 fs' cfg ch stg r V G I L S R RD.
  rewrite (NextStage_run reg fs cfg ch stg true fs1 V G I S R).
  cbn [negb]. rewrite L, Z.eqb_refl.
  destruct (state.Save cfg fs1) as [fs2 err] eqn:SV.
  intros X; inversion X; subst. split; [eauto|].
  intros E. inversion E; subst.
  exact (Save_loaded fs fs1 fs' cfg (validateEnvironment_Load _ _ V) RD SV).
Qed.

(** X19.  The index into [StageOrder] is guarded.  Over a registry whose
    challenges are well formed ([Len] is the number of stages, [StageIndex]
    answers -1 or an index of [StageOrder]), [NextStage] never panics: it
    returns, with an error or without, because the final stage is handled
    before the next key is read. *)
Theorem X19_next_never_panics :
  forall (reg : Registry),
    (forall key ch, reg key = inl ch -> wellFormed ch) ->
    forall (fs fs' : os.FS) r,
      NextStage reg fs = (fs', r) -> exists err, r = Returns err.
Proof.
  intros reg WF fs fs' r. unfold NextStage.
  destruct (validateEnvironment fs) as [cfg|e];
    [|intros X; inversion X; eauto].
  destruct (reg (state.Challenge cfg)) as [ch|e] eqn:G;
    [|intros X; inversion X; eauto].
  destruct (WF _ _ G) as (LN & LT & IX). specialize (IX (state.Stage cfg)).
  destruct (StageIndex ch (state.Stage cfg) =? -1) eqn:E1;
    [intros X; inversion X; eauto|].
  apply Z.eqb_neq in E1.
  destruct (runStageTests _ _ _ _) as [fs1 [passed [err|]]];
    [intros X; inversion X; eauto|].
  destruct passed; cbn [negb]; [|intros X; inversion X; eauto].
  destruct (StageIndex ch (state.Stage cfg) =? wrapInt (Len ch - 1)) eqn:E2.
  { destruct (state.Save cfg fs1). intros X; inversion X; eauto. }
  apply Z.eqb_neq in E2.
  rewrite wrapInt_id in E2 by lia.
  rewrite wrapInt_id by lia.
  unfold index.
  destruct ((StageIndex ch (state.Stage cfg) + 1 <? 0)
            || (Z.of_nat (length (StageOrder ch))
                <=? StageIndex ch (state.Stage cfg) + 1)) eqn:B.
  { exfalso. apply orb_true_iff in B as [B|B].
    - apply Z.ltb_lt in B. lia.
    - apply Z.leb_le in B. lia. }
  destruct (state.Save _ fs1) as [fs2 [e|]]; [intros X; inversion X; eauto|].
  destruct (GetStage ch _); intros X; inversion X; eauto.
Qed.

End Next.

Section CliWitnesses.
Import registry cli.

Lemma kv_registered : SampleCli.GetChallenge (go "kv-store") = inl SampleCli.kv.
Proof. vm_compute. reflexivity. Qed.

Lemma sample_wellFormed key ch :
  SampleCli.GetChallenge key = inl ch -> wellFormed ch.
Proof.
  unfold SampleCli.GetChallenge.
  destruct (decide (key = go "kv-store")) as [_|_].
  { intros E; inversion E; subst ch. split; [reflexivity|].
    split; [reflexivity|].
    intros stage. cbn [StageIndex SampleCli.kv Len SampleCli.indexOf].
    destruct (decide (go "http-api" = stage)); [right; lia|].
    destruct (decide (go "persistence" = stage)); [right; lia|].
    left; reflexivity. }
  destruct (decide (key = go "bare")) as [_|_]; [|discriminate].
  intros E; inversion E; subst ch. split; [reflexivity|].
  split; [reflexivity|].
  intros stage. left. reflexivity.
Qed.

(** X8 for the sample challenge in an empty directory. *)
Lemma X8_witness :
  content (fst (InitChallenge SampleCli.GetChallenge SampleCli.mkdirAll
                  [go "kv-store"] Sample.emptyDir)) (go "lc.state")
  = Some (go "kv-store:http-api" ++ [nl]).
Proof.
  destruct (X8_init_writes_the_four_files
              SampleCli.GetChallenge SampleCli.mkdirAll (go "kv-store")
              SampleCli.kv Sample.emptyDir
              (fst (InitChallenge SampleCli.GetChallenge SampleCli.mkdirAll
                      [go "kv-store"] Sample.emptyDir)))
    as (stage0 & rest & O & _ & _ & C & _).
  - exact kv_registered.
  - vm_compute. reflexivity.
  - rewrite C. inversion O; subst. vm_compute. reflexivity.
Defined.

(** X9 for the sample challenge in an empty directory. *)
Lemma X9_witness :
  exists fs',
    InitChallenge SampleCli.GetChallenge SampleCli.mkdirAll [go "kv-store"]
      Sample.emptyDir = (fs', Returns None).
Proof.
  apply (X9_init_succeeds_exactly_when_writable
           SampleCli.GetChallenge SampleCli.mkdirAll (go "kv-store")
           SampleCli.kv Sample.emptyDir kv_registered).
  split; [discriminate|].
  intros p P. unfold challengeFiles in P.
  repeat (apply elem_of_cons in P as [->|P]; [vm_compute; reflexivity|]).
  inversion P.
Defined.

(** X10 for the sample challenge in an empty directory. *)
Lemma X10_witness :
  validateEnvironment
    (fst (InitChallenge SampleCli.GetChallenge SampleCli.mkdirAll
            [go "kv-store"] Sample.emptyDir))
  = inl Sample.st.
Proof.
  destruct (X10_init_then_validate
              SampleCli.GetChallenge SampleCli.mkdirAll (go "kv-store")
              SampleCli.kv Sample.emptyDir
              (fst (InitChallenge SampleCli.GetChallenge SampleCli.mkdirAll
                      [go "kv-store"] Sample.emptyDir)))
    as (stage0 & rest & O & V).
  - exact kv_registered.
  - vm_compute. reflexivity.
  - intros f F. vm_compute in F. discriminate F.
  - intros I. vm_compute in I.
    repeat (apply elem_of_cons in I as [I|I]; [discriminate I|]).
    inversion I.
  - rewrite V. inversion O; subst. vm_compute. reflexivity.
Defined.

(** X11 for the challenge without a stage, in an empty directory. *)
Lemma X11_witness :
  snd (InitChallenge SampleCli.GetChallenge SampleCli.mkdirAll [go "bare"]
         Sample.emptyDir) = Panics (IndexOutOfRange 0 0).
Proof.
  assert (H := X11_init_without_stages_panics
                 SampleCli.GetChallenge SampleCli.mkdirAll (go "bare")
                 SampleCli.bare Sample.emptyDir
                 (fst (InitChallenge SampleCli.GetChallenge SampleCli.mkdirAll
                         [go "bare"] Sample.emptyDir))
                 (snd (InitChallenge SampleCli.GetChallenge SampleCli.mkdirAll
                         [go "bare"] Sample.emptyDir))
                 eq_refl eq_refl (surjective_pairing _)).
  destruct (snd (InitChallenge SampleCli.GetChallenge SampleCli.mkdirAll
                   [go "bare"] Sample.emptyDir)) as [[e|]|p].
  - vm_compute in H. destruct H as [H|H]; discriminate H.
  - destruct H.
  - destruct H as [-> _]. reflexivity.
Defined.

(** X12 for a stage the sample challenge does not have. *)
Lemma X12_witness :
  runStageTests SampleCli.GetChallenge (go "kv-store") (go "caching")
    Sample.emptyDir =
  (Sample.emptyDir,
   (false,
    Some (go "stage not found: caching" ++ nl :: nl ::
          go "Available stages:" ++ nl ::
          go "- http-api" ++ nl :: go "- persistence" ++ [nl]))).
Proof.
  rewrite (X12_unknown_stage_lists_the_stages
             SampleCli.GetChallenge (go "kv-store") (go "caching")
             SampleCli.kv (SampleCli.unknownStage (go "caching"))).
  - vm_compute. reflexivity.
  - exact kv_registered.
  - vm_compute. reflexivity.
Defined.

(** X14 in a directory whose lc.state names a challenge that is not in the
    registry: the caller gets the guide, not the error of the registry. *)
Lemma X14_witness :
  TestStage SampleCli.GetChallenge []
    (SampleCli.project (go "ghost:intro" ++ [nl])) =
  (SampleCli.project (go "ghost:intro" ++ [nl]),
   Some (nl :: go "Read the guide: " ++ esc ::
         go "]8;;https://littleclusters.com/ghost/intro" ++ esc ::
         go "\https://littleclusters.com/ghost/intro" ++ esc ::
         go "]8;;" ++ esc :: go "\" ++ [nl])).
Proof.
  destruct (X14_test_failure_is_the_guide_error
              SampleCli.GetChallenge []
              (SampleCli.project (go "ghost:intro" ++ [nl]))
              {| state.Challenge := go "ghost"; state.Stage := go "intro" |}
              (go "intro")) as (_ & U & _).
  - vm_compute. reflexivity.
  - reflexivity.
  - rewrite (U (go "challenge not found: ghost")).
    + vm_compute. reflexivity.
    + vm_compute. reflexivity.
Defined.


(** X17 in the same project. *)
Lemma X17_witness :
  state.Load (fst (NextStage SampleCli.GetChallenge
                     (SampleCli.project (go "kv-store:http-api" ++ [nl]))))
  = inl {| state.Challenge := go "kv-store";
           state.Stage := go "persistence" |}.
Proof.
  rewrite (X17_next_then_load
             SampleCli.GetChallenge
             (SampleCli.project (go "kv-store:http-api" ++ [nl]))
             (SampleCli.project (go "kv-store:http-api" ++ [nl]))
             _ Sample.st SampleCli.kv (SampleCli.passing (go "HTTP API"))
             (go "persistence")).
  - vm_compute. reflexivity.
  - vm_compute. reflexivity.
  - exact kv_registered.
  - intros E. vm_compute in E. discriminate E.
  - intros E. vm_compute in E. discriminate E.
  - vm_compute. reflexivity.
  - reflexivity.
  - intros f F. vm_compute in F. inversion F; subst. reflexivity.
  - vm_compute. reflexivity.
  - vm_compute. reflexivity.
Defined.

(** X18 in a project at the last stage of the sample challenge, with blanks
    in its record. *)
Lemma X18_witness :
  state.Load (fst (NextStage SampleCli.GetChallenge
                     (SampleCli.project (go " kv-store : persistence" ++ [nl]))))
  = inl {| state.Challenge := go "kv-store";
           state.Stage := go "persistence" |}.
Proof.
  apply (X18_next_at_the_final_stage
           SampleCli.GetChallenge
           (SampleCli.project (go " kv-store : persistence" ++ [nl]))
           (SampleCli.project (go " kv-store : persistence" ++ [nl]))
           _ _ SampleCli.kv (SampleCli.passing (go "Persistence"))
           (Returns None)).
  - vm_compute. reflexivity.
  - exact kv_registered.
  - intros E. vm_compute in E. discriminate E.
  - vm_compute. reflexivity.
  - vm_compute. reflexivity.
  - reflexivity.
  - intros f F. vm_compute in F. inversion F; subst. reflexivity.
  - vm_compute. reflexivity.
  - reflexivity.
Defined.

(** X19 for the sample registry, in a project at the first stage. *)
Lemma X19_witness :
  exists err,
    snd (NextStage SampleCli.GetChallenge
           (SampleCli.project (go "kv-store:http-api" ++ [nl])))
    = Returns err.
Proof.
  apply (X19_next_never_panics SampleCli.GetChallenge sample_wellFormed
           (SampleCli.project (go "kv-store:http-api" ++ [nl]))
           (fst (NextStage SampleCli.GetChallenge
                   (SampleCli.project (go "kv-store:http-api" ++ [nl]))))).
  apply surjective_pairing.
Defined.

End CliWitnesses.

(* ===================================================================== *)
(** * Package attest: panics and frames of the builder                    *)
(* ===================================================================== *)

Section BuilderMore.
Import attest.

Lemma setEventually_nil cfgs b :
  pb_config b = nil ->
  setEventually cfgs b = Fault nilDeref (set_timing TimingEventually b).
Proof. intros E. unfold setEventually. cbn. rewrite E. reflexivity. Qed.

Lemma setConsistently_nil cfgs b :
  pb_config b = nil ->
  setConsistently cfgs b = Fault nilDeref (set_timing TimingConsistently b).
Proof. intros E. unfold setConsistently. cbn. rewrite E. reflexivity. Qed.

(** X20.  A mode selector on a plan without a [Config].  [Eventually()] and
    [Consistently()] assign the timing first and read the default from the
    config second, so on a plan whose [config] is nil they panic on the nil
    dereference with the timing already changed and the timeout still the old
    one.  A later [Within(d)] on the plan that [Eventually()] left this way is
    therefore accepted.  Both plan kinds. *)
Theorem X20_selector_without_config_changes_the_timing :
  (forall h l pl,
      httpPlans h !! l = Some pl ->
      pb_config (http_base pl) = nil ->
      let left t :=
        HTTPPlan.store l
          (HTTPPlan.with_base (set_timing t (http_base pl)) pl) h in
      HTTPPlan.Eventually (addr l) h = Panic nilDeref (left TimingEventually) /\
      HTTPPlan.Consistently (addr l) h =
        Panic nilDeref (left TimingConsistently) /\
      HTTPPlan.timingOf (addr l) (left TimingEventually) =
        Some (TimingEventually, pb_timeout (http_base pl)) /\
      forall d, exists h2,
        HTTPPlan.Within d (addr l) (left TimingEventually) = Return (addr l) h2 /\
        HTTPPlan.timingOf (addr l) h2 = Some (TimingEventually, d)) /\
  (forall h l pl,
      cliPlans h !! l = Some pl ->
      pb_config (cli_base pl) = nil ->
      let left t :=
        CLIPlan.store l
          (CLIPlan.with_base (set_timing t (cli_base pl)) pl) h in
      CLIPlan.Eventually (addr l) h = Panic nilDeref (left TimingEventually) /\
      CLIPlan.Consistently (addr l) h =
        Panic nilDeref (left TimingConsistently) /\
      CLIPlan.timingOf (addr l) (left TimingEventually) =
        Some (TimingEventually, pb_timeout (cli_base pl)) /\
      forall d, exists h2,
        CLIPlan.Within d (addr l) (left TimingEventually) = Return (addr l) h2 /\
        CLIPlan.timingOf (addr l) h2 = Some (TimingEventually, d)).
Proof.
  split; intros h l pl E N left.
  - split; [|split; [|split]].
    + unfold HTTPPlan.Eventually, HTTPPlan.through.
      rewrite E, (setEventually_nil _ _ N). reflexivity.
    + unfold HTTPPlan.Consistently, HTTPPlan.through.
      rewrite E, (setConsistently_nil _ _ N). reflexivity.
    + unfold left. rewrite http_timingOf_store. reflexivity.
    + intros d. eexists. split.
      * unfold HTTPPlan.Within.
        eapply http_through_done.
        -- unfold left, HTTPPlan.store. cbn [httpPlans].
           apply lookup_insert_eq.
        -- apply setWithin_done. reflexivity.
      * rewrite http_timingOf_store. reflexivity.
  - split; [|split; [|split]].
    + unfold CLIPlan.Eventually, CLIPlan.through.
      rewrite E, (setEventually_nil _ _ N). reflexivity.
    + unfold CLIPlan.Consistently, CLIPlan.through.
      rewrite E, (setConsistently_nil _ _ N). reflexivity.
    + unfold left. rewrite cli_timingOf_store. reflexivity.
    + intros d. eexists. split.
      * unfold CLIPlan.Within.
        eapply cli_through_done.
        -- unfold left, CLIPlan.store. cbn [cliPlans].
           apply lookup_insert_eq.
        -- apply setWithin_done. reflexivity.
      * rewrite cli_timingOf_store. reflexivity.
Qed.

(** What a setter leaves of the [PlanBase], also when it panics. *)
Lemma setter_keeps c cfgs b :
  match setter c cfgs b with
  | Done b' | Fault _ b' => pb_ctx b' = pb_ctx b /\ pb_config b' = pb_config b
  end.
Proof.
  destruct c; cbn [setter];
    unfold setEventually, setConsistently, setWithin, setFor; cbn.
  - destruct (deref cfgs (pb_config b)); cbn; auto.
  - destruct (negb _); cbn; auto.
  - destruct (deref cfgs (pb_config b)); cbn; auto.
  - destruct (negb _); cbn; auto.
Qed.

(** One builder call on the plans: only the receiver's plan can change, and
    of it only the timing and the timeout. *)
Lemma http_invoke_plans c p h l :
  match httpPlans h !! l,
        httpPlans (heapOf (HTTPPlan.invoke c p h)) !! l with
  | Some pl, Some pl' =>
    (exists b', pl' = HTTPPlan.with_base b' pl /\
                pb_ctx b' = pb_ctx (http_base pl) /\
                pb_config b' = pb_config (http_base pl)) /\
    (p <> addr l -> pl' = pl)
  | None, None => True
  | _, _ => False
  end.
Proof.
  rewrite http_invoke_through. unfold HTTPPlan.through.
  assert (match httpPlans h !! l, httpPlans h !! l with
          | Some pl, Some pl' =>
            (exists b', pl' = HTTPPlan.with_base b' pl /\
                        pb_ctx b' = pb_ctx (http_base pl) /\
                        pb_config b' = pb_config (http_base pl)) /\
            (p <> addr l -> pl' = pl)
          | None, None => True
          | _, _ => False
          end) as Same.
  { destruct (httpPlans h !! l) as [pl|]; [|exact I].
    split; [|reflexivity].
    exists (http_base pl). rewrite http_with_base_id. auto. }
  destruct p as [|l0]; [exact Same|].
  destruct (httpPlans h !! l0) as [pl0|] eqn:E0; [|exact Same].
  pose proof (setter_keeps c (configs h) (http_base pl0)) as K.
  destruct (decide (l0 = l)) as [->|NE].
  - rewrite E0.
    destruct (setter c (configs h) (http_base pl0)) as [b'|msg b'];
      cbn [heapOf HTTPPlan.store httpPlans]; rewrite lookup_insert_eq;
      (split; [exists b'; split; [reflexivity|exact K]|congruence]).
  - destruct (setter c (configs h) (http_base pl0)) as [b'|msg b'];
      cbn [heapOf HTTPPlan.store httpPlans];
      (rewrite lookup_insert_ne; [exact Same|exact NE]).
Qed.

Lemma cli_invoke_plans c p h l :
  match cliPlans h !! l,
        cliPlans (heapOf (CLIPlan.invoke c p h)) !! l with
  | Some pl, Some pl' =>
    (exists b', pl' = CLIPlan.with_base b' pl /\
                pb_ctx b' = pb_ctx (cli_base pl) /\
                pb_config b' = pb_config (cli_base pl)) /\
    (p <> addr l -> pl' = pl)
  | None, None => True
  | _, _ => False
  end.
Proof.
  rewrite cli_invoke_through. unfold CLIPlan.through.
  assert (match cliPlans h !! l, cliPlans h !! l with
          | Some pl, Some pl' =>
            (exists b', pl' = CLIPlan.with_base b' pl /\
                        pb_ctx b' = pb_ctx (cli_base pl) /\
                        pb_config b' = pb_config (cli_base pl)) /\
            (p <> addr l -> pl' = pl)
          | None, None => True
          | _, _ => False
          end) as Same.
  { destruct (cliPlans h !! l) as [pl|]; [|exact I].
    split; [|reflexivity].
    exists (cli_base pl). rewrite cli_with_base_id. auto. }
  destruct p as [|l0]; [exact Same|].
  destruct (cliPlans h !! l0) as [pl0|] eqn:E0; [|exact Same].
  pose proof (setter_keeps c (configs h) (cli_base pl0)) as K.
  destruct (decide (l0 = l)) as [->|NE].
  - rewrite E0.
    destruct (setter c (configs h) (cli_base pl0)) as [b'|msg b'];
      cbn [heapOf CLIPlan.store cliPlans]; rewrite lookup_insert_eq;
      (split; [exists b'; split; [reflexivity|exact K]|congruence]).
  - destruct (setter c (configs h) (cli_base pl0)) as [b'|msg b'];
      cbn [heapOf CLIPlan.store cliPlans];
      (rewrite lookup_insert_ne; [exact Same|exact NE]).
Qed.

Lemma http_chain_step c cs p h :
  heapOf (HTTPPlan.chain (c :: cs) p h) =
  match HTTPPlan.invoke c p h with
  | Return _ h1 => heapOf (HTTPPlan.chain cs p h1)
  | Panic _ h1 => h1
  end.
Proof.
  rewrite http_chain_cons.
  destruct (HTTPPlan.invoke c p h) as [r h1|msg h1] eqn:E; [|reflexivity].
  rewrite http_invoke_through in E.
  rewrite (http_through_receiver _ _ _ _ _ E). reflexivity.
Qed.

Lemma cli_chain_step c cs p h :
  heapOf (CLIPlan.chain (c :: cs) p h) =
  match CLIPlan.invoke c p h with
  | Return _ h1 => heapOf (CLIPlan.chain cs p h1)
  | Panic _ h1 => h1
  end.
Proof.
  rewrite cli_chain_cons.
  destruct (CLIPlan.invoke c p h) as [r h1|msg h1] eqn:E; [|reflexivity].
  rewrite cli_invoke_through in E.
  rewrite (cli_through_receiver _ _ _ _ _ E). reflexivity.
Qed.

(** X21.  What a chain of builder calls can change.  Whatever the calls and
    whether the chain returns or panics on the way, the heap it leaves has
    the same configs and asserts, the same plans of the other kind, and the
    same plan addresses; every plan but the receiver's is unchanged, and the
    receiver's plan differs at most in its timing and timeout: method, url,
    headers and body (command and args), the context and the config pointer
    are as before. *)
Theorem X21_builder_chain_changes_only_the_timing :
  (forall cs p h,
      let h' := heapOf (HTTPPlan.chain cs p h) in
      configs h' = configs h /\ cliPlans h' = cliPlans h /\
      httpAsserts h' = httpAsserts h /\ cliAsserts h' = cliAsserts h /\
      forall l,
        match httpPlans h !! l, httpPlans h' !! l with
        | Some pl, Some pl' =>
          (exists b', pl' = HTTPPlan.with_base b' pl /\
                      pb_ctx b' = pb_ctx (http_base pl) /\
                      pb_config b' = pb_config (http_base pl)) /\
          (p <> addr l -> pl' = pl)
        | None, None => True
        | _, _ => False
        end) /\
  (forall cs p h,
      let h' := heapOf (CLIPlan.chain cs p h) in
      configs h' = configs h /\ httpPlans h' = httpPlans h /\
      httpAsserts h' = httpAsserts h /\ cliAsserts h' = cliAsserts h /\
      forall l,
        match cliPlans h !! l, cliPlans h' !! l with
        | Some pl, Some pl' =>
          (exists b', pl' = CLIPlan.with_base b' pl /\
                      pb_ctx b' = pb_ctx (cli_base pl) /\
                      pb_config b' = pb_config (cli_base pl)) /\
          (p <> addr l -> pl' = pl)
        | None, None => True
        | _, _ => False
        end).
Proof.
  split.
  - induction cs as [|c cs IH]; intros p h h'.
    + subst h'. rewrite http_chain_nil. cbn [heapOf].
      repeat (split; [reflexivity|]).
      intros l. destruct (httpPlans h !! l) as [pl|]; [|exact I].
      split; [|reflexivity].
      exists (http_base pl). rewrite http_with_base_id. auto.
    + subst h'. rewrite http_chain_step.
      pose proof (http_invoke_frame c p h) as F. cbn zeta in F.
      pose proof (http_invoke_plans c p h) as P.
      destruct (HTTPPlan.invoke c p h) as [r h1|msg h1]; cbn [heapOf] in *.
      * specialize (IH p h1). cbn zeta in IH.
        destruct IH as (A1 & A2 & A3 & A4 & A5).
        destruct F as (F1 & F2 & F3 & F4).
        split; [congruence|]. split; [congruence|].
        split; [congruence|]. split; [congruence|].
        intros l. specialize (P l). specialize (A5 l).
        destruct (httpPlans h !! l) as [pl|],
                 (httpPlans h1 !! l) as [pl1|],
                 (httpPlans (heapOf (HTTPPlan.chain cs p h1)) !! l) as [pl2|];
          try contradiction; try exact I.
        destruct P as [(b1 & -> & C1 & G1) Q1], A5 as [(b2 & -> & C2 & G2) Q2].
        split.
        -- exists b2. split; [destruct pl; reflexivity|].
           cbn [HTTPPlan.with_base http_base] in C2, G2. split; congruence.
        -- intros NE. rewrite (Q2 NE). exact (Q1 NE).
      * destruct F as (F1 & F2 & F3 & F4). auto.
  - induction cs as [|c cs IH]; intros p h h'.
    + subst h'. rewrite cli_chain_nil. cbn [heapOf].
      repeat (split; [reflexivity|]).
      intros l. destruct (cliPlans h !! l) as [pl|]; [|exact I].
      split; [|reflexivity].
      exists (cli_base pl). rewrite cli_with_base_id. auto.
    + subst h'. rewrite cli_chain_step.
      pose proof (cli_invoke_frame c p h) as F. cbn zeta in F.
      pose proof (cli_invoke_plans c p h) as P.
      destruct (CLIPlan.invoke c p h) as [r h1|msg h1]; cbn [heapOf] in *.
      * specialize (IH p h1). cbn zeta in IH.
        destruct IH as (A1 & A2 & A3 & A4 & A5).
        destruct F as (F1 & F2 & F3 & F4).
        split; [congruence|]. split; [congruence|].
        split; [congruence|]. split; [congruence|].
        intros l. specialize (P l). specialize (A5 l).
        destruct (cliPlans h !! l) as [pl|],
                 (cliPlans h1 !! l) as [pl1|],
                 (cliPlans (heapOf (CLIPlan.chain cs p h1)) !! l) as [pl2|];
          try contradiction; try exact I.
        destruct P as [(b1 & -> & C1 & G1) Q1], A5 as [(b2 & -> & C2 & G2) Q2].
        split.
        -- exists b2. split; [destruct pl; reflexivity|].
           cbn [CLIPlan.with_base cli_base] in C2, G2. split; congruence.
        -- intros NE. rewrite (Q2 NE). exact (Q1 NE).
      * destruct F as (F1 & F2 & F3 & F4). auto.
Qed.

End BuilderMore.

Section BuilderMoreWitnesses.
Import attest.

(** X20 on the plan without a config: after the panic of [Eventually()] the
    plan is in the Eventually mode with its old timeout. *)
Lemma X20_witness :
  HTTPPlan.timingOf (addr 1)
    (heapOf (HTTPPlan.Eventually (addr 1) SampleBare.heap))
  = Some (TimingEventually, 3 * Second).
Proof.
  destruct (proj1 X20_selector_without_config_changes_the_timing
              SampleBare.heap 1%positive SampleBare.orphan eq_refl eq_refl)
    as (E & _ & T & _).
  rewrite E. exact T.
Defined.

End BuilderMoreWitnesses.
